(** * Enigma landing page: the animation and observation engine

    A shallow embedding of [script.js] and of its sibling variant
    (version 2.0.0 of the same script): the multilingual hero banner, the
    rate limiters [throttle] and [debounce], the statistics counter, the
    intersection-observer callbacks, the navigation with its mobile menu,
    the validation of the contact form, and the start-up of version
    2.0.0.

    Conventions.
    - The browser's timer queue, clock and media signals are explicit state.
      A closure handed to [setInterval], [setTimeout] or
      [requestAnimationFrame] is a constructor of a callback type together
      with the variables it captured; a listener handed to
      [addEventListener] is a constructor of a listener type.
    - Wall-clock instants of the timer queue are integers (milliseconds).
    - A task of the event loop runs to its end before a timer callback
      can run, and a timer callback runs at the instant for which it was
      armed, before any task that starts at that instant or later.
    - The statistics counter computes on JavaScript numbers.  A number is
      a rational; the rounding of the arithmetic operators and the
      implementation-chosen [Math.pow] are parameters of the model (class
      [Stats.Arithmetic]), and arithmetic without rounding error is one
      instance.
    - The value of a form control is a sequence of UTF-16 code units. *)

From Stdlib Require Import ZArith QArith Qround Qminmax Lia Lqa.
From stdpp Require Import gmap strings list pretty.

Local Open Scope string_scope.

(** ** DOM elements *)

Module Dom.

(** The part of an [HTMLElement] the scripts read and write. *)
Record Element := mkElement {
  textContent : string;
  attributes : gmap string string;
  classList : list string
}.

Definition set_textContent (s : string) (e : Element) : Element :=
  mkElement s (attributes e) (classList e).

Definition setAttribute (k v : string) (e : Element) : Element :=
  mkElement (textContent e) (<[k:=v]> (attributes e)) (classList e).

Definition getAttribute (k : string) (e : Element) : option string :=
  attributes e !! k.

(** [DOMTokenList]: an ordered set of tokens. *)
Definition contains (c : string) (l : list string) : bool :=
  bool_decide (c ∈ l).

Definition tokens_add (c : string) (l : list string) : list string :=
  if contains c l then l else l ++ [c].

Definition tokens_remove (c : string) (l : list string) : list string :=
  filter (λ x, x ≠ c) l.

Definition classList_add (c : string) (e : Element) : Element :=
  mkElement (textContent e) (attributes e) (tokens_add c (classList e)).

Definition classList_remove (c : string) (e : Element) : Element :=
  mkElement (textContent e) (attributes e) (tokens_remove c (classList e)).

Definition classList_contains (c : string) (e : Element) : bool :=
  contains c (classList e).

End Dom.

(** ** Multilingual hero banner ([script.js], lines 11-244 and 754-812) *)

Module Lang.
Import Dom.

(** *** Configuration *)

Definition ANIMATION_INTERVAL : Z := 3000.
Definition FADE_DURATION : Z := 800.

Record LanguageEntry := mkLanguage {
  text : string;
  lang : string;
  label : string
}.

Definition LANGUAGES : list LanguageEntry :=
  [ mkLanguage "ENIGMA" "en" "English";
    mkLanguage "एनिग्मा" "hi" "Hindi";
    mkLanguage "ಎನಿಗ್ಮಾ" "kn" "Kannada";
    mkLanguage "एनिग्मा" "mr" "Marathi";
    mkLanguage "એનિગ્મા" "gu" "Gujarati";
    mkLanguage "এনিগ্মা" "bn" "Bengali" ].

(** *** Timers

    The three closures the animator hands to the timer queue.  Each of
    them captures [element], which is always the node with id
    [hero-text]; [CbSwapLanguage] also captures [languageIndex]. *)
Inductive callback :=
| CbLanguageTick
| CbSwapLanguage (languageIndex : nat)
| CbFadeInDone.

Record timer := mkTimer {
  tid : nat;
  due : Z;
  period : option Z;
  cb : callback
}.

(** *** Page state *)

Record World := mkWorld {
  (* platform *)
  now : Z;
  nextTimerId : nat;
  timers : list timer;
  hero : option Element;
  mediaReduce : bool;
  docHidden : bool;
  motionListeners : nat;
  (* module-level variables of the script *)
  currentLanguageIndex : nat;
  animationInterval : option nat;
  prefersReducedMotion : bool
}.

Definition set_now (t : Z) (w : World) : World :=
  mkWorld t (nextTimerId w) (timers w) (hero w) (mediaReduce w)
    (docHidden w) (motionListeners w) (currentLanguageIndex w)
    (animationInterval w) (prefersReducedMotion w).

Definition set_nextTimerId (n : nat) (w : World) : World :=
  mkWorld (now w) n (timers w) (hero w) (mediaReduce w)
    (docHidden w) (motionListeners w) (currentLanguageIndex w)
    (animationInterval w) (prefersReducedMotion w).

Definition set_timers (ts : list timer) (w : World) : World :=
  mkWorld (now w) (nextTimerId w) ts (hero w) (mediaReduce w)
    (docHidden w) (motionListeners w) (currentLanguageIndex w)
    (animationInterval w) (prefersReducedMotion w).

Definition set_hero (h : option Element) (w : World) : World :=
  mkWorld (now w) (nextTimerId w) (timers w) h (mediaReduce w)
    (docHidden w) (motionListeners w) (currentLanguageIndex w)
    (animationInterval w) (prefersReducedMotion w).

Definition set_mediaReduce (b : bool) (w : World) : World :=
  mkWorld (now w) (nextTimerId w) (timers w) (hero w) b
    (docHidden w) (motionListeners w) (currentLanguageIndex w)
    (animationInterval w) (prefersReducedMotion w).

Definition set_docHidden (b : bool) (w : World) : World :=
  mkWorld (now w) (nextTimerId w) (timers w) (hero w) (mediaReduce w)
    b (motionListeners w) (currentLanguageIndex w)
    (animationInterval w) (prefersReducedMotion w).

Definition set_motionListeners (n : nat) (w : World) : World :=
  mkWorld (now w) (nextTimerId w) (timers w) (hero w) (mediaReduce w)
    (docHidden w) n (currentLanguageIndex w)
    (animationInterval w) (prefersReducedMotion w).

Definition set_currentLanguageIndex (i : nat) (w : World) : World :=
  mkWorld (now w) (nextTimerId w) (timers w) (hero w) (mediaReduce w)
    (docHidden w) (motionListeners w) i
    (animationInterval w) (prefersReducedMotion w).

Definition set_animationInterval (h : option nat) (w : World) : World :=
  mkWorld (now w) (nextTimerId w) (timers w) (hero w) (mediaReduce w)
    (docHidden w) (motionListeners w) (currentLanguageIndex w)
    h (prefersReducedMotion w).

Definition set_prefersReducedMotion (b : bool) (w : World) : World :=
  mkWorld (now w) (nextTimerId w) (timers w) (hero w) (mediaReduce w)
    (docHidden w) (motionListeners w) (currentLanguageIndex w)
    (animationInterval w) b.

Arguments set_now t !w /.
Arguments set_nextTimerId n !w /.
Arguments set_timers ts !w /.
Arguments set_hero h !w /.
Arguments set_mediaReduce b !w /.
Arguments set_docHidden b !w /.
Arguments set_motionListeners n !w /.
Arguments set_currentLanguageIndex i !w /.
Arguments set_animationInterval h !w /.
Arguments set_prefersReducedMotion b !w /.

(** *** A state monad with exceptions

    A script function is a state transformer on [World]; it either
    returns or throws, and in both cases the mutations made so far
    stay. *)
Inductive outcome (A : Type) :=
| Returns (a : A)
| Throws (error : string).
Arguments Returns {A} a.
Arguments Throws {A} error.

Definition JS (A : Type) : Type := World → World * outcome A.

Definition ret {A} (a : A) : JS A := λ w, (w, Returns a).

Definition throw {A} (error : string) : JS A := λ w, (w, Throws error).

Definition bind {A B} (m : JS A) (k : A → JS B) : JS B :=
  λ w, match m w with
       | (w', Returns a) => k a w'
       | (w', Throws error) => (w', Throws error)
       end.

Notation "'let!' x ':=' m 'in' k" := (bind m (λ x, k))
  (at level 10, x name, m at level 100, k at level 200).
Notation "m >> k" := (bind m (λ _, k))
  (at level 100, k at level 200, right associativity).

Definition modify (f : World → World) : JS unit := λ w, (f w, Returns tt).

Definition read {A} (f : World → A) : JS A := λ w, (w, Returns (f w)).

(** The state a handler leaves behind; an uncaught exception is reported
    to the console and the state stays as it is. *)
Definition exec {A} (m : JS A) (w : World) : World := fst (m w).

(** A method call on [element]. *)
Definition onElement (f : Element → Element) : JS unit :=
  modify (λ w, set_hero (f <$> hero w) w).

(** *** Platform timer API *)

Definition addTimer (p : option Z) (c : callback) (delay : Z) : JS nat :=
  λ w, let id := nextTimerId w in
       (set_nextTimerId (S id)
          (set_timers (timers w ++ [mkTimer id (now w + delay) p c]) w),
        Returns id).

Definition setInterval (c : callback) (delay : Z) : JS nat :=
  addTimer (Some delay) c delay.

Definition setTimeout (c : callback) (delay : Z) : JS nat :=
  addTimer None c delay.

Definition clearInterval (id : nat) : JS unit :=
  modify (λ w, set_timers (filter (λ t, tid t ≠ id) (timers w)) w).

(** *** The animator *)

(** [LANGUAGES[i]] followed by a property read: a [TypeError] when [i]
    is out of range. *)
Definition languageAt (i : nat) : JS LanguageEntry :=
  match LANGUAGES !! i with
  | Some l => ret l
  | None => throw "TypeError: language is undefined"
  end.

Definition updateLanguageText (languageIndex : nat) : JS unit :=
  let! language := languageAt languageIndex in
  onElement (set_textContent (text language)) >>
  onElement (setAttribute "lang" (lang language)) >>
  onElement (setAttribute "aria-label"
               (label language +:+ ": " +:+ text language)).

Definition animateLanguageChange (languageIndex : nat) : JS unit :=
  onElement (classList_add "fade-out") >>
  let! _ := setTimeout (CbSwapLanguage languageIndex) (FADE_DURATION / 2) in
  ret tt.

Definition startLanguageCycle : JS unit :=
  let! i := read currentLanguageIndex in
  updateLanguageText i >>
  let! id := setInterval CbLanguageTick ANIMATION_INTERVAL in
  modify (set_animationInterval (Some id)).

Definition initMultilingualAnimation : JS unit :=
  let! m := read mediaReduce in
  modify (set_prefersReducedMotion m) >>
  let! heroTextElement := read hero in
  match heroTextElement with
  | None => ret tt
  | Some _ =>
      onElement (setAttribute "aria-live" "polite") >>
      onElement (setAttribute "aria-label"
                   "Company name in multiple languages") >>
      let! reduced := read prefersReducedMotion in
      if reduced then
        let! english := languageAt 0 in
        onElement (set_textContent (text english)) >>
        let! english := languageAt 0 in
        onElement (setAttribute "lang" (lang english))
      else
        startLanguageCycle
  end.

(** Truthiness of the timer handle: [null] and [0] are falsy. *)
Definition truthy (h : option nat) : bool :=
  match h with
  | Some id => negb (id =? 0)%nat
  | None => false
  end.

Definition stopMultilingualAnimation : JS unit :=
  let! h := read animationInterval in
  if truthy h then
    match h with
    | Some id => clearInterval id
    | None => ret tt
    end >>
    modify (set_animationInterval None)
  else ret tt.

(** The listener that [handleMotionPreferenceChange] registers. *)
Definition motionListener (matches : bool) : JS unit :=
  modify (set_prefersReducedMotion matches) >>
  let! heroTextElement := read hero in
  match heroTextElement with
  | None => ret tt
  | Some _ =>
      let! reduced := read prefersReducedMotion in
      if reduced then
        stopMultilingualAnimation >>
        let! english := languageAt 0 in
        onElement (set_textContent (text english)) >>
        let! english := languageAt 0 in
        onElement (setAttribute "lang" (lang english)) >>
        onElement (classList_remove "fade-out") >>
        onElement (classList_remove "fade-in")
      else
        initMultilingualAnimation
  end.

Definition handleMotionPreferenceChange : JS unit :=
  modify (λ w, set_motionListeners (S (motionListeners w)) w).

(** [init], restricted to the calls that touch the animator. *)
Definition init : JS unit :=
  initMultilingualAnimation >>
  handleMotionPreferenceChange.

(** The [visibilitychange] listener. *)
Definition visibilityListener : JS unit :=
  let! hidden := read docHidden in
  if hidden then stopMultilingualAnimation
  else
    let! reduced := read prefersReducedMotion in
    if reduced then ret tt else initMultilingualAnimation.

(** *** The event loop *)

Definition run_callback (c : callback) : JS unit :=
  match c with
  | CbLanguageTick =>
      modify (λ w, set_currentLanguageIndex
                     ((currentLanguageIndex w + 1) mod length LANGUAGES) w) >>
      let! i := read currentLanguageIndex in
      animateLanguageChange i
  | CbSwapLanguage languageIndex =>
      updateLanguageText languageIndex >>
      onElement (classList_remove "fade-out") >>
      onElement (classList_add "fade-in") >>
      let! _ := setTimeout CbFadeInDone FADE_DURATION in
      ret tt
  | CbFadeInDone =>
      onElement (classList_remove "fade-in")
  end.

(** Timers run in order of due time, ties in order of creation. *)
Definition before (t u : timer) : bool :=
  (due t <? due u)%Z || ((due t =? due u)%Z && (tid t <=? tid u)%nat).

Fixpoint earliest (ts : list timer) : option timer :=
  match ts with
  | [] => None
  | t :: ts' =>
      match earliest ts' with
      | None => Some t
      | Some u => if before t u then Some t else Some u
      end
  end.

(** When the task of a timer starts, a timeout leaves the queue and an
    interval is armed again one period after its due instant.  (No
    callback of the script clears or re-arms the timer it runs for.) *)
Definition reschedule (t : timer) (ts : list timer) : list timer :=
  match period t with
  | Some p =>
      (λ u, if decide (tid u = tid t)
            then mkTimer (tid u) (due t + p) (period u) (cb u) else u) <$> ts
  | None => filter (λ u, tid u ≠ tid t) ts
  end.

Definition fire (t : timer) (w : World) : World :=
  let w1 := set_now (Z.max (now w) (due t)) w in
  let w2 := set_timers (reschedule t (timers w1)) w1 in
  exec (run_callback (cb t)) w2.

Definition fire_next (w : World) : World :=
  match earliest (timers w) with
  | None => w
  | Some t => fire t w
  end.

(** Time passes without any task: the clock stops at the next due
    timer, which has to run first. *)
Definition elapse (ms : Z) (w : World) : World :=
  let target := (now w + Z.max 0 ms)%Z in
  match earliest (timers w) with
  | None => set_now target w
  | Some t => set_now (Z.max (now w) (Z.min target (due t))) w
  end.

(** What can happen to the page. *)
Inductive event :=
| DOMContentLoaded
| VisibilityChange (hidden : bool)
| MotionChange (matches : bool)
| BeforeUnload
| TimerFire
| Elapse (ms : Z).

Fixpoint repeat_listener (n : nat) (m : JS unit) (w : World) : World :=
  match n with
  | O => w
  | S n' => repeat_listener n' m (exec m w)
  end.

(** The platform dispatches [visibilitychange] and the media query's
    [change] only when the value really changed. *)
Definition step (w : World) (ev : event) : World :=
  match ev with
  | DOMContentLoaded => exec init w
  | VisibilityChange hidden =>
      if Bool.eqb hidden (docHidden w) then w
      else exec visibilityListener (set_docHidden hidden w)
  | MotionChange matches =>
      if Bool.eqb matches (mediaReduce w) then w
      else repeat_listener (motionListeners w) (motionListener matches)
             (set_mediaReduce matches w)
  | BeforeUnload => exec stopMultilingualAnimation w
  | TimerFire => fire_next w
  | Elapse ms => elapse ms w
  end.

Definition run (evs : list event) (w : World) : World :=
  foldl step w evs.

(** The page right after the script was evaluated: the markup provides
    the hero node (or not), the platform the two signals. *)
Definition initial_world (h : option Element) (reduce hidden : bool) : World :=
  mkWorld 0 1 [] h reduce hidden 0 0 None false.

Definition markup : Element := mkElement "ENIGMA" ∅ ["hero-title"].

Definition intervals (w : World) : list timer :=
  filter (λ t, is_Some (period t)) (timers w).

(** *** Predicates on page states *)

(** A script function keeps a property of the page. *)
Definition preserves {A} (P : World → Prop) (m : JS A) : Prop :=
  ∀ w, P w → P (exec m w).

(** [currentLanguageIndex] is an index into [LANGUAGES]. *)
Definition index_valid (w : World) : Prop :=
  currentLanguageIndex w < length LANGUAGES.

(** The element presents a language entry: text, [lang], label. *)
Definition shows (entry : LanguageEntry) (e : Element) : Prop :=
  textContent e = text entry ∧
  getAttribute "lang" e = Some (lang entry) ∧
  getAttribute "aria-label" e = Some (label entry +:+ ": " +:+ text entry).

(** The element presents the first entry, as the reduced-motion branches
    leave it: text and [lang]. *)
Definition static_first (w : World) : Prop :=
  ∃ e first, hero w = Some e ∧ LANGUAGES !! 0 = Some first ∧
             textContent e = text first ∧
             getAttribute "lang" e = Some (lang first).

(** Reduced motion is on and nothing is scheduled. *)
Definition quiet (w : World) : Prop :=
  mediaReduce w = true ∧ timers w = [] ∧ animationInterval w = None.

(** No timer is overdue, and intervals repeat forwards in time. *)
Definition punctual (w : World) : Prop :=
  ∀ t, t ∈ timers w →
       (now w ≤ due t)%Z ∧ ∀ p, period t = Some p → (0 ≤ p)%Z.

(** The instant at which the [N]-th transition has finished. *)
Definition settled (N : nat) : Z :=
  match N with
  | O => 0
  | S _ => ANIMATION_INTERVAL * Z.of_nat N + FADE_DURATION / 2 + FADE_DURATION
  end.

(** The banner rests on entry [N mod length] and the only timer is the
    interval, armed for the end of period [N + 1]. *)
Definition displaying (N : nat) (w : World) : Prop :=
  currentLanguageIndex w = N mod length LANGUAGES ∧
  (∃ entry e, LANGUAGES !! (N mod length LANGUAGES) = Some entry ∧
              hero w = Some e ∧ shows entry e) ∧
  timers w = [mkTimer 1 (ANIMATION_INTERVAL * (Z.of_nat N + 1))
                (Some ANIMATION_INTERVAL) CbLanguageTick] ∧
  animationInterval w = Some 1 ∧
  now w = settled N ∧
  1 < nextTimerId w.

End Lang.

(** ** Tasks that call a wrapped function

    [throttle] and [debounce] return closures that work with the timer
    queue.  A task of the event loop runs to its end before a timeout can
    run, so a history of calls is a list of tasks: the instant at which
    each starts, and the arguments of the calls it makes, in order. *)

Module Tasks.

(** The calls of a task, each with the instant of the task, and the
    calls of a list of tasks. *)
Definition stamped {Args : Type} (ta : Z * list Args) : list (Z * Args) :=
  (λ args, (ta.1, args)) <$> ta.2.

Definition all_calls {Args : Type} (l : list (Z * list Args))
  : list (Z * Args) :=
  l ≫= stamped.

(** Instants in the order of the list: of calls, or of tasks. *)
Fixpoint ascending {A : Type} (from : Z) (l : list (Z * A)) : Prop :=
  match l with
  | [] => True
  | (t, _) :: l' => (from ≤ t)%Z ∧ ascending t l'
  end.

End Tasks.

(** ** Rate limiter ([throttle], identical in both scripts) *)

Module Throttle.
Import Tasks.

Section Wrapper.
(** [func] acts on the rest of the page, whose state is [Page].  It
    returns or throws; the page keeps what it did either way. *)
Context {Args Page : Type}.
Variable func : Args → Page → Page * Lang.outcome unit.
Variable limit : Z.

(** The closure of one wrapper: the flag [inThrottle] ([undefined]
    reads as [false]) and the instants at which the pending
    [() => inThrottle = false] timeouts are due. *)
Record Closure := mkClosure {
  inThrottle : bool;
  releases : list Z;
  page : Page
}.

(** [throttle(func, limit)]: the state of the closure it returns. *)
Definition throttle (p : Page) : Closure := mkClosure false [] p.

(** The timer queue runs the timeouts that are due at instant [t]. *)
Definition run_due (t : Z) (c : Closure) : Closure :=
  match filter (λ d, d ≤ t)%Z (releases c) with
  | [] => c
  | _ :: _ =>
      mkClosure false (filter (λ d, ¬ (d ≤ t)%Z) (releases c)) (page c)
  end.

(** The returned function, called at instant [t].  An exception of
    [func] leaves the function before the flag is set and the timeout is
    armed, and goes on to the caller.  [setTimeout] clamps a negative
    delay to 0. *)
Definition wrapper (t : Z) (args : Args) (c : Closure)
  : Closure * Lang.outcome unit :=
  if inThrottle c then (c, Lang.Returns tt)
  else
    match func args (page c) with
    | (p, Lang.Returns _) =>
        (mkClosure true (releases c ++ [(t + Z.max 0 limit)%Z]) p,
         Lang.Returns tt)
    | (p, Lang.Throws error) =>
        (mkClosure (inThrottle c) (releases c) p, Lang.Throws error)
    end.

(** A task of the event loop: it starts at instant [t] and calls the
    returned function once for each element of [argss], in this order
    (a listener that is dispatched; a script that calls it several
    times).  The timeouts that are due run before the task, none runs
    while the task runs.  What an exception does to the caller is the
    caller's business: [argss] lists the calls that are made. *)
Definition task (c : Closure) (ta : Z * list Args) : Closure :=
  foldl (λ c args, (wrapper ta.1 args c).1) (run_due ta.1 c) ta.2.

Definition tasks (l : list (Z * list Args)) (c : Closure) : Closure :=
  foldl task c l.

(** A task that makes one call, as the dispatch of one event to one
    listener does. *)
Definition call (c : Closure) (ta : Z * Args) : Closure :=
  task c (ta.1, [ta.2]).

Definition calls (l : list (Z * Args)) (c : Closure) : Closure :=
  foldl call c l.

(** The calls a leading-edge throttle lets through, in the words of
    the specification: the first call, and then every call that comes
    at least [limit] after the last one let through. *)
Fixpoint leading_edge (last : option Z) (l : list (Z * Args))
  : list (Z * Args) :=
  match l with
  | [] => []
  | (t, a) :: l' =>
      match last with
      | Some t0 =>
          if (t <? t0 + limit)%Z then leading_edge last l'
          else (t, a) :: leading_edge (Some t) l'
      | None => (t, a) :: leading_edge (Some t) l'
      end
  end.

Definition apply_all (l : list (Z * Args)) (p : Page) : Page :=
  foldl (λ p ta, (func ta.2 p).1) p l.

(** [func] returns normally, whatever it is given. *)
Definition returns_normally : Prop :=
  ∀ args p, (func args p).2 = Lang.Returns tt.

(** What the closure looks like when the last call let through was
    [last]. *)
Definition tracks (last : option Z) (from : Z) (c : Closure) : Prop :=
  match last with
  | None => inThrottle c = false ∧ releases c = []
  | Some t0 =>
      (t0 ≤ from)%Z ∧
      ((inThrottle c = true ∧ releases c = [(t0 + Z.max 0 limit)%Z]) ∨
       (inThrottle c = false ∧ releases c = [] ∧ (t0 + limit ≤ from)%Z))
  end.
End Wrapper.

Arguments mkClosure {Page} _ _ _.
Arguments inThrottle {Page} _.
Arguments releases {Page} _.
Arguments page {Page} _.
Arguments throttle {Page} _.
(** A wrapped function that cannot throw. *)
Definition plain {Args Page : Type} (f : Args → Page → Page)
  : Args → Page → Page * Lang.outcome unit :=
  λ args p, (f args p, Lang.Returns tt).

(** A wrapped function that records the instant it is given. *)
Definition record_call (t : Z) (log : list Z) : list Z := log ++ [t].

(** A wrapped function that records the instant it is given and throws
    on negative ones. *)
Definition record_or_throw (t : Z) (log : list Z)
  : list Z * Lang.outcome unit :=
  ((log ++ [t])%list,
   if (t <? 0)%Z then Lang.Throws "Error: negative" else Lang.Returns tt).

End Throttle.

(** ** Statistics counter ([animateStats] of [script.js], lines 523-549;
       [animateStatistics] of version 2.0.0, lines 641-671) *)

Module Stats.

Local Open Scope Q_scope.

(** *** JavaScript numbers

    A number is a rational (every finite double is one).  An arithmetic
    operator computes the exact result and rounds it to a number;
    [Math.pow] is an approximation chosen by the implementation.  Both
    are parameters of the model. *)
Class Arithmetic := {
  round : Q → Q;   (* the number nearest to an exact result *)
  pow3 : Q → Q     (* [Math.pow(x, 3)] *)
}.

(** What the proofs use of the platform: rounding is monotone and keeps
    0 and 1; the cube is monotone on numbers that are not negative, and
    [Math.pow(0, 3)] is 0. *)
Class Faithful (ar : Arithmetic) : Prop := {
  round_proper : ∀ x y, x == y → round x == round y;
  round_mono : ∀ x y, x <= y → round x <= round y;
  round_0 : round 0 == 0;
  round_1 : round 1 == 1;
  pow3_mono : ∀ x y, 0 <= x → x <= y → pow3 x <= pow3 y;
  pow3_0 : pow3 0 == 0
}.

(** Arithmetic without rounding error. *)
Global Instance exact : Arithmetic := {|
  round := λ x, x;
  pow3 := λ x, x ^ 3
|}.

Section Counter.
Context {ar : Arithmetic}.

Definition sub (x y : Q) : Q := round (x - y).
Definition div (x y : Q) : Q := round (x / y).
Definition mul (x y : Q) : Q := round (x * y).

(** [CONFIG.animations.statsCountDuration] *)
Definition statsCountDuration : Q := 2000.

Definition progressAt (startTime currentTime : Q) : Q :=
  let elapsed := sub currentTime startTime in
  Qmin (div elapsed statsCountDuration) 1.

(** [1 - Math.pow(1 - progress, 3)] *)
Definition easeOutCubic (progress : Q) : Q := sub 1 (pow3 (sub 1 progress)).

(** Conversion of an integral number to a string. *)
Definition toString (n : Z) : string := pretty n.

(** One run of [updateNumber] ([script.js]): the new text of [stat] and
    whether another frame was requested.  [target] is the integer that
    [parseInt] returned. *)
Definition updateNumber (target : Z) (startTime currentTime : Q)
    (textContent : string) : string * bool :=
  let progress := progressAt startTime currentTime in
  let current := Qfloor (mul (inject_Z target) (easeOutCubic progress)) in
  let textContent := toString current in
  if Qlt_le_dec progress 1 then (textContent, true)
  else
    let textContent := toString target in
    (textContent, false).

(** One run of [updateCount] (version 2.0.0). *)
Definition updateCount (targetCount : Z) (startTime currentTime : Q)
    (textContent : string) : string * bool :=
  let progress := progressAt startTime currentTime in
  let easedProgress := easeOutCubic progress in
  let currentCount := Qfloor (mul easedProgress (inject_Z targetCount)) in
  let textContent :=
    toString currentCount +:+ (if (100 <=? targetCount)%Z then "+" else "") in
  if Qlt_le_dec progress 1 then (textContent, true)
  else
    let textContent :=
      toString targetCount +:+ (if (100 <=? targetCount)%Z then "+" else "") in
    (textContent, false).

(** The texts an element goes through when frames come at the given
    instants; the chain of frame requests ends with the first run that
    requests no further frame. *)
Fixpoint animation (update : Q → string → string * bool)
    (instants : list Q) (textContent : string) : list string :=
  match instants with
  | [] => []
  | t :: instants' =>
      let (s, again) := update t textContent in
      s :: (if again then animation update instants' s else [])
  end.

(** The number on display after the frame at [currentTime], in the words
    of the specification: [floor (eased * target)] while progress is
    below 1, the exact target from then on. *)
Definition shown (target : Z) (startTime currentTime : Q) : Z :=
  let progress := progressAt startTime currentTime in
  if Qlt_le_dec progress 1
  then Qfloor (mul (easeOutCubic progress) (inject_Z target))
  else target.

Definition suffix (target : Z) : string :=
  if (100 <=? target)%Z then "+" else "".

(** The numbers behind [animation]. *)
Fixpoint shown_values (target : Z) (startTime : Q) (instants : list Q)
    : list Z :=
  match instants with
  | [] => []
  | t :: instants' =>
      shown target startTime t ::
      (if Qlt_le_dec (progressAt startTime t) 1
       then shown_values target startTime instants' else [])
  end.

(** The platform holds the integer exactly, as it does every result of
    [parseInt]. *)
Definition representable (target : Z) : Prop :=
  round (inject_Z target) == inject_Z target.

End Counter.

Fixpoint nondecreasing (l : list Z) : Prop :=
  match l with
  | [] => True
  | x :: l' => match l' with [] => True | y :: _ => (x ≤ y)%Z end
               ∧ nondecreasing l'
  end.

Fixpoint chronological (l : list Q) : Prop :=
  match l with
  | [] => True
  | x :: l' => match l' with [] => True | y :: _ => (x <= y)%Q end
               ∧ chronological l'
  end.

End Stats.

(** ** Intersection observers and animation frames

    [initStatsCounter] and [initScrollAnimations] of [script.js] (lines
    501-521 and 723-744); [initScrollEffects] with
    [setupIntersectionObserver] and [setupSectionDetection],
    [addClassWithAnimation], [updateActiveNavLink] and [initApp] of
    version 2.0.0. *)

Module Observers.
Import Dom.

Record IntersectionObserverEntry := mkEntry {
  isIntersecting : bool;
  target : nat
}.

(** Closures handed to [requestAnimationFrame]. *)
Inductive frameCallback :=
| CbAddClass (element : nat) (className : string)
| CbUpdateNumber (stat : nat) (target : Z) (startTime : Q)
| CbUpdateCount (element : nat) (targetCount : Z) (startTime : Q).

Inductive observer :=
| StatsObserver        (* [script.js], [initStatsCounter] *)
| ScrollObserver       (* [script.js], [initScrollAnimations] *)
| VisibilityObserver   (* version 2.0.0, [setupIntersectionObserver] *)
| SectionObserver.     (* version 2.0.0, [setupSectionDetection] *)

Global Instance observer_eq_dec : EqDecision observer.
Proof. solve_decision. Defined.

(** Nodes are natural numbers.  [statNumbers] lists the nodes matching
    [.stat-number] in document order, each with the integer that
    [parseInt] reads from its [data-count] attribute.  [counterRuns] is
    not a variable of the scripts: it counts the calls of the counter
    run.  [hrefs] holds the [href] attribute of the nodes that have one,
    [sections] the [section] elements that have an id, each with its id;
    [navLinks] is [DOM.navLinks], which [initNavigation] sets before an
    observer exists that reads it, [currentSection] is
    [STATE.currentSection] of version 2.0.0, and [bodyClasses] is the
    class list of [document.body]. *)
Record Page := mkPage {
  performanceNow : Q;
  classes : gmap nat (list string);
  texts : gmap nat string;
  statNumbers : list (nat * Z);
  frames : list frameCallback;
  observers : list observer;
  statsAnimated : bool;
  reducedMotion : bool;
  counterRuns : nat;
  hrefs : gmap nat string;
  sections : gmap nat string;
  navLinks : list nat;
  currentSection : string;
  bodyClasses : list string
}.

Definition set_performanceNow (t : Q) (p : Page) : Page :=
  mkPage t (classes p) (texts p) (statNumbers p) (frames p) (observers p)
    (statsAnimated p) (reducedMotion p) (counterRuns p) (hrefs p)
    (sections p) (navLinks p) (currentSection p) (bodyClasses p).

Definition set_classes (c : gmap nat (list string)) (p : Page) : Page :=
  mkPage (performanceNow p) c (texts p) (statNumbers p) (frames p)
    (observers p) (statsAnimated p) (reducedMotion p) (counterRuns p)
    (hrefs p) (sections p) (navLinks p) (currentSection p) (bodyClasses p).

Definition set_texts (x : gmap nat string) (p : Page) : Page :=
  mkPage (performanceNow p) (classes p) x (statNumbers p) (frames p)
    (observers p) (statsAnimated p) (reducedMotion p) (counterRuns p)
    (hrefs p) (sections p) (navLinks p) (currentSection p) (bodyClasses p).

Definition set_frames (f : list frameCallback) (p : Page) : Page :=
  mkPage (performanceNow p) (classes p) (texts p) (statNumbers p) f
    (observers p) (statsAnimated p) (reducedMotion p) (counterRuns p)
    (hrefs p) (sections p) (navLinks p) (currentSection p) (bodyClasses p).

Definition set_observers (o : list observer) (p : Page) : Page :=
  mkPage (performanceNow p) (classes p) (texts p) (statNumbers p) (frames p)
    o (statsAnimated p) (reducedMotion p) (counterRuns p) (hrefs p)
    (sections p) (navLinks p) (currentSection p) (bodyClasses p).

Definition set_statsAnimated (b : bool) (p : Page) : Page :=
  mkPage (performanceNow p) (classes p) (texts p) (statNumbers p) (frames p)
    (observers p) b (reducedMotion p) (counterRuns p) (hrefs p) (sections p)
    (navLinks p) (currentSection p) (bodyClasses p).

Definition set_reducedMotion (b : bool) (p : Page) : Page :=
  mkPage (performanceNow p) (classes p) (texts p) (statNumbers p) (frames p)
    (observers p) (statsAnimated p) b (counterRuns p) (hrefs p) (sections p)
    (navLinks p) (currentSection p) (bodyClasses p).

Definition set_counterRuns (n : nat) (p : Page) : Page :=
  mkPage (performanceNow p) (classes p) (texts p) (statNumbers p) (frames p)
    (observers p) (statsAnimated p) (reducedMotion p) n (hrefs p)
    (sections p) (navLinks p) (currentSection p) (bodyClasses p).

Definition set_navLinks (l : list nat) (p : Page) : Page :=
  mkPage (performanceNow p) (classes p) (texts p) (statNumbers p) (frames p)
    (observers p) (statsAnimated p) (reducedMotion p) (counterRuns p)
    (hrefs p) (sections p) l (currentSection p) (bodyClasses p).

Definition set_currentSection (s : string) (p : Page) : Page :=
  mkPage (performanceNow p) (classes p) (texts p) (statNumbers p) (frames p)
    (observers p) (statsAnimated p) (reducedMotion p) (counterRuns p)
    (hrefs p) (sections p) (navLinks p) s (bodyClasses p).

Definition set_bodyClasses (l : list string) (p : Page) : Page :=
  mkPage (performanceNow p) (classes p) (texts p) (statNumbers p) (frames p)
    (observers p) (statsAnimated p) (reducedMotion p) (counterRuns p)
    (hrefs p) (sections p) (navLinks p) (currentSection p) l.

Arguments set_performanceNow t !p /.
Arguments set_classes c !p /.
Arguments set_texts x !p /.
Arguments set_frames f !p /.
Arguments set_observers o !p /.
Arguments set_statsAnimated b !p /.
Arguments set_reducedMotion b !p /.
Arguments set_counterRuns n !p /.
Arguments set_navLinks l !p /.
Arguments set_currentSection s !p /.
Arguments set_bodyClasses l !p /.

(** [element.classList.add(className)] *)
Definition addClass (element : nat) (className : string) (p : Page) : Page :=
  set_classes (alter (tokens_add className) element (classes p)) p.

(** [element.classList.remove(className)] *)
Definition removeClass (element : nat) (className : string) (p : Page)
    : Page :=
  set_classes (alter (tokens_remove className) element (classes p)) p.

(** [element.classList.contains(className)] *)
Definition hasClass (element : nat) (className : string) (p : Page) : bool :=
  match classes p !! element with
  | Some l => contains className l
  | None => false
  end.

Definition requestAnimationFrame (cb : frameCallback) (p : Page) : Page :=
  set_frames (frames p ++ [cb]) p.

(** *** [script.js] *)

Definition animateStats (p : Page) : Page :=
  foldl (λ p stat,
           requestAnimationFrame
             (CbUpdateNumber stat.1 stat.2 (performanceNow p)) p)
    (set_counterRuns (S (counterRuns p)) p) (statNumbers p).

Definition statsObserverCallback
    (entries : list IntersectionObserverEntry) (p : Page) : Page :=
  foldl (λ p entry,
           if isIntersecting entry && negb (statsAnimated p)
           then animateStats (set_statsAnimated true p)
           else p)
    p entries.

Definition scrollObserverCallback
    (entries : list IntersectionObserverEntry) (p : Page) : Page :=
  foldl (λ p entry,
           if isIntersecting entry then addClass (target entry) "visible" p
           else p)
    p entries.

Definition initStatsCounter (p : Page) : Page :=
  match statNumbers p with
  | [] => p
  | _ :: _ => set_observers (observers p ++ [StatsObserver]) p
  end.

(** Nodes matching [.fade-in-up, .fade-in-left, .fade-in-right]. *)
Definition animatedElements (p : Page) : list nat :=
  (map_to_list
     (filter (λ kv, "fade-in-up" ∈ kv.2 ∨ "fade-in-left" ∈ kv.2
                    ∨ "fade-in-right" ∈ kv.2) (classes p))).*1.

Definition initScrollAnimations (p : Page) : Page :=
  match animatedElements p with
  | [] => p
  | _ :: _ => set_observers (observers p ++ [ScrollObserver]) p
  end.

(** [init], restricted to the observers; [reduce] is what the media
    query reports. *)
Definition init (reduce : bool) (p : Page) : Page :=
  initScrollAnimations (initStatsCounter (set_reducedMotion reduce p)).

(** *** Version 2.0.0 *)

Definition addClassWithAnimation (element : nat) (className : string)
    (p : Page) : Page :=
  if reducedMotion p then addClass element className p
  else requestAnimationFrame (CbAddClass element className) p.

Definition animateStatistics (p : Page) : Page :=
  foldl (λ p element,
           requestAnimationFrame
             (CbUpdateCount element.1 element.2 (performanceNow p)) p)
    (set_counterRuns (S (counterRuns p)) p) (statNumbers p).

Definition visibilityObserverCallback
    (entries : list IntersectionObserverEntry) (p : Page) : Page :=
  foldl (λ p entry,
           if isIntersecting entry then
             let p := addClassWithAnimation (target entry) "visible" p in
             if hasClass (target entry) "stats-container" p
                && negb (statsAnimated p)
             then set_statsAnimated true (animateStatistics p)
             else p
           else p)
    p entries.

(** [CONFIG.animations.enabled] *)
Definition animations_enabled : bool := true.

Definition setupIntersectionObserver (p : Page) : Page :=
  if negb animations_enabled || reducedMotion p then p
  else set_observers (observers p ++ [VisibilityObserver]) p.

Definition updateActiveNavLink (activeHref : string) (p : Page) : Page :=
  foldl (λ p link,
           let p := removeClass link "active" p in
           if bool_decide (hrefs p !! link = Some activeHref)
           then addClass link "active" p
           else p)
    p (navLinks p).

(** [entry.target.id] is the empty string for an element without id. *)
Definition sectionObserverCallback
    (entries : list IntersectionObserverEntry) (p : Page) : Page :=
  foldl (λ p entry,
           if isIntersecting entry then
             let sectionId := default "" (sections p !! target entry) in
             updateActiveNavLink ("#" +:+ sectionId)
               (set_currentSection sectionId p)
           else p)
    p entries.

Definition setupSectionDetection (p : Page) : Page :=
  match map_to_list (sections p) with
  | [] => p
  | _ :: _ => set_observers (observers p ++ [SectionObserver]) p
  end.

Definition initScrollEffects (p : Page) : Page :=
  setupSectionDetection (setupIntersectionObserver p).

(** [initNavigation], as far as the observers depend on it: it caches
    the nodes matching [.nav-link].  The order of the list is that of
    the map and not the document's; [updateActiveNavLink] treats each
    link on its own, so the order does not show. *)
Definition initNavigation (p : Page) : Page :=
  set_navLinks
    (map_to_list (filter (λ kv, "nav-link" ∈ kv.2) (classes p))).*1 p.

(** [initApp], as far as it touches the state of this model.
    [initAccessibility] reads the preference, [initNavigation] caches the
    links, [initScrollEffects] creates the observers, and the last
    statement of the [try] block marks the body.  [hero] is the outcome
    of [initHeroAnimations], which runs before [initScrollEffects], and
    [rest] that of the initializers that run after it ([initTeamSection],
    [initContactForm], [initBackToTop]): when one of them throws, the
    [catch] block takes over, and [setupBasicFallbacks] touches nothing
    of this state. *)
Definition initApp (reduce : bool) (hero rest : Lang.outcome unit)
    (p : Page) : Page :=
  let p := initNavigation (set_reducedMotion reduce p) in
  match hero with
  | Lang.Throws _ => p
  | Lang.Returns _ =>
      let p := initScrollEffects p in
      match rest with
      | Lang.Throws _ => p
      | Lang.Returns _ =>
          if reducedMotion p
          then set_bodyClasses (tokens_add "reduced-motion" (bodyClasses p)) p
          else p
      end
  end.

(** *** Animation frames *)

Section Frames.
Context {ar : Stats.Arithmetic}.

Definition textOf (element : nat) (p : Page) : string :=
  default "" (texts p !! element).

Definition run_frame_callback (t : Q) (cb : frameCallback) (p : Page)
    : Page :=
  match cb with
  | CbAddClass element className => addClass element className p
  | CbUpdateNumber stat target startTime =>
      let (s, again) :=
        Stats.updateNumber target startTime t (textOf stat p) in
      let p := set_texts (<[stat:=s]> (texts p)) p in
      if again then requestAnimationFrame cb p else p
  | CbUpdateCount element targetCount startTime =>
      let (s, again) :=
        Stats.updateCount targetCount startTime t (textOf element p) in
      let p := set_texts (<[element:=s]> (texts p)) p in
      if again then requestAnimationFrame cb p else p
  end.

(** One frame at instant [t]: the callbacks requested so far run in
    order; what they request runs in the next frame. *)
Definition animationFrame (t : Q) (p : Page) : Page :=
  foldl (λ p cb, run_frame_callback t cb p)
    (set_frames [] (set_performanceNow t p)) (frames p).

(** *** Events *)

Inductive event :=
| Intersection (o : observer) (t : Q)
    (entries : list IntersectionObserverEntry)
| AnimationFrame (t : Q)
| MotionPreference (matches : bool).

Definition callbackOf (o : observer)
    : list IntersectionObserverEntry → Page → Page :=
  match o with
  | StatsObserver => statsObserverCallback
  | ScrollObserver => scrollObserverCallback
  | VisibilityObserver => visibilityObserverCallback
  | SectionObserver => sectionObserverCallback
  end.

(** The platform calls back only observers that exist.  The listener of
    version 2.0.0 keeps [STATE.reducedMotion] up to date; [script.js]
    reads the preference in [init] only, [listens] tells the two
    apart. *)
Definition step (listens : bool) (p : Page) (ev : event) : Page :=
  match ev with
  | Intersection o t entries =>
      if bool_decide (o ∈ observers p)
      then callbackOf o entries (set_performanceNow t p)
      else p
  | AnimationFrame t => animationFrame t p
  | MotionPreference matches =>
      if listens then set_reducedMotion matches p else p
  end.

Definition run (listens : bool) (evs : list event) (p : Page) : Page :=
  foldl (step listens) p evs.

End Frames.

(** The page as the markup gives it: class lists, texts, statistics,
    [href] attributes and the sections that have an id. *)
Definition document (c : gmap nat (list string)) (x : gmap nat string)
    (stats : list (nat * Z)) (h s : gmap nat string) : Page :=
  mkPage 0 c x stats [] [] false false 0 h s [] "hero" [].

(** A page without links and without sections. *)
Definition markup (c : gmap nat (list string)) (x : gmap nat string)
    (stats : list (nat * Z)) : Page :=
  document c x stats ∅ ∅.

(** *** Predicates *)

(** The element carries the reveal class. *)
Definition revealed (element : nat) (p : Page) : Prop :=
  ∃ l, classes p !! element = Some l ∧ "visible" ∈ l.

(** No element loses a class, but for [active], which the section
    observer moves between the navigation links. *)
Definition grows (c c' : gmap nat (list string)) : Prop :=
  ∀ element l, c !! element = Some l →
               ∃ l', c' !! element = Some l' ∧
                     ∀ x, x ∈ l → x ≠ "active" → x ∈ l'.

(** The class lists agree on every class but [active]. *)
Definition same_but_active (c c' : gmap nat (list string)) : Prop :=
  ∀ element,
    match c !! element, c' !! element with
    | Some l, Some l' => ∀ x, x ≠ "active" → x ∈ l' ↔ x ∈ l
    | None, None => True
    | _, _ => False
    end.

(** Between two states nothing has changed that the reveal or the
    counter could have changed: observers, pending frames, texts, the
    flag and the count of runs are the same, and so are the class lists
    but for [active]. *)
Definition only_active (p p' : Page) : Prop :=
  observers p' = observers p ∧ frames p' = frames p ∧ texts p' = texts p ∧
  counterRuns p' = counterRuns p ∧ statsAnimated p' = statsAnimated p ∧
  same_but_active (classes p) (classes p').

(** Between two states the counter run was started not at all, or once
    together with the flag going up. *)
Definition at_most_started (p p' : Page) : Prop :=
  (statsAnimated p' = statsAnimated p ∧ counterRuns p' = counterRuns p) ∨
  (statsAnimated p = false ∧ statsAnimated p' = true ∧
   counterRuns p' = S (counterRuns p)).

(** What a step keeps or extends. *)
Definition extends (p p' : Page) : Prop :=
  observers p' = observers p ∧ grows (classes p) (classes p') ∧
  at_most_started p p'.

(** The event reports, to an observer that exists, an intersecting entry
    that makes the callback consider the counter run: any entry for the
    observer of [initStatsCounter], an entry for a [stats-container] for the
    observer of version 2.0.0. *)
Definition triggers (p : Page) (ev : event) : bool :=
  match ev with
  | Intersection o _ entries =>
      bool_decide (o ∈ observers p) &&
      match o with
      | StatsObserver => existsb isIntersecting entries
      | ScrollObserver => false
      | SectionObserver => false
      | VisibilityObserver =>
          existsb (λ entry, isIntersecting entry &&
                            hasClass (target entry) "stats-container" p)
            entries
      end
  | _ => false
  end.

(** The element whose text a frame callback writes. *)
Definition writes (cb : frameCallback) : option nat :=
  match cb with
  | CbAddClass _ _ => None
  | CbUpdateNumber stat _ _ => Some stat
  | CbUpdateCount element _ _ => Some element
  end.

(** The classes requested by pending frame callbacks. *)
Definition class_requests (fs : list frameCallback) : list (nat * string) :=
  omap (λ cb, match cb with
              | CbAddClass element className => Some (element, className)
              | _ => None
              end) fs.

Definition add_classes (l : list (nat * string))
    (c : gmap nat (list string)) : gmap nat (list string) :=
  foldl (λ c x, alter (tokens_add x.2) x.1 c) c l.

(** The reveal requests an intersection callback makes. *)
Definition reveals (entries : list IntersectionObserverEntry)
    : list (nat * string) :=
  (λ entry, (target entry, "visible")) <$> filter (λ entry, isIntersecting entry = true) entries.

End Observers.

(** ** Invariants of the banner's timer bookkeeping *)

Module Cycle.
Import Dom Lang.

(** A script function returns normally from a page state. *)
Definition returns {A} (m : JS A) (w : World) : Prop :=
  ∃ a, snd (m w) = Returns a.

Fixpoint all_return (n : nat) (m : JS unit) (w : World) : Prop :=
  match n with
  | O => True
  | S n' => returns m w ∧ all_return n' m (exec m w)
  end.

(** Every listener and timer task that [step] runs for the event returns
    normally. *)
Definition handled (w : World) (ev : event) : Prop :=
  match ev with
  | DOMContentLoaded => returns init w
  | VisibilityChange hidden =>
      if Bool.eqb hidden (docHidden w) then True
      else returns visibilityListener (set_docHidden hidden w)
  | MotionChange matches =>
      if Bool.eqb matches (mediaReduce w) then True
      else all_return (motionListeners w) (motionListener matches)
             (set_mediaReduce matches w)
  | BeforeUnload => returns stopMultilingualAnimation w
  | TimerFire =>
      match earliest (timers w) with
      | None => True
      | Some t =>
          returns (run_callback (cb t))
            (set_timers (reschedule t (timers w))
               (set_now (Z.max (now w) (due t)) w))
      end
  | Elapse _ => True
  end.

(** How the script arms each of its closures. *)
Definition armed_as (t : timer) : Prop :=
  match cb t with
  | CbLanguageTick => period t = Some ANIMATION_INTERVAL
  | CbSwapLanguage languageIndex =>
      period t = None ∧ languageIndex < length LANGUAGES
  | CbFadeInDone => period t = None
  end.

(** The timer queue and the handle fit together: ids are positive, were
    handed out already and are pairwise distinct; and a handle that is not
    [null] is the id of a pending tick interval. *)
Definition coherent (w : World) : Prop :=
  0 < nextTimerId w ∧
  (∀ t, t ∈ timers w → 0 < tid t < nextTimerId w ∧ armed_as t) ∧
  NoDup (tid <$> timers w) ∧
  (∀ id, animationInterval w = Some id →
         ∃ t, t ∈ timers w ∧ tid t = id ∧ cb t = CbLanguageTick).

(** A fade class on the element has the timeout that removes it
    pending. *)
Definition fade_pending (w : World) : Prop :=
  ∀ e, hero w = Some e →
       (classList_contains "fade-out" e = true →
        ∃ t languageIndex,
          t ∈ timers w ∧ cb t = CbSwapLanguage languageIndex) ∧
       (classList_contains "fade-in" e = true →
        ∃ t, t ∈ timers w ∧ cb t = CbFadeInDone).

Definition tidy (w : World) : Prop := coherent w ∧ fade_pending w.

(** A history after page load in which [DOMContentLoaded] is not
    dispatched again and the media query never turns back to "motion
    allowed" while the document is hidden.  [hidden] is
    [document.hidden] at the start of the history. *)
Fixpoint resumes_visible (hidden : bool) (evs : list event) : bool :=
  match evs with
  | [] => true
  | DOMContentLoaded :: _ => false
  | VisibilityChange hidden' :: evs' => resumes_visible hidden' evs'
  | MotionChange false :: evs' => negb hidden && resumes_visible hidden evs'
  | _ :: evs' => resumes_visible hidden evs'
  end.

(** The page before [DOMContentLoaded], as long as nothing has started
    the animator: no timer, no handle, no listener of the media query,
    and the document is visible. *)
Definition unloaded (w : World) : Prop :=
  timers w = [] ∧ animationInterval w = None ∧ motionListeners w = 0 ∧
  docHidden w = false.

(** A history from the evaluation of the script on a visible document:
    the document stays visible until [DOMContentLoaded], which is
    dispatched once, and the history after it is as [resumes_visible]
    has it. *)
Fixpoint loads_visible (evs : list event) : bool :=
  match evs with
  | [] => true
  | DOMContentLoaded :: evs' => resumes_visible false evs'
  | VisibilityChange hidden :: evs' => negb hidden && loads_visible evs'
  | _ :: evs' => loads_visible evs'
  end.

(** At most one interval, the one the handle refers to, and none while
    the document is hidden or reduced motion is preferred. *)
Definition orderly (w : World) : Prop :=
  match animationInterval w with
  | None => intervals w = []
  | Some id =>
      (∃ t, intervals w = [t] ∧ tid t = id) ∧
      docHidden w = false ∧ mediaReduce w = false
  end.

(** What the single-cycle argument carries along. *)
Definition loaded_once (w : World) : Prop :=
  motionListeners w = 1 ∧
  prefersReducedMotion w = mediaReduce w ∧
  (hero w = None → animationInterval w = None).

Definition single_cycle (w : World) : Prop :=
  coherent w ∧ index_valid w ∧ loaded_once w ∧ orderly w.

End Cycle.

(** ** Trailing-edge rate limiter ([debounce], identical in both scripts) *)

Module Debounce.
Import Tasks.

Section Wrapper.
(** [func] acts on the rest of the page, whose state is [Page]; its
    first argument is the instant at which it runs, which it may read
    from the clock.  It runs as the last statement of a timer task: an
    exception ends that task and nothing else, and the function gives
    the page it leaves behind either way. *)
Context {Args Page : Type}.
Variable func : Z → Args → Page → Page.
Variable wait : Z.

(** A pending [later] closure: it captured the arguments of the call
    that armed it. *)
Record timer := mkTimer {
  tid : nat;
  due : Z;
  args : Args
}.

(** The closure of one wrapper: the variable [timeout] ([undefined] at
    first), and the part of the platform's timer queue that holds the
    wrapper's timeouts. *)
Record Closure := mkClosure {
  timeout : option nat;
  nextTimerId : nat;
  timers : list timer;
  page : Page
}.

(** [debounce(func, wait)]: the state of the closure it returns. *)
Definition debounce (p : Page) : Closure := mkClosure None 1 [] p.

(** [clearTimeout(timeout)]; an id that is not pending, and [undefined],
    are ignored. *)
Definition clearTimeout (handle : option nat) (ts : list timer)
  : list timer :=
  match handle with
  | Some id => filter (λ t, tid t ≠ id) ts
  | None => ts
  end.

(** [later], run at instant [t] with the captured [args]. *)
Definition later (t : Z) (a : Args) (c : Closure) : Closure :=
  mkClosure (timeout c) (nextTimerId c)
    (clearTimeout (timeout c) (timers c))
    (func t a (page c)).

(** The returned function, called at instant [t]; [setTimeout] clamps a
    negative delay to 0. *)
Definition executedFunction (t : Z) (a : Args) (c : Closure) : Closure :=
  mkClosure (Some (nextTimerId c)) (S (nextTimerId c))
    (clearTimeout (timeout c) (timers c)
     ++ [mkTimer (nextTimerId c) (t + Z.max 0 wait) a])
    (page c).

(** Timers run in order of due time, ties in order of creation. *)
Definition before (t u : timer) : bool :=
  (due t <? due u)%Z || ((due t =? due u)%Z && (tid t <=? tid u)%nat).

Fixpoint earliest (ts : list timer) : option timer :=
  match ts with
  | [] => None
  | t :: ts' =>
      match earliest ts' with
      | None => Some t
      | Some u => if before t u then Some t else Some u
      end
  end.

(** The task of a timeout: it leaves the queue and its closure runs, at
    the instant for which it was armed. *)
Definition fire (tm : timer) (c : Closure) : Closure :=
  later (due tm) (args tm)
    (mkClosure (timeout c) (nextTimerId c)
       (filter (λ u, tid u ≠ tid tm) (timers c)) (page c)).

(** The timer queue runs the timeouts that are due at instant [t].  A
    task removes its timer and arms none, so as many rounds as there are
    timers are enough. *)
Fixpoint run_due (rounds : nat) (t : Z) (c : Closure) : Closure :=
  match rounds with
  | O => c
  | S rounds' =>
      match earliest (timers c) with
      | Some tm =>
          if (due tm <=? t)%Z then run_due rounds' t (fire tm c) else c
      | None => c
      end
  end.

Definition settle (t : Z) (c : Closure) : Closure :=
  run_due (length (timers c)) t c.

(** A task of the event loop: it starts at instant [t] and calls the
    returned function once for each element of [argss], in this order.
    The timeouts that are due run before the task, none runs while the
    task runs. *)
Definition task (c : Closure) (ta : Z * list Args) : Closure :=
  foldl (λ c a, executedFunction ta.1 a c) (settle ta.1 c) ta.2.

Definition tasks (l : list (Z * list Args)) (c : Closure) : Closure :=
  foldl task c l.

(** A task that makes one call, as the dispatch of one event to one
    listener does. *)
Definition call (c : Closure) (ta : Z * Args) : Closure :=
  task c (ta.1, [ta.2]).

Definition calls (l : list (Z * Args)) (c : Closure) : Closure :=
  foldl call c l.

(** A trailing-edge debouncer in words: every call replaces the pending
    one, and the pending call runs once [wait] has passed after it
    without another call.  The result lists the runs of [func] up to the
    instant [until]: when, and with which arguments. *)
Fixpoint trailing_edge (pending : option (Z * Args)) (l : list (Z * Args))
    (until : Z) : list (Z * Args) :=
  match l with
  | [] =>
      match pending with
      | Some (t0, a0) =>
          if (t0 + Z.max 0 wait <=? until)%Z
          then [((t0 + Z.max 0 wait)%Z, a0)] else []
      | None => []
      end
  | (t, a) :: l' =>
      match pending with
      | Some (t0, a0) =>
          if (t0 + Z.max 0 wait <=? t)%Z
          then ((t0 + Z.max 0 wait)%Z, a0) :: trailing_edge (Some (t, a)) l' until
          else trailing_edge (Some (t, a)) l' until
      | None => trailing_edge (Some (t, a)) l' until
      end
  end.

Definition apply_all (l : list (Z * Args)) (p : Page) : Page :=
  foldl (λ p ta, func ta.1 ta.2 p) p l.

(** Calls in quick succession: each comes less than [wait] after the one
    before. *)
Fixpoint burst (last : Z) (l : list (Z * Args)) : Prop :=
  match l with
  | [] => True
  | (t, _) :: l' => (t < last + Z.max 0 wait)%Z ∧ burst t l'
  end.

(** What the closure looks like while [pending] is the call that waits
    to be run. *)
Definition tracks (pending : option (Z * Args)) (c : Closure) : Prop :=
  match pending with
  | None => timers c = []
  | Some (t0, a0) =>
      ∃ id, timers c = [mkTimer id (t0 + Z.max 0 wait) a0] ∧
            timeout c = Some id
  end.

(** The closure at instant [from], set against the words above: [p0] is
    the page after the runs that are certain by the calls so far, and
    [pending] the call that waits.  Either its timeout is pending, or
    the timeout was due by [from] and has run. *)
Definition follows (pending : option (Z * Args)) (from : Z) (p0 : Page)
    (c : Closure) : Prop :=
  match pending with
  | None => timers c = [] ∧ page c = p0
  | Some (t0, a0) =>
      (tracks pending c ∧ page c = p0) ∨
      (timers c = [] ∧ (t0 + Z.max 0 wait ≤ from)%Z ∧
       page c = func (t0 + Z.max 0 wait)%Z a0 p0)
  end.
End Wrapper.

Arguments mkTimer {Args} _ _ _.
Arguments tid {Args} _.
Arguments due {Args} _.
Arguments args {Args} _.
Arguments mkClosure {Args Page} _ _ _ _.
Arguments timeout {Args Page} _.
Arguments nextTimerId {Args Page} _.
Arguments timers {Args Page} _.
Arguments page {Args Page} _.
Arguments debounce {Args Page} _.
Arguments clearTimeout {Args} _ _.
Arguments earliest {Args} _.

(** A debounced function that records when it ran and what it was
    given. *)
Definition record_run (t : Z) (a : nat) (log : list (Z * nat))
  : list (Z * nat) := log ++ [(t, a)].

End Debounce.

(** ** What a rate limit promises *)

Module Rate.

Section Spacing.
Context {Args : Type}.
Variable limit : Z.

(** Each call comes at least [limit] after the one before. *)
Fixpoint spaced (l : list (Z * Args)) : Prop :=
  match l with
  | [] => True
  | (t, _) :: l' =>
      match l' with
      | [] => True
      | (t', _) :: _ => (t + limit ≤ t')%Z
      end ∧ spaced l'
  end.
End Spacing.

End Rate.

(** ** Navigation and mobile menu ([script.js], lines 342-474; the same
       functions in version 2.0.0, lines 296-476)

    The page is one on which [initNavigation] found its three elements
    and registered its listeners.  Keyboard focus is not part of the
    state: the calls of [focus()] are left out. *)

Module Nav.
Import Dom.

(** A node of [DOM.navLinks], and whether it lies inside [DOM.navMenu]. *)
Record NavLink := mkNavLink {
  link : Element;
  insideMenu : bool
}.

Record Page := mkPage {
  isNavOpen : bool;                 (* STATE.isNavOpen *)
  navbar : Element;                 (* DOM.navbar *)
  navMenu : Element;                (* DOM.navMenu *)
  mobileMenuBtn : Element;          (* DOM.mobileMenuBtn *)
  navLinks : list NavLink;          (* DOM.navLinks, in document order *)
  overflow : string;                (* document.body.style.overflow *)
  scrolledTo : list string;         (* targets handed to smoothScrollTo *)
  location : option string          (* last argument of history.pushState *)
}.

Definition openMobileMenu (p : Page) : Page :=
  mkPage true (navbar p)
    (classList_add "active" (navMenu p))
    (classList_add "active"
       (setAttribute "aria-expanded" "true" (mobileMenuBtn p)))
    (navLinks p) "hidden" (scrolledTo p) (location p).

Definition closeMobileMenu (p : Page) : Page :=
  mkPage false (navbar p)
    (classList_remove "active" (navMenu p))
    (classList_remove "active"
       (setAttribute "aria-expanded" "false" (mobileMenuBtn p)))
    (navLinks p) "" (scrolledTo p) (location p).

Definition toggleMobileMenu (p : Page) : Page :=
  if isNavOpen p then closeMobileMenu p else openMobileMenu p.

(** The body of the [forEach] in [updateActiveNavLink]. *)
Definition markLink (activeHref : string) (l : NavLink) : NavLink :=
  let e := classList_remove "active" (link l) in
  mkNavLink
    (if decide (getAttribute "href" e = Some activeHref)
     then classList_add "active" e else e)
    (insideMenu l).

Definition updateActiveNavLink (activeHref : string) (p : Page) : Page :=
  mkPage (isNavOpen p) (navbar p) (navMenu p) (mobileMenuBtn p)
    (markLink activeHref <$> navLinks p)
    (overflow p) (scrolledTo p) (location p).

Section Handlers.
(** [selects href]: [document.querySelector(href)] returns an element.
    When it returns [null], and when it throws because [href] is not a
    valid selector, [handleNavigationClick] changes nothing. *)
Variable selects : string → bool.

Definition smoothScrollTo (target : string) (p : Page) : Page :=
  mkPage (isNavOpen p) (navbar p) (navMenu p) (mobileMenuBtn p)
    (navLinks p) (overflow p) (scrolledTo p ++ [target]) (location p).

Definition pushState (href : string) (p : Page) : Page :=
  mkPage (isNavOpen p) (navbar p) (navMenu p) (mobileMenuBtn p)
    (navLinks p) (overflow p) (scrolledTo p) (Some href).

(** [handleNavigationClick] for a click whose target is the link [l]. *)
Definition handleNavigationClick (l : NavLink) (p : Page) : Page :=
  match getAttribute "href" (link l) with
  | Some href =>
      if String.prefix "#" href && selects href then
        let p1 := if isNavOpen p then closeMobileMenu p else p in
        pushState href (updateActiveNavLink href (smoothScrollTo href p1))
      else p
  | None => p
  end.

(** The [click] listener on [document]; [inside] says whether the
    target lies inside the menu or the button. *)
Definition clickOutside (inside : bool) (p : Page) : Page :=
  if isNavOpen p && negb inside then closeMobileMenu p else p.

(** The [keydown] listener on [document]. *)
Definition keydownListener (key : string) (p : Page) : Page :=
  if bool_decide (key = "Escape") && isNavOpen p
  then closeMobileMenu p else p.

(** The function handed to [debounce] for [resize], run when the window
    is [innerWidth] wide. *)
Definition resizeListener (innerWidth : Z) (p : Page) : Page :=
  if (768 <? innerWidth)%Z && isNavOpen p then closeMobileMenu p else p.

(** Where a click lands. *)
Inductive target :=
| Button
| Menu
| Link (i : nat)
| Elsewhere.

Inductive event :=
| Click (t : target)
| KeyDown (key : string)
| Resized (innerWidth : Z).

(** A click runs the listeners on its target first and then, bubbling,
    the one on [document]. *)
Definition click (t : target) (p : Page) : Page :=
  match t with
  | Button => clickOutside true (toggleMobileMenu p)
  | Menu => clickOutside true p
  | Link i =>
      match navLinks p !! i with
      | Some l => clickOutside (insideMenu l) (handleNavigationClick l p)
      | None => p
      end
  | Elsewhere => clickOutside false p
  end.

Definition step (p : Page) (ev : event) : Page :=
  match ev with
  | Click t => click t p
  | KeyDown key => keydownListener key p
  | Resized innerWidth => resizeListener innerWidth p
  end.

Definition run (evs : list event) (p : Page) : Page := foldl step p evs.
End Handlers.

(** *** Section detection (version 2.0.0, lines 606-633)

    The callback of the section observer; the state is
    [STATE.currentSection] and the page. *)
Record SectionEntry := mkSectionEntry {
  isIntersecting : bool;
  targetId : string                 (* entry.target.id *)
}.

Definition sectionObserverCallback (entries : list SectionEntry)
    (state : string * Page) : string * Page :=
  foldl (λ state entry,
           if isIntersecting entry
           then (targetId entry,
                 updateActiveNavLink ("#" +:+ targetId entry) state.2)
           else state)
    state entries.

(** *** Scroll listeners

    The functions handed to [throttle] by [setupScrollDetection] and by
    [initBackToTop]; [pageYOffset] is the scroll position at the call. *)
Definition showOffset : Q := 300.

Definition scrollDetection (pageYOffset : Q) (navbar : Element) : Element :=
  if Qlt_le_dec 20 pageYOffset
  then classList_add "scrolled" navbar
  else classList_remove "scrolled" navbar.

Definition backToTopDetection (pageYOffset : Q) (backToTopBtn : Element)
  : Element :=
  if Qlt_le_dec showOffset pageYOffset
  then classList_add "show" backToTopBtn
  else classList_remove "show" backToTopBtn.

(** A page with the menu closed and three links, one of them in the
    footer. *)
Definition markup : Page :=
  mkPage false
    (mkElement "" ∅ ["navbar"])
    (mkElement "" ∅ ["nav-menu"])
    (mkElement "" {[ "aria-expanded" := "false" ]} ["mobile-menu-btn"])
    [ mkNavLink (mkElement "Home" {[ "href" := "#hero" ]}
                   ["nav-link"; "active"]) true;
      mkNavLink (mkElement "About" {[ "href" := "#about" ]} ["nav-link"])
        true;
      mkNavLink (mkElement "About" {[ "href" := "#about" ]} ["nav-link"])
        false ]
    "" [] None.

(** *** Predicates *)

(** The flag, the two [active] classes, [aria-expanded] and the scroll
    lock of the body say the same. *)
Definition in_sync (p : Page) : Prop :=
  classList_contains "active" (navMenu p) = isNavOpen p ∧
  classList_contains "active" (mobileMenuBtn p) = isNavOpen p ∧
  (getAttribute "aria-expanded" (mobileMenuBtn p) = Some "true"
   ↔ isNavOpen p = true) ∧
  (overflow p = "hidden" ↔ isNavOpen p = true).

(** Events that close the menu when it is open. *)
Definition closes (selects : string → bool) (p : Page) (ev : event) : Prop :=
  match ev with
  | Click Button => isNavOpen p = true
  | Click Elsewhere => True
  | Click (Link i) =>
      ∃ l, navLinks p !! i = Some l ∧
           (insideMenu l = false ∨
            ∃ href, getAttribute "href" (link l) = Some href ∧
                    String.prefix "#" href = true ∧ selects href = true)
  | KeyDown key => key = "Escape"
  | Resized innerWidth => (768 < innerWidth)%Z
  | Click Menu => False
  end.

End Nav.

(** ** Contact form validation ([script.js], lines 327-330 and 602-678;
       version 2.0.0, lines 272-275 and 856-964) *)

Module Form.
Import Dom.

(** *** JavaScript strings

    The value of a form control is a sequence of UTF-16 code units;
    [length], [trim] and a regular expression without the [u] flag all
    work on code units. *)
Definition jsstring := list N.

(** The code units [\s] matches and [trim] strips: WhiteSpace and
    LineTerminator of the language specification. *)
Definition isWhiteSpace (c : N) : bool :=
  (((9 <=? c) && (c <=? 13)) || (c =? 32) || (c =? 160) || (c =? 5760)
   || ((8192 <=? c) && (c <=? 8202)) || (c =? 8232) || (c =? 8233)
   || (c =? 8239) || (c =? 8287) || (c =? 12288) || (c =? 65279))%N.

Fixpoint trimStart (s : jsstring) : jsstring :=
  match s with
  | [] => []
  | c :: s' => if isWhiteSpace c then trimStart s' else s
  end.

Definition trimEnd (s : jsstring) : jsstring := rev (trimStart (rev s)).

Definition trim (s : jsstring) : jsstring := trimEnd (trimStart s).

(** *** Regular expressions

    The fragment the script uses: character classes, concatenation and
    [+].  [test] is [RegExp.prototype.test] for a pattern anchored with
    [^] and [$]: the whole string has to match.  It is computed with
    derivatives. *)
Inductive regex :=
| Void
| Eps
| Class (p : N → bool)
| Alt (r1 r2 : regex)
| Cat (r1 r2 : regex)
| Star (r : regex).

Definition Plus (r : regex) : regex := Cat r (Star r).

Fixpoint nullable (r : regex) : bool :=
  match r with
  | Void => false
  | Eps => true
  | Class _ => false
  | Alt r1 r2 => nullable r1 || nullable r2
  | Cat r1 r2 => nullable r1 && nullable r2
  | Star _ => true
  end.

Fixpoint derivative (c : N) (r : regex) : regex :=
  match r with
  | Void => Void
  | Eps => Void
  | Class p => if p c then Eps else Void
  | Alt r1 r2 => Alt (derivative c r1) (derivative c r2)
  | Cat r1 r2 =>
      if nullable r1
      then Alt (Cat (derivative c r1) r2) (derivative c r2)
      else Cat (derivative c r1) r2
  | Star r' => Cat (derivative c r') (Star r')
  end.

Fixpoint test (r : regex) (s : jsstring) : bool :=
  match s with
  | [] => nullable r
  | c :: s' => test (derivative c r) s'
  end.

(** The strings a regular expression matches as a whole. *)
Inductive matches : regex → jsstring → Prop :=
| matches_Eps : matches Eps []
| matches_Class p c : p c = true → matches (Class p) [c]
| matches_Alt_l r1 r2 s : matches r1 s → matches (Alt r1 r2) s
| matches_Alt_r r1 r2 s : matches r2 s → matches (Alt r1 r2) s
| matches_Cat r1 r2 s1 s2 :
    matches r1 s1 → matches r2 s2 → matches (Cat r1 r2) (s1 ++ s2)%list
| matches_Star_nil r : matches (Star r) []
| matches_Star_cons r s1 s2 :
    matches r s1 → matches (Star r) s2 → matches (Star r) (s1 ++ s2)%list.

(** [[^\s@]] *)
Definition notSpaceOrAt (c : N) : bool := negb (isWhiteSpace c || (c =? 64)%N).

(** [/^[^\s@]+@[^\s@]+\.[^\s@]+$/] *)
Definition emailRegex : regex :=
  Cat (Plus (Class notSpaceOrAt))
    (Cat (Class (N.eqb 64%N))
       (Cat (Plus (Class notSpaceOrAt))
          (Cat (Class (N.eqb 46%N))
             (Plus (Class notSpaceOrAt))))).

Definition isValidEmail (email : jsstring) : bool := test emailRegex email.

(** A run of one or more code units that are neither white space nor
    [@]. *)
Definition word (s : jsstring) : Prop :=
  s ≠ [] ∧ Forall (λ c, notSpaceOrAt c = true) s.

(** *** Form controls *)

Record Control := mkControl {
  tagName : string;
  id : string;
  name : string;
  value : jsstring;
  required : bool;                  (* the attribute [required] is set *)
  classes : list string             (* classList *)
}.

Definition set_classes (l : list string) (c : Control) : Control :=
  mkControl (tagName c) (id c) (name c) (value c) (required c) l.

Definition removeAttribute (k : string) (e : Element) : Element :=
  mkElement (textContent e) (delete k (attributes e)) (classList e).

(** The elements with an id ending in [-error] are a map from ids to
    elements; [alter] is the guarded update
    [if (errorElement) { ... }]. *)

(** *** [script.js] *)

Section Script.
(** [capitalize fieldName] stands for
    [fieldName.charAt(0).toUpperCase() + fieldName.slice(1)]. *)
Variable capitalize : string → string.

(** The first half of [validateField]: [isValid] and [errorMessage]. *)
Definition check (fieldName : string) (value : jsstring) : bool * string :=
  match value with
  | [] => (false, capitalize fieldName +:+ " is required")
  | _ :: _ =>
      if decide (fieldName = "email") then
        if isValidEmail value then (true, "")
        else (false, "Please enter a valid email address")
      else if decide (fieldName = "name") then
        if (length value <? 2)%nat
        then (false, "Name must be at least 2 characters long")
        else (true, "")
      else if decide (fieldName = "message") then
        if (length value <? 10)%nat
        then (false, "Message must be at least 10 characters long")
        else (true, "")
      else (true, "")
  end.

Definition validateField (input : Control) (errors : gmap string Element)
  : Control * gmap string Element * bool :=
  let value := trim (value input) in
  let fieldName := name input in
  let '(isValid, errorMessage) := check fieldName value in
  let errorElement := fieldName +:+ "-error" in
  if isValid then
    (set_classes (tokens_add "success" (tokens_remove "error" (classes input)))
       input,
     alter (λ e, classList_remove "show" (set_textContent "" e))
       errorElement errors,
     true)
  else
    (set_classes (tokens_add "error" (tokens_remove "success" (classes input)))
       input,
     alter (λ e, classList_add "show" (set_textContent errorMessage e))
       errorElement errors,
     false).

(** [validateForm]: [inputs] are the nodes of class [form-control] in
    the form, in document order; the selector picks those with
    [required]. *)
Fixpoint validateForm (inputs : list Control) (errors : gmap string Element)
  : list Control * gmap string Element * bool :=
  match inputs with
  | [] => ([], errors, true)
  | input :: rest =>
      if required input then
        let '(input', errors', fieldValid) := validateField input errors in
        let '(rest', errors'', isValid) := validateForm rest errors' in
        (input' :: rest', errors'', fieldValid && isValid)
      else
        let '(rest', errors', isValid) := validateForm rest errors in
        (input :: rest', errors', isValid)
  end.

Definition clearFieldError (input : Control) (errors : gmap string Element)
  : Control * gmap string Element :=
  if contains "error" (classes input) then
    (set_classes (tokens_remove "error" (classes input)) input,
     alter (classList_remove "show") (name input +:+ "-error") errors)
  else (input, errors).
End Script.

(** What [script.js] asks of a control, in words: something is left
    after trimming, an email address looks like one, a name has two
    code units or more, a message ten or more. *)
Definition acceptable (input : Control) : bool :=
  let v := trim (value input) in
  negb (bool_decide (v = []))
  && (if decide (name input = "email") then isValidEmail v
      else if decide (name input = "name") then (2 <=? length v)%nat
      else if decide (name input = "message") then (10 <=? length v)%nat
      else true).

(** *** Version 2.0.0 *)

Module V2.

Definition getFieldLabel (fieldName : string) : string :=
  if decide (fieldName = "name") then "Full Name"
  else if decide (fieldName = "email") then "Email Address"
  else if decide (fieldName = "subject") then "Subject"
  else if decide (fieldName = "message") then "Message"
  else fieldName.

Definition showFieldError (message : string) (e : Element) : Element :=
  setAttribute "aria-live" "polite"
    (classList_add "show" (set_textContent message e)).

Definition hideFieldError (e : Element) : Element :=
  removeAttribute "aria-live" (classList_remove "show" e).

(** The chain of conditions in [validateField]: [isValid] and
    [errorMessage]. *)
Definition check (fieldName : string) (required : bool) (value : jsstring)
  : bool * string :=
  let filled := negb (bool_decide (value = [])) in
  if required && negb filled then
    (false, getFieldLabel fieldName +:+ " is required.")
  else if bool_decide (fieldName = "email") && filled
          && negb (isValidEmail value) then
    (false, "Please enter a valid email address.")
  else if bool_decide (fieldName = "name") && filled
          && (length value <? 2)%nat then
    (false, "Name must be at least 2 characters long.")
  else if bool_decide (fieldName = "subject") && filled
          && (length value <? 3)%nat then
    (false, "Subject must be at least 3 characters long.")
  else if bool_decide (fieldName = "message") && filled
          && (length value <? 10)%nat then
    (false, "Message must be at least 10 characters long.")
  else (true, "").

Definition validateField (fieldName : string) (element : Control)
    (errors : gmap string Element) : Control * gmap string Element * bool :=
  let value := trim (value element) in
  let errorElement := fieldName +:+ "-error" in
  let '(isValid, errorMessage) := check fieldName (required element) value in
  if isValid then
    (set_classes
       (tokens_add "success" (tokens_remove "error" (classes element)))
       element,
     alter hideFieldError errorElement errors,
     true)
  else
    (set_classes
       (tokens_add "error" (tokens_remove "success" (classes element)))
       element,
     alter (showFieldError errorMessage) errorElement errors,
     false).

Definition clearFieldError (element : Control) : Control :=
  set_classes (tokens_remove "success" (tokens_remove "error" (classes element)))
    element.

(** The test in the loops over [DOM.formElements]. *)
Definition validated (element : option Control) : bool :=
  match element with
  | Some c =>
      negb (bool_decide (tagName c = "BUTTON"))
      && negb (bool_decide (id c = "success-message"))
  | None => false
  end.

(** [validateForm]: [formElements] are the entries of
    [DOM.formElements], keys [name], [email], [subject], [message],
    [submitBtn] and [successMessage] in this order, each with the
    element [getElementById] found or [null]. *)
Fixpoint validateForm (formElements : list (string * option Control))
    (errors : gmap string Element)
  : list (string * option Control) * gmap string Element * bool :=
  match formElements with
  | [] => ([], errors, true)
  | (key, element) :: rest =>
      match element with
      | Some c =>
          if validated element then
            let '(c', errors', isFieldValid) := validateField key c errors in
            let '(rest', errors'', isFormValid) := validateForm rest errors' in
            ((key, Some c') :: rest', errors'', isFieldValid && isFormValid)
          else
            let '(rest', errors', isFormValid) := validateForm rest errors in
            ((key, element) :: rest', errors', isFormValid)
      | None =>
          let '(rest', errors', isFormValid) := validateForm rest errors in
          ((key, element) :: rest', errors', isFormValid)
      end
  end.

(** What version 2.0.0 asks of a field, in words: a required field is
    filled, and what is filled in fits the rule of the field. *)
Definition acceptable (fieldName : string) (element : Control) : bool :=
  let v := trim (value element) in
  if bool_decide (v = []) then negb (required element)
  else if decide (fieldName = "email") then isValidEmail v
  else if decide (fieldName = "name") then (2 <=? length v)%nat
  else if decide (fieldName = "subject") then (3 <=? length v)%nat
  else if decide (fieldName = "message") then (10 <=? length v)%nat
  else true.

End V2.

End Form.

(** ** Page start-up of version 2.0.0 ([initApp] and
       [setupBasicFallbacks], lines 1275-1338; the team section, lines
       680-760) *)

Module Startup.
Import Dom.

(** *** Team cards *)

Record Member := mkMember {
  id : Z;
  name : string;
  role : string;
  bio : string;
  initials : string;
  social : list (string * string)   (* own properties, in order *)
}.

Definition TEAM_MEMBERS : list Member :=
  [ mkMember 1 "Arjun Sharma" "President"
      "Leading innovation initiatives and strategic partnerships to drive entrepreneurial growth."
      "AS"
      [("linkedin", "https://linkedin.com/in/arjun-sharma");
       ("email", "arjun.sharma@nmit.ac.in")];
    mkMember 2 "Priya Patel" "Vice President"
      "Driving community engagement and building meaningful partnerships across the ecosystem."
      "PP"
      [("linkedin", "https://linkedin.com/in/priya-patel");
       ("email", "priya.patel@nmit.ac.in")];
    mkMember 3 "Rahul Kumar" "Technical Lead"
      "Overseeing technical workshops and mentoring the next generation of entrepreneurs."
      "RK"
      [("linkedin", "https://linkedin.com/in/rahul-kumar");
       ("email", "rahul.kumar@nmit.ac.in");
       ("github", "https://github.com/rahul-kumar")];
    mkMember 4 "Anjali Singh" "Events Manager"
      "Organizing impactful events and workshops that inspire and educate our community."
      "AS"
      [("linkedin", "https://linkedin.com/in/anjali-singh");
       ("email", "anjali.singh@nmit.ac.in")];
    mkMember 5 "Vikram Rao" "Marketing Head"
      "Building brand presence and communications to amplify our impact in the startup ecosystem."
      "VR"
      [("linkedin", "https://linkedin.com/in/vikram-rao");
       ("email", "vikram.rao@nmit.ac.in")];
    mkMember 6 "Sneha Gupta" "Finance Manager"
      "Managing financial operations and growth strategies to ensure sustainable impact."
      "SG"
      [("linkedin", "https://linkedin.com/in/sneha-gupta");
       ("email", "sneha.gupta@nmit.ac.in")] ].

(** The double quote and the line break of the template literals. *)
Definition q : string := String (Ascii.ascii_of_nat 34) EmptyString.
Definition nl : string := String (Ascii.ascii_of_nat 10) EmptyString.

(** [array.map(f).join('')] for an [f] that may throw. *)
Fixpoint mapJoin {A} (f : A → Lang.outcome string) (l : list A)
  : Lang.outcome string :=
  match l with
  | [] => Lang.Returns ""
  | x :: l' =>
      match f x with
      | Lang.Returns s =>
          match mapJoin f l' with
          | Lang.Returns rest => Lang.Returns (s +:+ rest)
          | Lang.Throws error => Lang.Throws error
          end
      | Lang.Throws error => Lang.Throws error
      end
  end.

Section Scope.
(** How the identifier [member] resolves inside [createSocialLinkHTML].
    The function has no parameter or local of that name and the script
    declares no such global, so the name resolves, if at all, to a
    property of the global object that something else defined;
    [globalMember] is then the text [member.name] yields. *)
Variable globalMember : option string.

(** [icons[platform] || ''], the markup of the icon. *)
Variable icons : string → string.

Definition createSocialLinkHTML (platform url : string)
  : Lang.outcome string :=
  let href := if decide (platform = "email") then "mailto:" +:+ url
              else url in
  let target := if decide (platform = "email") then ""
                else "target=" +:+ q +:+ "_blank" +:+ q +:+ " rel=" +:+ q
                     +:+ "noopener noreferrer" +:+ q in
  match globalMember with
  | None => Lang.Throws "ReferenceError: member is not defined"
  | Some memberName =>
      Lang.Returns (
        nl +:+ "    <a href=" +:+ q +:+ href +:+ q +:+ " class=" +:+ q +:+
        "team-social-link" +:+ q +:+ " " +:+ target +:+ " aria-label=" +:+
        q +:+ memberName +:+ " " +:+ platform +:+ q +:+ ">" +:+ nl +:+
        "      " +:+ icons platform +:+ nl +:+ "    </a>" +:+ nl +:+ "  ")
  end.

Definition createTeamCardHTML (member : Member) : Lang.outcome string :=
  match mapJoin (λ entry, createSocialLinkHTML entry.1 entry.2)
          (social member) with
  | Lang.Throws error => Lang.Throws error
  | Lang.Returns socialLinks =>
      Lang.Returns (
        nl +:+ "    <div class=" +:+ q +:+ "team-card fade-in-up" +:+ q +:+
        " data-member-id=" +:+ q +:+ pretty (id member) +:+ q +:+ ">" +:+
        nl +:+ "      <div class=" +:+ q +:+ "team-avatar" +:+ q +:+ ">" +:+
        nl +:+ "        <div class=" +:+ q +:+ "avatar-placeholder" +:+ q +:+
        ">" +:+ nl +:+ "          " +:+ initials member +:+ nl +:+
        "        </div>" +:+ nl +:+ "      </div>" +:+ nl +:+
        "      <h3 class=" +:+ q +:+ "team-name" +:+ q +:+ ">" +:+
        name member +:+ "</h3>" +:+ nl +:+ "      <p class=" +:+ q +:+
        "team-role" +:+ q +:+ ">" +:+ role member +:+ "</p>" +:+ nl +:+
        "      <p class=" +:+ q +:+ "team-bio" +:+ q +:+ ">" +:+ bio member +:+
        "</p>" +:+ nl +:+ "      <div class=" +:+ q +:+ "team-social" +:+ q +:+
        ">" +:+ nl +:+ "        " +:+ socialLinks +:+ nl +:+ "      </div>" +:+
        nl +:+ "    </div>" +:+ nl +:+ "  ")
  end.

(** *** The page *)

(** The listeners the start-up registers, named after the function or
    the purpose of the closure. *)
Inductive listener :=
| MotionPreferenceChange          (* initAccessibility, media query *)
| SkipLinkClick                   (* setupKeyboardNavigation *)
| EscapeKey                       (* setupKeyboardNavigation, document *)
| TabKey                          (* setupKeyboardNavigation, document *)
| MouseDown                       (* setupKeyboardNavigation, document *)
| ToggleMobileMenu                (* setupMobileMenu, the button *)
| ClickOutside                    (* setupMobileMenu, document *)
| EscapeCloses                    (* setupMobileMenu, document *)
| ResizeCloses                    (* setupMobileMenu, window *)
| NavigationClick (i : nat)       (* setupNavigationLinks, link [i] *)
| ScrollDetection                 (* setupScrollDetection, window *)
| FieldBlur (key : string)        (* setupFormValidation *)
| FieldInput (key : string)       (* setupFormValidation *)
| FormSubmission                  (* setupFormSubmission, the form *)
| BackToTopScroll                 (* initBackToTop, window *)
| BackToTopClick                  (* initBackToTop, the button *)
| FallbackMenuToggle              (* setupBasicFallbacks, the button *)
| FallbackSubmit.                 (* setupBasicFallbacks, the form *)

(** The page is one that has the three navigation elements.  [Other]
    is the part of the page that only [initHeroAnimations] and
    [initScrollEffects] act on; the listeners on the team cards are
    left out. *)
Context {Other : Type}.

Record App := mkApp {
  page : Nav.Page;
  listeners : list listener;        (* in order of registration *)
  prefersReduced : bool;            (* the media query matches *)
  reducedMotion : bool;             (* STATE.reducedMotion *)
  skipLink : bool;                  (* .skip-link exists *)
  teamGrid : option string;         (* innerHTML of #team-grid *)
  contactForm : bool;               (* #contact-form exists *)
  formElements : list (string * option Form.Control);
  backToTopBtn : bool;              (* #back-to-top exists *)
  bodyClasses : list string;
  reported : list string;           (* console.error *)
  initialized : bool;               (* enigmaAppInitialized dispatched *)
  other : Other
}.

Definition JS (A : Type) : Type := App → App * Lang.outcome A.

Definition ret {A} (a : A) : JS A := λ s, (s, Lang.Returns a).

Definition bind {A B} (m : JS A) (k : A → JS B) : JS B :=
  λ s, match m s with
       | (s', Lang.Returns a) => k a s'
       | (s', Lang.Throws error) => (s', Lang.Throws error)
       end.

Definition modify (f : App → App) : JS unit :=
  λ s, (f s, Lang.Returns tt).

Definition addEventListener (l : listener) (s : App) : App :=
  mkApp (page s) (listeners s ++ [l]) (prefersReduced s) (reducedMotion s)
    (skipLink s) (teamGrid s) (contactForm s) (formElements s)
    (backToTopBtn s) (bodyClasses s) (reported s) (initialized s) (other s).

Definition addEventListeners (ls : list listener) (s : App) : App :=
  foldl (λ s l, addEventListener l s) s ls.

(** *** The initializers *)

Definition initAccessibility : JS unit :=
  modify (λ s,
    let s := mkApp (page s) (listeners s) (prefersReduced s)
               (prefersReduced s) (skipLink s) (teamGrid s) (contactForm s)
               (formElements s) (backToTopBtn s) (bodyClasses s)
               (reported s) (initialized s) (other s) in
    let s := addEventListener MotionPreferenceChange s in
    let s := if skipLink s then addEventListener SkipLinkClick s else s in
    addEventListeners [EscapeKey; TabKey; MouseDown] s).

Definition initNavigation : JS unit :=
  modify (λ s,
    let s := addEventListeners
               [ToggleMobileMenu; ClickOutside; EscapeCloses; ResizeCloses]
               s in
    let s := addEventListeners
               (NavigationClick <$> seq 0 (length (Nav.navLinks (page s))))
               s in
    addEventListener ScrollDetection s).

(** The two initializers that act on the rest of the page; each of them
    returns or throws. *)
Variable heroAnimations : Other → Other * Lang.outcome unit.
Variable scrollEffects : Other → Other * Lang.outcome unit.

Definition onOther (f : Other → Other * Lang.outcome unit) : JS unit :=
  λ s, let '(o, result) := f (other s) in
       (mkApp (page s) (listeners s) (prefersReduced s) (reducedMotion s)
          (skipLink s) (teamGrid s) (contactForm s) (formElements s)
          (backToTopBtn s) (bodyClasses s) (reported s) (initialized s) o,
        result).

Definition initHeroAnimations : JS unit := onOther heroAnimations.

Definition initScrollEffects : JS unit := onOther scrollEffects.

Definition generateTeamCards : JS unit :=
  λ s, match mapJoin createTeamCardHTML TEAM_MEMBERS with
       | Lang.Throws error => (s, Lang.Throws error)
       | Lang.Returns teamHTML =>
           (mkApp (page s) (listeners s) (prefersReduced s)
              (reducedMotion s) (skipLink s) (Some teamHTML)
              (contactForm s) (formElements s) (backToTopBtn s)
              (bodyClasses s) (reported s) (initialized s) (other s),
            Lang.Returns tt)
       end.

Definition initTeamSection : JS unit :=
  λ s, match teamGrid s with
       | None => ret tt s
       | Some _ => generateTeamCards s
       end.

Definition setupFormValidation : JS unit :=
  modify (λ s,
    foldl (λ s entry,
             if Form.V2.validated entry.2
             then addEventListeners [FieldBlur entry.1; FieldInput entry.1] s
             else s)
      s (formElements s)).

Definition setupFormSubmission : JS unit :=
  modify (addEventListener FormSubmission).

Definition initContactForm : JS unit :=
  λ s, if contactForm s
       then bind setupFormValidation (λ _, setupFormSubmission) s
       else ret tt s.

Definition initBackToTop : JS unit :=
  λ s, if backToTopBtn s
       then modify (addEventListeners [BackToTopScroll; BackToTopClick]) s
       else ret tt s.

(** The body of the [try] block. *)
Definition initializers : JS unit :=
  bind initAccessibility (λ _,
  bind initNavigation (λ _,
  bind initHeroAnimations (λ _,
  bind initScrollEffects (λ _,
  bind initTeamSection (λ _,
  bind initContactForm (λ _,
  bind initBackToTop (λ _,
  modify (λ s,
    mkApp (page s) (listeners s) (prefersReduced s) (reducedMotion s)
      (skipLink s) (teamGrid s) (contactForm s) (formElements s)
      (backToTopBtn s)
      (if reducedMotion s then tokens_add "reduced-motion" (bodyClasses s)
       else bodyClasses s)
      (reported s) true (other s))))))))).

Definition setupBasicFallbacks (s : App) : App :=
  let s := addEventListener FallbackMenuToggle s in
  if contactForm s then addEventListener FallbackSubmit s else s.

Definition initApp (s : App) : App :=
  match initializers s with
  | (s', Lang.Returns _) => s'
  | (s', Lang.Throws error) =>
      setupBasicFallbacks
        (mkApp (page s') (listeners s') (prefersReduced s')
           (reducedMotion s') (skipLink s') (teamGrid s') (contactForm s')
           (formElements s') (backToTopBtn s') (bodyClasses s')
           (reported s' ++ [error]) (initialized s') (other s'))
  end.
End Scope.

(** *** A click on the menu button *)

(** The listener [setupBasicFallbacks] puts on the button. *)
Definition fallbackMenuToggle (p : Nav.Page) : Nav.Page :=
  let menu := if classList_contains "active" (Nav.navMenu p)
              then classList_remove "active" (Nav.navMenu p)
              else classList_add "active" (Nav.navMenu p) in
  let isExpanded := classList_contains "active" menu in
  Nav.mkPage (Nav.isNavOpen p) (Nav.navbar p) menu
    (setAttribute "aria-expanded" (if isExpanded then "true" else "false")
       (Nav.mobileMenuBtn p))
    (Nav.navLinks p) (Nav.overflow p) (Nav.scrolledTo p) (Nav.location p).

(** What a listener does for a click on the button when it is
    registered on the button, and when it is registered on [document]
    (where the click counts as one inside the button). *)
Definition buttonClick (p : Nav.Page) (l : listener) : Nav.Page :=
  match l with
  | ToggleMobileMenu => Nav.toggleMobileMenu p
  | FallbackMenuToggle => fallbackMenuToggle p
  | _ => p
  end.

Definition documentClick (p : Nav.Page) (l : listener) : Nav.Page :=
  match l with
  | ClickOutside => Nav.clickOutside true p
  | _ => p
  end.

(** The listeners on the button run in the order of their registration;
    the event then bubbles to [document]. *)
Definition clickButton (ls : list listener) (p : Nav.Page) : Nav.Page :=
  foldl documentClick (foldl buttonClick p ls) ls.

(** *** The listeners of a completed start-up, by initializer *)

Definition accessibilityListeners (skipLink : bool) : list listener :=
  [MotionPreferenceChange]
  ++ (if skipLink then [SkipLinkClick] else [])
  ++ [EscapeKey; TabKey; MouseDown].

Definition navigationListeners (links : nat) : list listener :=
  [ToggleMobileMenu; ClickOutside; EscapeCloses; ResizeCloses]
  ++ (NavigationClick <$> seq 0 links)
  ++ [ScrollDetection].

Definition formListeners (formElements : list (string * option Form.Control))
  : list listener :=
  flat_map (λ entry, if Form.V2.validated entry.2
                     then [FieldBlur entry.1; FieldInput entry.1] else [])
    formElements
  ++ [FormSubmission].

Definition backToTopListeners : list listener :=
  [BackToTopScroll; BackToTopClick].

(** A page with a team grid, a contact form and a back-to-top button. *)
Definition markup : App (Other:=unit) :=
  mkApp Nav.markup [] false false true (Some "") true
    [("name", Some (Form.mkControl "INPUT" "name" "name" [] true
                      ["form-control"]));
     ("email", Some (Form.mkControl "INPUT" "email" "email" [] true
                       ["form-control"]));
     ("subject", None);
     ("message", Some (Form.mkControl "TEXTAREA" "message" "message" [] true
                         ["form-control"]));
     ("submitBtn", Some (Form.mkControl "BUTTON" "submit-btn" "" [] false
                           ["btn"]));
     ("successMessage", None)]
    true [] [] false tt.

(** The same page without the team grid. *)
Definition markup_without_team : App (Other:=unit) :=
  mkApp (page markup) (listeners markup) (prefersReduced markup)
    (reducedMotion markup) (skipLink markup) None (contactForm markup)
    (formElements markup) (backToTopBtn markup) (bodyClasses markup)
    (reported markup) (initialized markup) (other markup).

(** An initializer of the rest of the page that returns. *)
Definition returning (o : unit) : unit * Lang.outcome unit :=
  (o, Lang.Returns tt).

End Startup.

(** ** Facts about class tokens *)

Module DomFacts.
Import Dom.


Lemma contains_tokens_add c l : contains c (tokens_add c l) = true.
Proof.
  unfold tokens_add. destruct (contains c l) eqn:E; [exact E|].
  unfold contains. apply bool_decide_eq_true.
  apply elem_of_app. right. apply list_elem_of_singleton. reflexivity.
Qed.

Lemma contains_tokens_remove c l : contains c (tokens_remove c l) = false.
Proof.
  unfold contains, tokens_remove. apply bool_decide_eq_false.
  rewrite list_elem_of_filter. tauto.
Qed.

Lemma contains_tokens_add_ne c d l :
  c ≠ d → contains c (tokens_add d l) = contains c l.
Proof.
  intros Hne. unfold tokens_add. destruct (contains d l); [reflexivity|].
  unfold contains. apply bool_decide_ext.
  rewrite elem_of_app, list_elem_of_singleton. tauto.
Qed.

Lemma contains_tokens_remove_ne c d l :
  c ≠ d → contains c (tokens_remove d l) = contains c l.
Proof.
  intros Hne. unfold contains, tokens_remove. apply bool_decide_ext.
  rewrite list_elem_of_filter. tauto.
Qed.

Lemma elem_of_tokens_add c l : c ∈ tokens_add c l.
Proof.
  pose proof (contains_tokens_add c l) as H. unfold contains in H.
  apply bool_decide_eq_true in H. exact H.
Qed.

Lemma tokens_add_idempotent c l :
  tokens_add c (tokens_add c l) = tokens_add c l.
Proof.
  unfold tokens_add at 1. rewrite contains_tokens_add. reflexivity.
Qed.

Lemma tokens_add_keeps c d l : c ∈ l → c ∈ tokens_add d l.
Proof.
  intros H. unfold tokens_add. destruct (contains d l); [exact H|].
  apply elem_of_app. left. exact H.
Qed.

End DomFacts.

(** ** Facts about the banner *)

Module LangFacts.
Import Dom Lang DomFacts.

Local Arguments Nat.modulo : simpl never.
Local Arguments Z.div : simpl never.
Local Arguments Z.add : simpl never.
Local Arguments Z.max : simpl never.
Local Arguments Z.min : simpl never.
Local Arguments Z.mul : simpl never.
Local Arguments setAttribute : simpl never.
Local Arguments set_textContent : simpl never.
Local Arguments classList_add : simpl never.
Local Arguments classList_remove : simpl never.
Local Arguments String.append : simpl never.

(** *** Properties kept by every script function *)

Section Preservation.
Context (P : World → Prop).

Lemma preserves_ret {A} (a : A) : preserves P (ret a).
Proof. intros w Hw. exact Hw. Qed.

Lemma preserves_throw {A} (error : string) : preserves P (@throw A error).
Proof. intros w Hw. exact Hw. Qed.

Lemma preserves_read {A} (f : World → A) : preserves P (read f).
Proof. intros w Hw. exact Hw. Qed.

Lemma preserves_modify (f : World → World) :
  (∀ w, P w → P (f w)) → preserves P (modify f).
Proof. intros Hf w Hw. apply Hf, Hw. Qed.

Lemma preserves_bind {A B} (m : JS A) (k : A → JS B) :
  preserves P m → (∀ a, preserves P (k a)) → preserves P (bind m k).
Proof.
  intros Hm Hk w Hw. unfold exec, bind.
  specialize (Hm w Hw). unfold exec in Hm.
  destruct (m w) as [w' [a|error]]; simpl in *.
  - apply Hk, Hm.
  - exact Hm.
Qed.

Lemma preserves_repeat (n : nat) (m : JS unit) :
  preserves P m → ∀ w, P w → P (repeat_listener n m w).
Proof.
  intros Hm. induction n as [|n IH]; intros w Hw; simpl.
  - exact Hw.
  - apply IH, Hm, Hw.
Qed.
End Preservation.

(** Splits a script function along its binds and branches, leaving one
    goal per primitive state update. *)
Ltac preserve_by tac :=
  repeat first
    [ solve [tac]
    | apply preserves_ret
    | apply preserves_throw
    | apply preserves_read
    | apply preserves_bind; [|intros ?]
    | match goal with
      | |- preserves _ (if ?b then _ else _) => destruct b
      | |- preserves _ (match ?x with Some _ => _ | None => _ end) =>
          destruct x
      end ].

Ltac preserve := preserve_by fail.

(** *** The index stays inside the language list *)

Lemma index_onElement f : preserves index_valid (onElement f).
Proof. apply preserves_modify. intros w Hw. exact Hw. Qed.

Lemma index_addTimer p c d : preserves index_valid (addTimer p c d).
Proof. intros w Hw. exact Hw. Qed.

Lemma index_setInterval c d : preserves index_valid (setInterval c d).
Proof. apply index_addTimer. Qed.

Lemma index_setTimeout c d : preserves index_valid (setTimeout c d).
Proof. apply index_addTimer. Qed.

Lemma index_clearInterval id : preserves index_valid (clearInterval id).
Proof. apply preserves_modify. intros w Hw. exact Hw. Qed.

Lemma index_languageAt i : preserves index_valid (languageAt i).
Proof. unfold languageAt. preserve. Qed.

Lemma index_set_animationInterval h :
  preserves index_valid (modify (set_animationInterval h)).
Proof. apply preserves_modify. intros w Hw. exact Hw. Qed.

Lemma index_set_prefersReducedMotion b :
  preserves index_valid (modify (set_prefersReducedMotion b)).
Proof. apply preserves_modify. intros w Hw. exact Hw. Qed.

Create HintDb index.

Local Hint Resolve index_onElement index_addTimer index_clearInterval
  index_setInterval index_setTimeout
  index_languageAt index_set_animationInterval
  index_set_prefersReducedMotion : index.

Lemma index_updateLanguageText i : preserves index_valid (updateLanguageText i).
Proof. unfold updateLanguageText. preserve_by ltac:(auto with index). Qed.

Lemma index_animateLanguageChange i :
  preserves index_valid (animateLanguageChange i).
Proof.
  unfold animateLanguageChange. preserve_by ltac:(auto with index).
Qed.

Lemma index_startLanguageCycle : preserves index_valid startLanguageCycle.
Proof.
  unfold startLanguageCycle.
  preserve_by ltac:(auto using index_updateLanguageText with index).
Qed.

Lemma index_initMultilingualAnimation :
  preserves index_valid initMultilingualAnimation.
Proof.
  unfold initMultilingualAnimation.
  preserve_by ltac:(auto using index_startLanguageCycle with index).
Qed.

Lemma index_stopMultilingualAnimation :
  preserves index_valid stopMultilingualAnimation.
Proof.
  unfold stopMultilingualAnimation. preserve_by ltac:(auto with index).
Qed.

Lemma index_motionListener b : preserves index_valid (motionListener b).
Proof.
  unfold motionListener.
  preserve_by ltac:(auto using index_stopMultilingualAnimation,
                      index_initMultilingualAnimation with index).
Qed.

Lemma index_init : preserves index_valid init.
Proof.
  unfold init, handleMotionPreferenceChange.
  apply preserves_bind; [apply index_initMultilingualAnimation|intros _].
  apply preserves_modify. intros w Hw. exact Hw.
Qed.

Lemma index_visibilityListener : preserves index_valid visibilityListener.
Proof.
  unfold visibilityListener.
  preserve_by ltac:(auto using index_stopMultilingualAnimation,
                      index_initMultilingualAnimation).
Qed.

Lemma mod_languages_lt (i : nat) : i mod length LANGUAGES < length LANGUAGES.
Proof. apply Nat.mod_upper_bound. discriminate. Qed.

(** The tick establishes the bound whatever the index was before. *)
Lemma index_tick w : index_valid (exec (run_callback CbLanguageTick) w).
Proof.
  unfold index_valid, exec. simpl.
  apply (mod_languages_lt (currentLanguageIndex w + 1)).
Qed.

Lemma index_run_callback c : preserves index_valid (run_callback c).
Proof.
  destruct c as [|j|].
  - intros w _. apply index_tick.
  - unfold run_callback.
    preserve_by ltac:(auto using index_updateLanguageText with index).
  - simpl. auto with index.
Qed.

Lemma index_fire t w : index_valid w → index_valid (fire t w).
Proof. intros Hw. unfold fire. apply index_run_callback. exact Hw. Qed.

Lemma index_step w ev : index_valid w → index_valid (step w ev).
Proof.
  intros Hw. destruct ev as [|hidden|matches| | |ms]; simpl.
  - apply index_init, Hw.
  - destruct (Bool.eqb hidden (docHidden w)); [exact Hw|].
    apply index_visibilityListener. exact Hw.
  - destruct (Bool.eqb matches (mediaReduce w)); [exact Hw|].
    apply preserves_repeat; [apply index_motionListener | exact Hw].
  - apply index_stopMultilingualAnimation, Hw.
  - unfold fire_next. destruct (earliest (timers w)); [|exact Hw].
    apply index_fire, Hw.
  - unfold elapse. destruct (earliest (timers w)); exact Hw.
Qed.

Lemma index_run evs : ∀ w, index_valid w → index_valid (run evs w).
Proof.
  induction evs as [|ev evs IH]; intros w Hw; simpl.
  - exact Hw.
  - apply IH, index_step, Hw.
Qed.

(** *** Timers run on time *)

Lemma half_fade : (FADE_DURATION / 2 = 400)%Z.
Proof. reflexivity. Qed.

Ltac ms_constants :=
  rewrite ?half_fade in *; unfold ANIMATION_INTERVAL, FADE_DURATION in *.

Lemma fire_unfold t w :
  fire t w
  = exec (run_callback (cb t))
      (set_timers (reschedule t (timers w))
         (set_now (Z.max (now w) (due t)) w)).
Proof. destruct w. reflexivity. Qed.

Lemma punctual_same f :
  (∀ w, now (f w) = now w ∧ timers (f w) = timers w) →
  preserves punctual (modify f).
Proof.
  intros Hf w Hw t Ht. unfold exec, modify in *. simpl in *.
  destruct (Hf w) as [Hn Hts]. rewrite Hn. rewrite Hts in Ht.
  apply Hw, Ht.
Qed.

Lemma punctual_onElement f : preserves punctual (onElement f).
Proof. apply punctual_same. intros w. destruct w. auto. Qed.

Lemma punctual_addTimer p c d :
  (0 ≤ d)%Z → (∀ q, p = Some q → (0 ≤ q)%Z) →
  preserves punctual (addTimer p c d).
Proof.
  intros Hd Hp w Hw t Ht. unfold exec, addTimer in *. destruct w.
  simpl in *. apply elem_of_app in Ht as [Ht|Ht].
  - apply (Hw t Ht).
  - apply list_elem_of_singleton in Ht. subst t. simpl. split; [lia|exact Hp].
Qed.

Lemma punctual_setInterval c d :
  (0 ≤ d)%Z → preserves punctual (setInterval c d).
Proof.
  intros Hd. apply punctual_addTimer; [exact Hd|]. intros q [= <-]. exact Hd.
Qed.

Lemma punctual_setTimeout c d :
  (0 ≤ d)%Z → preserves punctual (setTimeout c d).
Proof. intros Hd. apply punctual_addTimer; [exact Hd|]. discriminate. Qed.

Lemma punctual_clearInterval id : preserves punctual (clearInterval id).
Proof.
  intros w Hw t Ht. unfold exec, clearInterval, modify in *. destruct w.
  simpl in *. apply list_elem_of_filter in Ht as [_ Ht]. apply (Hw t Ht).
Qed.

Lemma punctual_languageAt i : preserves punctual (languageAt i).
Proof. unfold languageAt. preserve. Qed.

Lemma punctual_set_animationInterval h :
  preserves punctual (modify (set_animationInterval h)).
Proof. apply punctual_same. intros w. destruct w. auto. Qed.

Lemma punctual_set_prefersReducedMotion b :
  preserves punctual (modify (set_prefersReducedMotion b)).
Proof. apply punctual_same. intros w. destruct w. auto. Qed.

Lemma punctual_half_fade : preserves punctual (setTimeout CbFadeInDone FADE_DURATION).
Proof. apply punctual_setTimeout. discriminate. Qed.

Create HintDb punctual.

#[local] Hint Resolve punctual_onElement punctual_clearInterval
  punctual_languageAt punctual_set_animationInterval
  punctual_set_prefersReducedMotion punctual_half_fade : punctual.

Lemma punctual_updateLanguageText i : preserves punctual (updateLanguageText i).
Proof. unfold updateLanguageText. preserve_by ltac:(auto with punctual). Qed.

Lemma punctual_animateLanguageChange i :
  preserves punctual (animateLanguageChange i).
Proof.
  unfold animateLanguageChange.
  preserve_by ltac:(auto with punctual).
  apply punctual_setTimeout. rewrite half_fade. lia.
Qed.

Lemma punctual_startLanguageCycle : preserves punctual startLanguageCycle.
Proof.
  unfold startLanguageCycle.
  preserve_by ltac:(auto using punctual_updateLanguageText with punctual).
  apply punctual_setInterval. discriminate.
Qed.

Lemma punctual_initMultilingualAnimation :
  preserves punctual initMultilingualAnimation.
Proof.
  unfold initMultilingualAnimation.
  preserve_by ltac:(auto using punctual_startLanguageCycle with punctual).
Qed.

Lemma punctual_stopMultilingualAnimation :
  preserves punctual stopMultilingualAnimation.
Proof.
  unfold stopMultilingualAnimation. preserve_by ltac:(auto with punctual).
Qed.

Lemma punctual_motionListener b : preserves punctual (motionListener b).
Proof.
  unfold motionListener.
  preserve_by ltac:(auto using punctual_stopMultilingualAnimation,
                      punctual_initMultilingualAnimation with punctual).
Qed.

Lemma punctual_init : preserves punctual init.
Proof.
  unfold init, handleMotionPreferenceChange.
  apply preserves_bind; [apply punctual_initMultilingualAnimation|intros _].
  apply punctual_same. intros w. destruct w. auto.
Qed.

Lemma punctual_visibilityListener : preserves punctual visibilityListener.
Proof.
  unfold visibilityListener.
  preserve_by ltac:(auto using punctual_stopMultilingualAnimation,
                      punctual_initMultilingualAnimation).
Qed.

Lemma punctual_run_callback c : preserves punctual (run_callback c).
Proof.
  destruct c as [|j|]; unfold run_callback.
  - apply preserves_bind; [|intros _].
    + apply punctual_same. intros w. destruct w. auto.
    + apply preserves_bind; [apply preserves_read|intros i].
      apply punctual_animateLanguageChange.
  - preserve_by ltac:(auto using punctual_updateLanguageText with punctual).
  - auto with punctual.
Qed.

Lemma earliest_none ts : earliest ts = None → ts = [].
Proof.
  destruct ts as [|t ts]; [reflexivity|]. simpl.
  destruct (earliest ts) as [u|]; [destruct (before t u)|]; discriminate.
Qed.

Lemma earliest_elem ts t : earliest ts = Some t → t ∈ ts.
Proof.
  revert t. induction ts as [|u ts IH]; intros t H; [discriminate|].
  simpl in H. destruct (earliest ts) as [v|].
  - destruct (before u v); injection H as <-.
    + apply list_elem_of_here.
    + apply list_elem_of_further, IH. reflexivity.
  - injection H as <-. apply list_elem_of_here.
Qed.

Lemma earliest_least ts t :
  earliest ts = Some t → ∀ u, u ∈ ts → (due t ≤ due u)%Z.
Proof.
  revert t. induction ts as [|v ts IH]; intros t H u Hu; [discriminate|].
  simpl in H. destruct (earliest ts) as [m|] eqn:Hm.
  - specialize (IH m eq_refl).
    assert (Hvm : before v m = true → (due v ≤ due m)%Z).
    { unfold before. intros Hb. apply orb_true_iff in Hb as [Hb|Hb].
      - apply Z.ltb_lt in Hb. lia.
      - apply andb_true_iff in Hb as [Hb _]. apply Z.eqb_eq in Hb. lia. }
    assert (Hmv : before v m = false → (due m ≤ due v)%Z).
    { unfold before. intros Hb. apply orb_false_iff in Hb as [Hb _].
      apply Z.ltb_ge in Hb. exact Hb. }
    apply elem_of_cons in Hu as [->|Hu].
    + destruct (before v m) eqn:Hb; injection H as <-; [lia|auto].
    + specialize (IH u Hu).
      destruct (before v m) eqn:Hb; injection H as <-; [|exact IH].
      specialize (Hvm eq_refl). lia.
  - injection H as <-. apply earliest_none in Hm. subst ts.
    apply list_elem_of_singleton in Hu. subst. lia.
Qed.

Lemma punctual_fire t w :
  punctual w → earliest (timers w) = Some t → punctual (fire t w).
Proof.
  intros Hw Ht. rewrite fire_unfold. apply punctual_run_callback.
  pose proof (earliest_elem _ _ Ht) as Hin.
  pose proof (earliest_least _ _ Ht) as Hleast.
  destruct (Hw t Hin) as [Hdue Hperiod].
  intros u Hu. destruct w as [now0 next ts h mr dh ml idx handle prm].
  simpl in *. unfold reschedule in Hu.
  destruct (period t) as [p|] eqn:Hp.
  - apply list_elem_of_fmap in Hu as (v & -> & Hv).
    destruct (Hw v Hv) as [Hv1 Hv2]. specialize (Hleast v Hv).
    specialize (Hperiod p eq_refl).
    destruct (decide (tid v = tid t)); simpl; split; auto; lia.
  - apply list_elem_of_filter in Hu as [_ Hu].
    destruct (Hw u Hu) as [Hu1 Hu2]. specialize (Hleast u Hu).
    split; [lia|exact Hu2].
Qed.

Lemma punctual_step w ev : punctual w → punctual (step w ev).
Proof.
  intros Hw. destruct ev as [|hidden|matches| | |ms]; simpl.
  - apply punctual_init, Hw.
  - destruct (Bool.eqb hidden (docHidden w)); [exact Hw|].
    apply punctual_visibilityListener. destruct w. exact Hw.
  - destruct (Bool.eqb matches (mediaReduce w)); [exact Hw|].
    apply preserves_repeat; [apply punctual_motionListener|].
    destruct w. exact Hw.
  - apply punctual_stopMultilingualAnimation, Hw.
  - unfold fire_next. destruct (earliest (timers w)) as [t|] eqn:Ht;
      [|exact Hw].
    apply punctual_fire; assumption.
  - unfold elapse. destruct (earliest (timers w)) as [t|] eqn:Ht.
    + pose proof (earliest_least _ _ Ht) as Hleast.
      intros u Hu. destruct w. simpl in *.
      destruct (Hw u Hu) as [Hu1 Hu2]. specialize (Hleast u Hu).
      simpl in Hu1. split; [lia|exact Hu2].
    + apply earliest_none in Ht. intros u Hu. destruct w. simpl in *.
      subst. apply not_elem_of_nil in Hu. contradiction.
Qed.

(** In every state of the page no timer is overdue: a timer task runs at
    the instant for which it was armed. *)
Lemma punctual_run evs h reduce hidden :
  punctual (run evs (initial_world h reduce hidden)).
Proof.
  assert (H : ∀ w, punctual w → punctual (run evs w)).
  { induction evs as [|ev evs IH]; intros w Hw; simpl; [exact Hw|].
    apply IH, punctual_step, Hw. }
  apply H. intros t Ht. apply not_elem_of_nil in Ht. contradiction.
Qed.

(** *** One period of the undisturbed cycle *)

Lemma earliest_single t : earliest [t] = Some t.
Proof. reflexivity. Qed.

Lemma earliest_second t u :
  (due u < due t)%Z → earliest [t; u] = Some u.
Proof.
  intros H. simpl. unfold before.
  destruct (Z.ltb_spec (due t) (due u)); [lia|].
  destruct (Z.eqb_spec (due t) (due u)); [lia|]. reflexivity.
Qed.

Lemma languages_lookup (i : nat) :
  ∃ entry, LANGUAGES !! (i mod length LANGUAGES) = Some entry.
Proof.
  apply lookup_lt_is_Some. apply mod_languages_lt.
Qed.

Lemma shows_updateLanguageText entry e :
  shows entry
    (setAttribute "aria-label" (label entry +:+ ": " +:+ text entry)
       (setAttribute "lang" (lang entry) (set_textContent (text entry) e))).
Proof.
  unfold shows, getAttribute. simpl. split; [reflexivity|].
  split.
  - rewrite lookup_insert_ne by discriminate. apply lookup_insert_eq.
  - apply lookup_insert_eq.
Qed.

Lemma shows_classList_add entry c e :
  shows entry e → shows entry (classList_add c e).
Proof. intros H. exact H. Qed.

Lemma shows_classList_remove entry c e :
  shows entry e → shows entry (classList_remove c e).
Proof. intros H. exact H. Qed.

Lemma displaying_period N w :
  displaying N w → displaying (S N) (fire_next (fire_next (fire_next w))).
Proof.
  intros (Hi & (entry & e & Hentry & Hhero & Hshows) & Ht & Hh & Hnow & Hid).
  destruct w as [now0 next ts h mr dh ml idx handle prm].
  simpl in Hi, Hentry, Hhero, Ht, Hh, Hnow, Hid. subst.
  assert (Hnow : (settled N ≤ ANIMATION_INTERVAL * (Z.of_nat N + 1))%Z).
  { destruct N; unfold settled; ms_constants; lia. }
  generalize dependent (settled N). intros now0 Hnow.
  (* the interval fires *)
  unfold fire_next at 3. simpl timers. rewrite earliest_single.
  unfold fire. cbn. rewrite decide_True by reflexivity.
  (* the swap timeout fires *)
  unfold fire_next at 2. cbn [timers].
  rewrite earliest_second by (simpl; ms_constants; lia).
  unfold fire. cbn.
  unfold exec, updateLanguageText, languageAt, bind.
  destruct (languages_lookup (N `mod` 6 + 1)) as [entry' Hentry'].
  simpl length in Hentry'. rewrite Hentry'. cbn.
  rewrite decide_True by lia. rewrite decide_False by (intros ?; congruence).
  (* the clean-up timeout fires *)
  unfold fire_next. cbn [timers app].
  rewrite earliest_second by (simpl; ms_constants; lia).
  unfold fire. cbn.
  rewrite decide_True by lia. rewrite decide_False by (intros ?; congruence).
  cbn.
  assert (Hmod : (N `mod` 6 + 1) `mod` 6 = S N `mod` 6).
  { replace (S N) with (N + 1) by lia. apply Nat.Div0.add_mod_idemp_l. }
  unfold displaying. simpl length. cbn [currentLanguageIndex hero timers
    animationInterval now nextTimerId].
  rewrite <- Hmod. split; [reflexivity|]. split.
  { eexists _, _. split; [exact Hentry'|]. split; [reflexivity|].
    apply shows_classList_remove, shows_classList_add,
      shows_classList_remove, shows_updateLanguageText. }
  split. { do 2 f_equal. ms_constants. lia. }
  split; [reflexivity|]. split; [unfold settled; ms_constants; lia|lia].
Qed.

Lemma displaying_loaded e hidden :
  displaying 0 (step (initial_world (Some e) false hidden) DOMContentLoaded).
Proof.
  unfold displaying. cbn.
  split; [reflexivity|]. split.
  { eexists _, _. split; [reflexivity|]. split; [reflexivity|].
    apply shows_updateLanguageText. }
  repeat split. lia.
Qed.

Lemma run_app evs1 evs2 w :
  run (evs1 ++ evs2)%list w = run evs2 (run evs1 w).
Proof. apply foldl_app. Qed.

Lemma replicate_period (N : nat) :
  replicate (3 * S N) TimerFire
  = (replicate (3 * N) TimerFire ++ [TimerFire; TimerFire; TimerFire])%list.
Proof.
  replace (3 * S N) with (3 * N + 3) by lia.
  rewrite replicate_add. reflexivity.
Qed.

Lemma displaying_periods e hidden N :
  displaying N
    (run (DOMContentLoaded :: replicate (3 * N) TimerFire)
       (initial_world (Some e) false hidden)).
Proof.
  induction N as [|N IH].
  - apply displaying_loaded.
  - rewrite replicate_period, app_comm_cons, run_app.
    apply displaying_period in IH. exact IH.
Qed.

(** *** The fade choreography *)

Lemma tick_effect w e :
  hero w = Some e →
  let j := (currentLanguageIndex w + 1) mod length LANGUAGES in
  let w1 := exec (run_callback CbLanguageTick) w in
  hero w1 = Some (classList_add "fade-out" e) ∧
  currentLanguageIndex w1 = j ∧
  now w1 = now w ∧
  timers w1 = (timers w ++ [mkTimer (nextTimerId w)
                 (now w + FADE_DURATION / 2) None (CbSwapLanguage j)])%list.
Proof.
  intros Hhero. destruct w; simpl in Hhero; subst. cbn. auto.
Qed.

Lemma swap_effect w e j entry :
  hero w = Some e → LANGUAGES !! j = Some entry →
  let w1 := exec (run_callback (CbSwapLanguage j)) w in
  hero w1 = Some (classList_add "fade-in" (classList_remove "fade-out"
             (setAttribute "aria-label" (label entry +:+ ": " +:+ text entry)
                (setAttribute "lang" (lang entry)
                   (set_textContent (text entry) e))))) ∧
  now w1 = now w ∧
  timers w1 = (timers w ++ [mkTimer (nextTimerId w)
                 (now w + FADE_DURATION) None CbFadeInDone])%list.
Proof.
  intros Hhero Hentry. destruct w; simpl in Hhero; subst.
  unfold exec, run_callback, updateLanguageText, languageAt, bind.
  rewrite Hentry. cbn. auto.
Qed.

Lemma cleanup_effect w e :
  hero w = Some e →
  hero (exec (run_callback CbFadeInDone) w)
  = Some (classList_remove "fade-in" e).
Proof. intros Hhero. destruct w; simpl in Hhero; subst. reflexivity. Qed.

(** C3, as the code has it: a tick applies [fade-out] and arms the swap
    for half the fade duration later; the swap writes text, [lang] and
    label of the next entry, replaces [fade-out] by [fade-in] and arms
    the clean-up for one full fade duration later; the clean-up removes
    [fade-in].  Every state of a page life is punctual ([punctual_run]),
    so the swap runs exactly at the instant for which it was armed. *)
Theorem C3_fade_choreography (w w2 w4 : World) (e e2 e4 : Element) :
  hero w = Some e → hero w2 = Some e2 → hero w4 = Some e4 →
  let j := (currentLanguageIndex w + 1) mod length LANGUAGES in
  let swap := mkTimer (nextTimerId w) (now w + FADE_DURATION / 2) None
                (CbSwapLanguage j) in
  let done := mkTimer (nextTimerId w2)
                (Z.max (now w2) (due swap) + FADE_DURATION) None
                CbFadeInDone in
  let w1 := exec (run_callback CbLanguageTick) w in
  let w3 := fire swap w2 in
  let w5 := fire done w4 in
  (* the tick, at [now w] *)
  (∃ e1, hero w1 = Some e1 ∧ classList_contains "fade-out" e1 = true ∧
         textContent e1 = textContent e ∧ attributes e1 = attributes e) ∧
  timers w1 = (timers w ++ [swap])%list ∧
  (* the swap, whenever the timer queue runs it *)
  (∃ entry e3, LANGUAGES !! j = Some entry ∧ hero w3 = Some e3 ∧
               shows entry e3 ∧
               classList_contains "fade-out" e3 = false ∧
               classList_contains "fade-in" e3 = true) ∧
  now w3 = Z.max (now w2) (now w + FADE_DURATION / 2) ∧
  timers w3 = (filter (λ u, tid u ≠ tid swap) (timers w2) ++ [done])%list ∧
  (* the clean-up *)
  (∃ e5, hero w5 = Some e5 ∧ classList_contains "fade-in" e5 = false) ∧
  (due done - now w3 = FADE_DURATION)%Z.
Proof.
  intros Hw Hw2 Hw4 j swap done w1 w3 w5.
  destruct (tick_effect w e Hw) as (Hh1 & _ & _ & Ht1).
  destruct (languages_lookup (currentLanguageIndex w + 1)) as [entry Hentry].
  fold j in Hentry.
  assert (Hw2' : hero (set_timers (reschedule swap (timers w2))
                   (set_now (Z.max (now w2) (due swap)) w2)) = Some e2).
  { destruct w2. exact Hw2. }
  destruct (swap_effect _ e2 j entry Hw2' Hentry) as (Hh3 & Hn3 & Ht3).
  assert (Hw4' : hero (set_timers (reschedule done (timers w4))
                   (set_now (Z.max (now w4) (due done)) w4)) = Some e4).
  { destruct w4. exact Hw4. }
  pose proof (cleanup_effect _ e4 Hw4') as Hh5.
  subst w1 w3 w5. rewrite !fire_unfold. cbn [cb swap done].
  split.
  { eexists. split; [exact Hh1|]. split; [|split; reflexivity].
    apply contains_tokens_add. }
  split; [exact Ht1|]. split.
  { eexists entry, _. split; [exact Hentry|]. split; [exact Hh3|].
    split; [apply shows_classList_add, shows_classList_remove,
              shows_updateLanguageText|].
    unfold classList_contains, classList_add, classList_remove.
    cbn [classList]. split.
    - rewrite contains_tokens_add_ne by discriminate.
      apply contains_tokens_remove.
    - apply contains_tokens_add. }
  split. { rewrite Hn3. destruct w2. reflexivity. }
  split. { rewrite Ht3. destruct w2. reflexivity. }
  split.
  { eexists. split; [exact Hh5|]. apply contains_tokens_remove. }
  rewrite Hn3. destruct w2. cbn. lia.
Qed.

(** The theorem applies to the first transition after page load. *)
Lemma C3_fade_choreography_first_transition :
  let w := run [DOMContentLoaded; Elapse 3000]
             (initial_world (Some markup) false false) in
  let w2 := run [TimerFire] w in
  let w4 := run [TimerFire; TimerFire] w in
  ∃ e e2 e4,
    hero w = Some e ∧ hero w2 = Some e2 ∧ hero w4 = Some e4 ∧
    now (fire (mkTimer (nextTimerId w) (now w + FADE_DURATION / 2) None
                 (CbSwapLanguage 1)) w2) = 3400%Z.
Proof.
  intros w w2 w4.
  eexists _, _, _.
  split; [reflexivity|]. split; [reflexivity|]. split; [reflexivity|].
  pose proof (C3_fade_choreography w w2 w4 _ _ _
                eq_refl eq_refl eq_refl) as H.
  cbv zeta in H.
  destruct H as (_ & _ & _ & Hnow & _).
  exact (eq_trans Hnow eq_refl).
Defined.

(** C3 as stated fails: when the remaining half of the fade duration
    has passed after the swap, [fade-in] is still applied; its removal
    is due 400 ms later. *)
Lemma C3_fade_in_outlasts_remaining_half :
  let w := run [DOMContentLoaded; TimerFire; TimerFire;
                Elapse (FADE_DURATION - FADE_DURATION / 2)]
             (initial_world (Some markup) false false) in
  now w = (3000 + FADE_DURATION / 2 + (FADE_DURATION - FADE_DURATION / 2))%Z ∧
  classList_contains "fade-in" <$> hero w = Some true ∧
  timers w = [mkTimer 1 6000 (Some 3000%Z) CbLanguageTick;
              mkTimer 3 4200 None CbFadeInDone].
Proof. vm_compute. auto. Qed.

(** *** The leaked interval *)

(** C1 fails on the code: [startLanguageCycle] attaches an interval
    without clearing the one the handle refers to.  Two histories with
    alternating platform events: a page loaded in a background tab that
    becomes visible, and a motion preference toggled while the page is
    hidden.  In both, two intervals are live and the handle refers to the
    second; the first survives [stopMultilingualAnimation], so the banner
    keeps cycling after the preference turned to reduced motion. *)
Theorem C1_restart_leaks_interval :
  let background :=
    run [DOMContentLoaded; VisibilityChange false]
      (initial_world (Some markup) false true) in
  let toggled :=
    run [DOMContentLoaded; VisibilityChange true; MotionChange true;
         MotionChange false; VisibilityChange false]
      (initial_world (Some markup) false false) in
  let stopped := run [MotionChange true] toggled in
  let later := run [TimerFire; TimerFire] stopped in
  (tid <$> intervals background = [1; 2]
   ∧ animationInterval background = Some 2) ∧
  (tid <$> intervals toggled = [2; 3]
   ∧ animationInterval toggled = Some 3) ∧
  (tid <$> intervals stopped = [2]
   ∧ animationInterval stopped = None
   ∧ prefersReducedMotion stopped = true) ∧
  (textContent <$> hero later = text <$> LANGUAGES !! 1
   ∧ prefersReducedMotion later = true).
Proof. vm_compute. auto 10. Qed.

(** *** The index *)

(** C6, for a cycle that is left to its timers: a tick advances the
    index by one modulo the length of the list; the index is a valid
    position in every state of the page; and on a page that loads with
    motion allowed and is then left alone, the banner rests on entry
    [N mod length], index and display alike, once [N] periods have run
    their transitions (three timer tasks each). *)
Theorem C6_index_wraps_and_cycles :
  (∀ w, currentLanguageIndex (exec (run_callback CbLanguageTick) w)
        = (currentLanguageIndex w + 1) mod length LANGUAGES) ∧
  (∀ h reduce hidden evs,
      index_valid (run evs (initial_world h reduce hidden))) ∧
  (∀ e hidden N,
      displaying N
        (run (DOMContentLoaded :: replicate (3 * N) TimerFire)
           (initial_world (Some e) false hidden))).
Proof.
  split; [|split].
  - intros w. unfold exec. reflexivity.
  - intros h reduce hidden evs. apply index_run.
    unfold index_valid. simpl. lia.
  - intros e hidden N. apply displaying_periods.
Qed.

(** C6 as stated fails: after [N] full periods the banner need not show
    entry [N mod length].  When the preference turns to reduced motion
    after the first period, the listener writes the first entry and
    keeps the index at 1.  And on a page that was loaded in a background
    tab and then shown, two intervals tick: when the first period and
    its transitions are over, at 4200 ms, the index is 2 and the banner
    shows the third entry. *)
Lemma C6_entry_after_one_period :
  let reduced :=
    run [DOMContentLoaded; TimerFire; TimerFire; TimerFire; MotionChange true]
      (initial_world (Some markup) false false) in
  let leaked :=
    run [DOMContentLoaded; VisibilityChange false;
         TimerFire; TimerFire; TimerFire; TimerFire; TimerFire; TimerFire]
      (initial_world (Some markup) false true) in
  (now reduced = settled 1
   ∧ currentLanguageIndex reduced = 1
   ∧ textContent <$> hero reduced = text <$> LANGUAGES !! 0
   ∧ textContent <$> hero reduced ≠ text <$> LANGUAGES !! (1 mod 6)) ∧
  (now leaked = settled 1
   ∧ tid <$> intervals leaked = [1; 2]
   ∧ currentLanguageIndex leaked = 2
   ∧ textContent <$> hero leaked = text <$> LANGUAGES !! 2
   ∧ textContent <$> hero leaked ≠ text <$> LANGUAGES !! (1 mod 6)).
Proof. vm_compute. repeat split; discriminate. Qed.

(** *** Reduced motion at initialization *)

Lemma getAttribute_set k v e : getAttribute k (setAttribute k v e) = Some v.
Proof. unfold getAttribute, setAttribute. simpl. apply lookup_insert_eq. Qed.

Lemma getAttribute_set_ne k k' v e :
  k' ≠ k → getAttribute k (setAttribute k' v e) = getAttribute k e.
Proof.
  intros Hne. unfold getAttribute, setAttribute. simpl.
  apply lookup_insert_ne. exact Hne.
Qed.

Lemma getAttribute_classList_remove k c e :
  getAttribute k (classList_remove c e) = getAttribute k e.
Proof. reflexivity. Qed.

Lemma getAttribute_set_textContent k t e :
  getAttribute k (set_textContent t e) = getAttribute k e.
Proof. reflexivity. Qed.

Lemma classList_contains_remove c e :
  classList_contains c (classList_remove c e) = false.
Proof. apply contains_tokens_remove. Qed.

Lemma classList_contains_remove_ne c d e :
  c ≠ d →
  classList_contains c (classList_remove d e) = classList_contains c e.
Proof. apply contains_tokens_remove_ne. Qed.

Lemma init_reduced w e :
  hero w = Some e → mediaReduce w = true →
  let w' := exec initMultilingualAnimation w in
  static_first w' ∧ animationInterval w' = animationInterval w ∧
  timers w' = timers w ∧ mediaReduce w' = true ∧
  motionListeners w' = motionListeners w.
Proof.
  intros Hhero Hmedia. destruct w; simpl in Hhero, Hmedia; subst. cbn.
  split; [|auto].
  eexists _, _. split; [reflexivity|]. split; [reflexivity|].
  split; [reflexivity|]. apply getAttribute_set.
Qed.

Lemma static_first_hero w : static_first w → ∃ e, hero w = Some e.
Proof. intros (e & _ & He & _). exists e. exact He. Qed.

Lemma quiet_step w ev :
  quiet w → static_first w → ev ≠ MotionChange false →
  quiet (step w ev) ∧ static_first (step w ev).
Proof.
  intros (Hm & Ht & Hh) Hs Hev.
  destruct (static_first_hero w Hs) as [e He].
  destruct ev as [|hidden|matches| | |ms]; simpl.
  - unfold init, handleMotionPreferenceChange, exec, bind.
    destruct (init_reduced w e He Hm) as (Hs' & Hh' & Ht' & Hm' & _).
    unfold exec in Hs', Hh', Ht', Hm'.
    destruct (initMultilingualAnimation w) as [w' [[]|error]];
      simpl in *; unfold quiet; destruct w'; simpl in *;
      rewrite ?Hh', ?Ht'; auto.
  - destruct (Bool.eqb hidden (docHidden w)); [unfold quiet; auto|].
    destruct w; simpl in Hm, Ht, Hh, He; subst.
    destruct hidden; cbn.
    + unfold quiet. auto.
    + destruct prefersReducedMotion0; cbn; [unfold quiet; auto|].
      split; [unfold quiet; auto|].
      eexists _, _. split; [reflexivity|]. split; [reflexivity|].
      split; [reflexivity|]. apply getAttribute_set.
  - destruct matches; [|congruence].
    rewrite Hm. simpl. unfold quiet. auto.
  - destruct w; simpl in Hm, Ht, Hh, He; subst. cbn. unfold quiet. auto.
  - unfold fire_next. rewrite Ht. simpl. unfold quiet. auto.
  - unfold elapse. rewrite Ht. simpl.
    destruct w; simpl in *. unfold quiet. auto.
Qed.

Lemma quiet_run evs :
  ∀ w, quiet w → static_first w → Forall (λ ev, ev ≠ MotionChange false) evs →
       quiet (run evs w) ∧ static_first (run evs w).
Proof.
  induction evs as [|ev evs IH]; intros w Hq Hs Hevs; simpl.
  - auto.
  - inversion Hevs as [|? ? Hev Hevs']; subst.
    destruct (quiet_step w ev Hq Hs Hev) as [Hq' Hs'].
    apply IH; assumption.
Qed.

Lemma quiet_loaded w e :
  hero w = Some e → quiet w →
  quiet (step w DOMContentLoaded) ∧ static_first (step w DOMContentLoaded).
Proof.
  intros He (Hm & Ht & Hh). simpl.
  unfold init, handleMotionPreferenceChange, exec, bind.
  destruct (init_reduced w e He Hm) as (Hs' & Hh' & Ht' & Hm' & _).
  unfold exec in Hs', Hh', Ht', Hm'.
  destruct (initMultilingualAnimation w) as [w' [[]|error]];
    simpl in *; unfold quiet; destruct w'; simpl in *;
    rewrite ?Hh', ?Ht'; auto.
Qed.




(** Runs a script function on an explicit page state: unfolds the script
    and the monad, nothing else. *)
Ltac js_eval :=
  cbv [step run elapse fire_next fire repeat_listener
       exec bind ret throw read modify onElement
       addTimer setInterval setTimeout clearInterval
       updateLanguageText animateLanguageChange startLanguageCycle
       initMultilingualAnimation truthy stopMultilingualAnimation
       motionListener handleMotionPreferenceChange init visibilityListener
       run_callback
       set_now set_nextTimerId set_timers set_hero set_mediaReduce
       set_docHidden set_motionListeners set_currentLanguageIndex
       set_animationInterval set_prefersReducedMotion
       now nextTimerId timers hero mediaReduce docHidden motionListeners
       currentLanguageIndex animationInterval prefersReducedMotion
       languageAt
       fst snd fmap option_fmap option_map Bool.eqb negb Nat.eqb foldl].

Lemma languages_first :
  LANGUAGES !! 0 = Some (mkLanguage "ENIGMA" "en" "English").
Proof. reflexivity. Qed.

(** *** The preference changes while the cycle runs *)

(** C10: the preference turns to reduced motion while the handle refers
    to an interval.  The listener clears that interval and the handle,
    writes text and [lang] of the first entry, removes both fade classes
    and leaves the index and the label alone.  When the preference turns
    back, the cycle is attached again at the kept index: the element shows
    that entry, and the next tick moves on from it. *)
Theorem C10_reduced_motion_keeps_index (w : World) (e : Element) (id : nat) :
  hero w = Some e → animationInterval w = Some id → id ≠ 0 →
  mediaReduce w = false → motionListeners w = 1 → index_valid w →
  let stopped := step w (MotionChange true) in
  let resumed := step stopped (MotionChange false) in
  (animationInterval stopped = None ∧
   timers stopped = filter (λ t, tid t ≠ id) (timers w) ∧
   currentLanguageIndex stopped = currentLanguageIndex w ∧
   ∃ e' first,
     hero stopped = Some e' ∧ LANGUAGES !! 0 = Some first ∧
     textContent e' = text first ∧
     getAttribute "lang" e' = Some (lang first) ∧
     classList_contains "fade-out" e' = false ∧
     classList_contains "fade-in" e' = false ∧
     getAttribute "aria-label" e' = getAttribute "aria-label" e) ∧
  (currentLanguageIndex resumed = currentLanguageIndex w ∧
   animationInterval resumed = Some (nextTimerId w) ∧
   timers resumed
   = (timers stopped ++ [mkTimer (nextTimerId w) (now w + ANIMATION_INTERVAL)
                           (Some ANIMATION_INTERVAL) CbLanguageTick])%list ∧
   (∃ entry e'',
      LANGUAGES !! currentLanguageIndex w = Some entry ∧
      hero resumed = Some e'' ∧ shows entry e'') ∧
   currentLanguageIndex (exec (run_callback CbLanguageTick) resumed)
   = (currentLanguageIndex w + 1) mod length LANGUAGES).
Proof.
  intros Hhero Hhandle Hid Hmedia Hlisteners Hindex stopped resumed.
  destruct (lookup_lt_is_Some_2 LANGUAGES (currentLanguageIndex w) Hindex)
    as [entry Hentry].
  destruct w as [now0 next ts h mr dh ml idx handle prm].
  simpl in Hhero, Hhandle, Hmedia, Hlisteners, Hentry. subst.
  destruct id as [|id]; [congruence|].
  subst stopped resumed.
  repeat (js_eval; rewrite ?languages_first, ?Hentry).
  split.
  - split; [reflexivity|]. split; [reflexivity|]. split; [reflexivity|].
    eexists _, _. split; [reflexivity|]. split; [reflexivity|].
    split; [reflexivity|].
    split; [|split; [|split]].
    + rewrite !getAttribute_classList_remove. apply getAttribute_set.
    + rewrite classList_contains_remove_ne by discriminate.
      apply classList_contains_remove.
    + apply classList_contains_remove.
    + rewrite !getAttribute_classList_remove.
      rewrite getAttribute_set_ne by discriminate. reflexivity.
  - split; [reflexivity|]. split; [reflexivity|]. split; [reflexivity|].
    split; [|reflexivity].
    eexists entry, _. split; [reflexivity|]. split; [reflexivity|].
    apply shows_updateLanguageText.
Qed.

(** The preference turns after the banner reached the third entry: the
    text goes back to the first entry, the index stays at 2, and the
    resumed cycle moves on to 3. *)
Lemma C10_reduced_motion_keeps_index_mid_cycle :
  let w := run [DOMContentLoaded; TimerFire; TimerFire; TimerFire; TimerFire]
             (initial_world (Some markup) false false) in
  let resumed := step (step w (MotionChange true)) (MotionChange false) in
  currentLanguageIndex w = 2 ∧
  textContent <$> hero (step w (MotionChange true)) = Some "ENIGMA" ∧
  currentLanguageIndex resumed = 2 ∧
  currentLanguageIndex (exec (run_callback CbLanguageTick) resumed) = 3.
Proof.
  intros w resumed.
  assert (Hindex : index_valid w) by (vm_compute; lia).
  assert (Hid : 1 ≠ 0) by discriminate.
  pose proof (C10_reduced_motion_keeps_index w _ 1
                eq_refl eq_refl Hid eq_refl eq_refl Hindex) as H.
  cbv zeta in H. destruct H as [_ (Hi & _ & _ & _ & Hnext)].
  split; [reflexivity|]. split; [reflexivity|].
  split; [exact Hi|exact Hnext].
Defined.

End LangFacts.

(** ** Facts about tasks *)

Module TasksFacts.
Import Tasks.

Lemma all_calls_cons {Args : Type} (ta : Z * list Args)
    (l : list (Z * list Args)) :
  all_calls (ta :: l) = (stamped ta ++ all_calls l)%list.
Proof. reflexivity. Qed.

Lemma ascending_from {A : Type} from from' (l : list (Z * A)) :
  (from' ≤ from)%Z → ascending from l → ascending from' l.
Proof.
  intros Hle. destruct l as [|[t a] l]; [auto|].
  simpl. intros [Hfrom Hasc]. split; [lia|exact Hasc].
Qed.

End TasksFacts.

(** ** Facts about [throttle] *)

Module ThrottleFacts.
Import Tasks TasksFacts Throttle.

Section Wrapper.
Context {Args Page : Type}.
Variable func : Args → Page → Page * Lang.outcome unit.
Variable limit : Z.

Lemma run_due_idle t (c : Closure (Page:=Page)) :
  releases c = [] → run_due t c = c.
Proof. intros H. unfold run_due. rewrite H. reflexivity. Qed.

Lemma run_due_pending t d (c : Closure (Page:=Page)) :
  releases c = [d] → (t < d)%Z → run_due t c = c.
Proof.
  intros H Hlt. unfold run_due. rewrite H.
  rewrite filter_cons_False by lia. reflexivity.
Qed.

Lemma run_due_released t d (c : Closure (Page:=Page)) :
  releases c = [d] → (d ≤ t)%Z → run_due t c = mkClosure false [] (page c).
Proof.
  intros H Hle. unfold run_due. rewrite H.
  rewrite filter_cons_True by lia.
  rewrite filter_cons_False by lia. reflexivity.
Qed.

(** While the flag is up, a call does nothing. *)
Lemma wrapper_blocked t a (c : Closure) :
  inThrottle c = true → wrapper func limit t a c = (c, Lang.Returns tt).
Proof. intros H. unfold wrapper. rewrite H. reflexivity. Qed.

Lemma rest_blocked t (argss : list Args) (c : Closure) :
  inThrottle c = true →
  foldl (λ c a, (wrapper func limit t a c).1) c argss = c.
Proof.
  intros H. induction argss as [|a argss IH]; simpl; [reflexivity|].
  rewrite (wrapper_blocked t a c H). exact IH.
Qed.

(** The timeouts due before a task leave the closure on track. *)
Lemma run_due_tracks last from t (c : Closure (Page:=Page)) :
  tracks limit last from c → (from ≤ t)%Z →
  tracks limit last t (run_due t c) ∧ page (run_due t c) = page c.
Proof.
  intros Htracks Hfrom.
  destruct last as [t0|]; simpl in Htracks |- *.
  - destruct Htracks as [Ht0 [[Hin Hrel]|(Hin & Hrel & Hdone)]].
    + destruct (Z_le_gt_dec (t0 + Z.max 0 limit) t) as [Hdue|Hdue].
      * rewrite (run_due_released _ _ _ Hrel Hdue). simpl.
        split; [|reflexivity]. split; [lia|]. right. repeat split; lia.
      * rewrite (run_due_pending _ _ _ Hrel) by lia.
        split; [|reflexivity]. split; [lia|]. left. auto.
    + rewrite (run_due_idle _ _ Hrel).
      split; [|reflexivity]. split; [lia|]. right. repeat split; auto; lia.
  - destruct Htracks as [Hin Hrel]. rewrite (run_due_idle _ _ Hrel). auto.
Qed.

Section Returning.
Hypothesis Hreturns : returns_normally func.

Lemma wrapper_open t a (c : Closure) :
  inThrottle c = false →
  wrapper func limit t a c
  = (mkClosure true (releases c ++ [(t + Z.max 0 limit)%Z])
       (func a (page c)).1, Lang.Returns tt).
Proof.
  intros H. unfold wrapper. rewrite H.
  pose proof (Hreturns a (page c)) as Hr.
  destruct (func a (page c)) as [p o]. simpl in Hr. subst o. reflexivity.
Qed.

(** After its first call a task finds the flag up: its other calls are
    dropped. *)
Lemma task_first t a (argss : list Args) (c : Closure) :
  task func limit c (t, a :: argss) = call func limit c (t, a).
Proof.
  unfold call, task. simpl.
  destruct (inThrottle (run_due t c)) eqn:Hin.
  - rewrite (wrapper_blocked t a _ Hin). simpl.
    apply rest_blocked, Hin.
  - rewrite (wrapper_open t a _ Hin). simpl.
    apply rest_blocked. reflexivity.
Qed.

(** One call in a task of its own: the closure keeps track of the last
    call let through, and the page changes exactly when the
    specification lets the call through. *)
Lemma call_tracks last from t a (c : Closure) :
  tracks limit last from c → (from ≤ t)%Z →
  let c' := call func limit c (t, a) in
  match last with
  | Some t0 =>
      if (t <? t0 + limit)%Z
      then page c' = page c ∧ tracks limit last t c'
      else page c' = (func a (page c)).1 ∧ tracks limit (Some t) t c'
  | None => page c' = (func a (page c)).1 ∧ tracks limit (Some t) t c'
  end.
Proof.
  intros Htracks Hfrom. unfold call, task. simpl.
  destruct last as [t0|]; simpl in Htracks.
  - destruct Htracks as [Ht0 [[Hin Hrel]|(Hin & Hrel & Hdone)]].
    + destruct (Z_le_gt_dec (t0 + Z.max 0 limit) t) as [Hdue|Hdue].
      * rewrite (run_due_released _ _ _ Hrel Hdue).
        destruct (Z.ltb_spec t (t0 + limit)); [lia|].
        rewrite wrapper_open by reflexivity. simpl.
        split; [reflexivity|]. split; [lia|]. left. auto.
      * rewrite (run_due_pending _ _ _ Hrel) by lia.
        destruct (Z.ltb_spec t (t0 + limit)); [|lia].
        rewrite (wrapper_blocked t a c Hin). simpl.
        split; [reflexivity|]. split; [lia|]. left. auto.
    + rewrite (run_due_idle _ _ Hrel).
      destruct (Z.ltb_spec t (t0 + limit)); [lia|].
      rewrite (wrapper_open t a c Hin). simpl. rewrite Hrel.
      split; [reflexivity|]. split; [lia|]. left. auto.
  - destruct Htracks as [Hin Hrel].
    rewrite (run_due_idle _ _ Hrel).
    rewrite (wrapper_open t a c Hin). simpl. rewrite Hrel.
    split; [reflexivity|]. split; [lia|]. left. auto.
Qed.

(** Calls that come before [limit] has passed are dropped by the
    specification too. *)
Lemma leading_edge_dropped t0 t (argss : list Args) (m : list (Z * Args)) :
  (t < t0 + limit)%Z →
  leading_edge limit (Some t0) (stamped (t, argss) ++ m)
  = leading_edge limit (Some t0) m.
Proof.
  intros Hlt. unfold stamped. simpl.
  induction argss as [|a argss IH]; simpl; [reflexivity|].
  destruct (Z.ltb_spec t (t0 + limit)); [exact IH|lia].
Qed.

Lemma leading_edge_rest t (argss : list Args) (m : list (Z * Args)) :
  (0 < limit)%Z ∨ argss = [] →
  leading_edge limit (Some t) (stamped (t, argss) ++ m)
  = leading_edge limit (Some t) m.
Proof.
  intros [Hpos| ->]; [|reflexivity].
  apply leading_edge_dropped. lia.
Qed.

(** Tasks: with a positive limit, or with at most one call in each
    task, the page is as the specification has it. *)
Lemma tasks_leading_edge (l : list (Z * list Args)) :
  ∀ last from (c : Closure),
    (0 < limit)%Z ∨ Forall (λ ta, (length ta.2 ≤ 1)%nat) l →
    tracks limit last from c → ascending from l →
    page (tasks func limit l c)
    = apply_all func (leading_edge limit last (all_calls l)) (page c).
Proof.
  induction l as [|[t argss] l IH]; intros last from c Hcond Htracks Hasc.
  - reflexivity.
  - destruct Hasc as [Hfrom Hasc].
    assert (Hcond' : (0 < limit)%Z ∨ Forall (λ ta, (length ta.2 ≤ 1)%nat) l).
    { destruct Hcond as [Hpos|Hone]; [left; exact Hpos|right].
      inversion Hone; assumption. }
    change (tasks func limit ((t, argss) :: l) c)
      with (tasks func limit l (task func limit c (t, argss))).
    rewrite all_calls_cons.
    destruct argss as [|a argss].
    + destruct (run_due_tracks last from t c Htracks Hfrom) as [Htracks' Hpage].
      change (task func limit c (t, [])) with (run_due t c).
      rewrite (IH last t _ Hcond' Htracks' Hasc), Hpage. reflexivity.
    + rewrite task_first.
      assert (Hrest : (0 < limit)%Z ∨ argss = []).
      { destruct Hcond as [Hpos|Hone]; [left; exact Hpos|right].
        inversion Hone as [|? ? Hlen _]; subst. simpl in Hlen.
        destruct argss; [reflexivity|simpl in Hlen; lia]. }
      pose proof (call_tracks last from t a c Htracks Hfrom) as Hcall.
      cbv zeta in Hcall.
      change (stamped (t, a :: argss) ++ all_calls l)%list
        with ((t, a) :: (stamped (t, argss) ++ all_calls l))%list.
      destruct last as [t0|]; simpl leading_edge.
      * destruct (Z.ltb_spec t (t0 + limit)) as [Hlt|Hge];
          destruct Hcall as [Hpage Htracks'].
        -- rewrite (leading_edge_dropped t0 t argss _ Hlt).
           rewrite (IH (Some t0) t _ Hcond' Htracks' Hasc), Hpage.
           reflexivity.
        -- rewrite (leading_edge_rest t argss _ Hrest).
           rewrite (IH (Some t) t _ Hcond' Htracks' Hasc), Hpage.
           reflexivity.
      * destruct Hcall as [Hpage Htracks'].
        rewrite (leading_edge_rest t argss _ Hrest).
        rewrite (IH (Some t) t _ Hcond' Htracks' Hasc), Hpage.
        reflexivity.
Qed.

(** Calls, each in a task of its own. *)
Lemma calls_tasks (l : list (Z * Args)) (c : Closure) :
  calls func limit l c
  = tasks func limit ((λ ta, (ta.1, [ta.2])) <$> l) c.
Proof.
  revert c. induction l as [|ta l IH]; intros c; [reflexivity|].
  simpl. apply IH.
Qed.

Lemma all_calls_single (l : list (Z * Args)) :
  all_calls ((λ ta, (ta.1, [ta.2])) <$> l) = l.
Proof.
  induction l as [|[t a] l IH]; [reflexivity|].
  rewrite fmap_cons, all_calls_cons, IH. reflexivity.
Qed.

Lemma ascending_single from (l : list (Z * Args)) :
  ascending from l → ascending from ((λ ta, (ta.1, [ta.2])) <$> l).
Proof.
  revert from. induction l as [|[t a] l IH]; intros from; [auto|].
  simpl. intros [Hfrom Hasc]. split; [exact Hfrom|apply IH, Hasc].
Qed.

Lemma calls_leading_edge (l : list (Z * Args)) :
  ∀ last from (c : Closure),
    tracks limit last from c → ascending from l →
    page (calls func limit l c)
    = apply_all func (leading_edge limit last l) (page c).
Proof.
  intros last from c Htracks Hasc.
  rewrite calls_tasks.
  rewrite (tasks_leading_edge _ last from c); [|right|exact Htracks|].
  - rewrite all_calls_single. reflexivity.
  - apply Forall_fmap, Forall_true. intros ta. simpl. lia.
  - apply ascending_single, Hasc.
Qed.
End Returning.

End Wrapper.

Lemma plain_returns {Args Page : Type} (f : Args → Page → Page) :
  returns_normally (plain f).
Proof. intros args p. reflexivity. Qed.




End ThrottleFacts.

(** ** Facts about the statistics counter *)

Module StatsFacts.
Import Stats.

Local Open Scope Q_scope.

Lemma cube_mono x y : 0 <= x → x <= y → x ^ 3 <= y ^ 3.
Proof.
  intros Hx Hxy. simpl.
  assert (Hsq : x * x <= y * y).
  { apply Qmult_le_compat_nonneg; split; lra. }
  apply Qmult_le_compat_nonneg; split; try lra; try nra.
Qed.

(** Arithmetic without rounding error has what the proofs use. *)
Lemma exact_faithful : Faithful exact.
Proof.
  split; simpl.
  - intros x y H. exact H.
  - intros x y H. exact H.
  - reflexivity.
  - reflexivity.
  - apply cube_mono.
  - reflexivity.
Qed.

Section Counter.
Context {ar : Arithmetic}.

Lemma progressAt_le_1 startTime t : progressAt startTime t <= 1.
Proof. unfold progressAt. apply Q.le_min_r. Qed.

Lemma updateCount_shown target startTime t textContent :
  updateCount target startTime t textContent
  = (toString (shown target startTime t) +:+ suffix target,
     if Qlt_le_dec (progressAt startTime t) 1 then true else false).
Proof.
  unfold updateCount, shown, suffix.
  destruct (Qlt_le_dec (progressAt startTime t) 1); reflexivity.
Qed.

(** The text one frame writes, in both scripts; the operators are those
    of JavaScript numbers. *)
Lemma counter_frame_text (target : Z) (startTime currentTime : Q)
    (textContent : string) :
  let elapsed := sub currentTime startTime in
  let progress := Qmin (div elapsed statsCountDuration) 1 in
  let eased := sub 1 (pow3 (sub 1 progress)) in
  let again := if Qlt_le_dec progress 1 then true else false in
  updateCount target startTime currentTime textContent
  = (toString (if Qlt_le_dec progress 1
               then Qfloor (mul eased (inject_Z target)) else target)
     +:+ (if (100 <=? target)%Z then "+" else ""), again) ∧
  updateNumber target startTime currentTime textContent
  = (toString (if Qlt_le_dec progress 1
               then Qfloor (mul (inject_Z target) eased) else target),
     again).
Proof.
  unfold updateCount, updateNumber, progressAt, easeOutCubic.
  cbv zeta.
  destruct (Qlt_le_dec _ 1); split; reflexivity.
Qed.

Context {faithful : Faithful ar}.

Lemma progressAt_mono startTime t1 t2 :
  t1 <= t2 → progressAt startTime t1 <= progressAt startTime t2.
Proof.
  intros H. unfold progressAt, div, sub. apply Q.min_le_compat_r.
  apply round_mono.
  unfold statsCountDuration, Qdiv. apply Qmult_le_compat_r; [|discriminate].
  apply round_mono. lra.
Qed.

Lemma remainder_nonneg p : p <= 1 → 0 <= sub 1 p.
Proof.
  intros H. unfold sub. pose proof round_0 as H0.
  apply Qle_trans with (round 0); [lra|]. apply round_mono. lra.
Qed.

Lemma pow3_nonneg x : 0 <= x → 0 <= pow3 x.
Proof.
  intros H. pose proof pow3_0 as H0.
  apply Qle_trans with (pow3 0); [lra|].
  apply pow3_mono; [apply Qle_refl|exact H].
Qed.

Lemma easeOutCubic_mono p1 p2 :
  p1 <= p2 → p2 <= 1 → easeOutCubic p1 <= easeOutCubic p2.
Proof.
  intros H12 H2. unfold easeOutCubic.
  assert (H : pow3 (sub 1 p2) <= pow3 (sub 1 p1)).
  { apply pow3_mono; [apply remainder_nonneg, H2|].
    unfold sub. apply round_mono. lra. }
  unfold sub at 1 3. apply round_mono. lra.
Qed.

Lemma easeOutCubic_le_1 p : p <= 1 → easeOutCubic p <= 1.
Proof.
  intros H. unfold easeOutCubic.
  pose proof (pow3_nonneg _ (remainder_nonneg p H)) as H0.
  pose proof round_1 as H1.
  unfold sub at 1. apply Qle_trans with (round 1); [|lra].
  apply round_mono. lra.
Qed.

Lemma inject_Z_nonneg target : (0 ≤ target)%Z → 0 <= inject_Z target.
Proof.
  intros H. change 0 with (inject_Z 0). rewrite <- Zle_Qle. exact H.
Qed.

Lemma shown_le_target target startTime t :
  (0 ≤ target)%Z → representable target →
  (shown target startTime t ≤ target)%Z.
Proof.
  intros Htarget Hrep. unfold shown.
  destruct (Qlt_le_dec (progressAt startTime t) 1) as [Hlt|Hge]; [|lia].
  rewrite <- (Qfloor_Z target) at 2. apply Qfloor_resp_le.
  unfold representable in Hrep.
  apply Qle_trans with (round (inject_Z target)); [|lra].
  unfold mul. apply round_mono.
  pose proof (easeOutCubic_le_1 (progressAt startTime t)
                (progressAt_le_1 startTime t)) as He.
  pose proof (inject_Z_nonneg target Htarget) as Ht.
  nra.
Qed.

Lemma shown_mono target startTime t1 t2 :
  (0 ≤ target)%Z → representable target → t1 <= t2 →
  (shown target startTime t1 ≤ shown target startTime t2)%Z.
Proof.
  intros Htarget Hrep H12.
  pose proof (progressAt_mono startTime t1 t2 H12) as Hp.
  pose proof (shown_le_target target startTime t1 Htarget Hrep) as Hle.
  unfold shown in *.
  destruct (Qlt_le_dec (progressAt startTime t1) 1) as [H1|H1];
    destruct (Qlt_le_dec (progressAt startTime t2) 1) as [H2|H2].
  - apply Qfloor_resp_le. unfold mul. apply round_mono.
    pose proof (easeOutCubic_mono _ _ Hp (Qlt_le_weak _ _ H2)) as He.
    pose proof (inject_Z_nonneg target Htarget) as Ht.
    nra.
  - exact Hle.
  - lra.
  - lia.
Qed.

Lemma updateNumber_shown target startTime t textContent :
  updateNumber target startTime t textContent
  = (toString (shown target startTime t),
     if Qlt_le_dec (progressAt startTime t) 1 then true else false).
Proof.
  unfold updateNumber, shown.
  destruct (Qlt_le_dec (progressAt startTime t) 1); [|reflexivity].
  do 2 f_equal. apply Qfloor_comp. unfold mul. apply round_proper.
  apply Qmult_comm.
Qed.

Lemma animation_shown target startTime instants :
  ∀ text0,
    animation (updateCount target startTime) instants text0
    = (λ v, toString v +:+ suffix target)
        <$> shown_values target startTime instants ∧
    animation (updateNumber target startTime) instants text0
    = toString <$> shown_values target startTime instants.
Proof.
  induction instants as [|t instants IH]; intros text0; [split; reflexivity|].
  simpl. rewrite updateCount_shown, updateNumber_shown.
  destruct (Qlt_le_dec (progressAt startTime t) 1); simpl.
  - destruct (IH (toString (shown target startTime t) +:+ suffix target))
      as [IH1 _].
    destruct (IH (toString (shown target startTime t))) as [_ IH2].
    rewrite IH1, IH2. split; reflexivity.
  - split; reflexivity.
Qed.

Lemma shown_values_head target startTime t instants :
  (0 ≤ target)%Z → representable target → chronological (t :: instants) →
  match shown_values target startTime instants with
  | [] => True
  | v :: _ => (shown target startTime t ≤ v)%Z
  end.
Proof.
  intros Htarget Hrep Hchron.
  destruct instants as [|t' instants]; [exact I|].
  simpl. apply shown_mono; [exact Htarget|exact Hrep|]. apply Hchron.
Qed.

Lemma shown_values_nondecreasing target startTime instants :
  (0 ≤ target)%Z → representable target → chronological instants →
  nondecreasing (shown_values target startTime instants).
Proof.
  intros Htarget Hrep. induction instants as [|t instants IH]; intros Hchron.
  - exact I.
  - simpl.
    destruct (Qlt_le_dec (progressAt startTime t) 1); [|simpl; auto].
    split.
    + apply (shown_values_head target startTime t instants
               Htarget Hrep Hchron).
    + apply IH. apply Hchron.
Qed.

Lemma shown_values_bounded target startTime instants :
  (0 ≤ target)%Z → representable target →
  Forall (λ v, (v ≤ target)%Z) (shown_values target startTime instants).
Proof.
  intros Htarget Hrep. induction instants as [|t instants IH]; simpl.
  - constructor.
  - constructor; [apply shown_le_target; assumption|].
    destruct (Qlt_le_dec (progressAt startTime t) 1); [exact IH|constructor].
Qed.

Lemma shown_values_end target startTime instants :
  Exists (λ t, 1 <= progressAt startTime t) instants →
  last (shown_values target startTime instants) = Some target.
Proof.
  induction instants as [|t instants IH]; intros Hex.
  - inversion Hex.
  - simpl. destruct (Qlt_le_dec (progressAt startTime t) 1) as [Hlt|Hge].
    + inversion Hex as [? ? Hnow|? ? Hlater]; subst; [lra|].
      specialize (IH Hlater).
      destruct (shown_values target startTime instants) as [|v vs];
        [discriminate|].
      rewrite last_cons, IH. reflexivity.
    + unfold shown.
      destruct (Qlt_le_dec (progressAt startTime t) 1); [lra|reflexivity].
Qed.

End Counter.

(** C8: for a target that is not negative and frames in chronological
    order, the texts of both scripts spell a sequence of numbers that
    never decreases and never exceeds the target, and that ends with the
    target itself when some frame comes with progress 1.  This holds for
    every arithmetic whose rounding and cube are monotone. *)
Theorem C8_displayed_values_nondecreasing {ar : Arithmetic}
    (target : Z) (startTime : Q) (instants : list Q) (text0 : string) :
  Faithful ar → representable target →
  (0 ≤ target)%Z → chronological instants →
  let values := shown_values target startTime instants in
  animation (updateCount target startTime) instants text0
  = (λ v, toString v +:+ suffix target) <$> values ∧
  animation (updateNumber target startTime) instants text0
  = toString <$> values ∧
  nondecreasing values ∧
  Forall (λ v, (v ≤ target)%Z) values ∧
  (Exists (λ t, 1 <= progressAt startTime t) instants →
   last values = Some target).
Proof.
  intros faithful Hrep Htarget Hchron values.
  destruct (animation_shown target startTime instants text0) as [H1 H2].
  split; [exact H1|]. split; [exact H2|].
  split; [apply shown_values_nondecreasing; assumption|].
  split; [apply shown_values_bounded; assumption|].
  apply shown_values_end.
Qed.

(** Five frames of a counter with target 150, in exact arithmetic. *)
Lemma C8_displayed_values_run :
  let instants := [16; 500; 1999; 2001; 2020] in
  representable 150 ∧ (0 ≤ 150)%Z ∧ chronological instants ∧
  animation (updateCount 150 0) instants "0" = ["3+"; "86+"; "149+"; "150+"] ∧
  nondecreasing (shown_values 150 0 instants).
Proof.
  intros instants.
  assert (Hrep : representable 150) by reflexivity.
  assert (Htarget : (0 ≤ 150)%Z) by lia.
  assert (Hchron : chronological instants).
  { simpl. repeat split; discriminate. }
  split; [exact Hrep|]. split; [exact Htarget|]. split; [exact Hchron|].
  pose proof (C8_displayed_values_nondecreasing 150 0 instants "0"
                exact_faithful Hrep Htarget Hchron) as H.
  cbv zeta in H. destruct H as (_ & _ & Hmono & _).
  split; [reflexivity|exact Hmono].
Defined.

End StatsFacts.

(** ** Facts about the observers *)

Module ObserversFacts.
Import Dom DomFacts Observers.

Section Facts.
Context {ar : Stats.Arithmetic}.

(** *** What a step keeps *)

Lemma grows_refl c : grows c c.
Proof. intros element l H. exists l. auto. Qed.

Lemma grows_trans c1 c2 c3 : grows c1 c2 → grows c2 c3 → grows c1 c3.
Proof.
  intros H12 H23 element l H.
  destruct (H12 element l H) as (l2 & H2 & Hsub2).
  destruct (H23 element l2 H2) as (l3 & H3 & Hsub3).
  exists l3. auto.
Qed.

Lemma grows_alter className element (c : gmap nat (list string)) :
  grows c (alter (tokens_add className) element c).
Proof.
  intros element' l H. destruct (decide (element = element')) as [->|Hne].
  - exists (tokens_add className l). rewrite lookup_alter_eq, H.
    split; [reflexivity|]. intros x Hx _. apply tokens_add_keeps, Hx.
  - exists l. rewrite lookup_alter_ne by exact Hne. auto.
Qed.

Lemma grows_alter_remove element (c : gmap nat (list string)) :
  grows c (alter (tokens_remove "active") element c).
Proof.
  intros element' l H. destruct (decide (element = element')) as [->|Hne].
  - exists (tokens_remove "active" l). rewrite lookup_alter_eq, H.
    split; [reflexivity|]. intros x Hx Hactive.
    unfold tokens_remove. apply list_elem_of_filter. auto.
  - exists l. rewrite lookup_alter_ne by exact Hne. auto.
Qed.

Lemma at_most_started_refl p : at_most_started p p.
Proof. left. auto. Qed.

Lemma at_most_started_trans p1 p2 p3 :
  at_most_started p1 p2 → at_most_started p2 p3 → at_most_started p1 p3.
Proof.
  unfold at_most_started.
  intros [[Ha Hc]|(Ha & Ha' & Hc)] [[Hb Hd]|(Hb & Hb' & Hd)].
  - left. split; congruence.
  - right. split; [congruence|]. split; [exact Hb'|congruence].
  - right. split; [exact Ha|]. split; congruence.
  - congruence.
Qed.

Lemma extends_refl p : extends p p.
Proof.
  split; [reflexivity|]. split; [apply grows_refl|apply at_most_started_refl].
Qed.

Lemma extends_trans p1 p2 p3 : extends p1 p2 → extends p2 p3 → extends p1 p3.
Proof.
  intros (Ho & Hg & Hs) (Ho' & Hg' & Hs').
  split; [congruence|].
  split; [eapply grows_trans; eassumption|].
  eapply at_most_started_trans; eassumption.
Qed.

(** A change of fields other than classes, flag and counter. *)
Lemma extends_same p p' :
  observers p' = observers p → classes p' = classes p →
  statsAnimated p' = statsAnimated p → counterRuns p' = counterRuns p →
  extends p p'.
Proof.
  intros Ho Hc Hs Hr. split; [exact Ho|]. split.
  - rewrite Hc. apply grows_refl.
  - left. auto.
Qed.

Lemma extends_addClass element className p :
  extends p (addClass element className p).
Proof.
  destruct p. split; [reflexivity|]. split.
  - apply grows_alter.
  - left. auto.
Qed.

Lemma extends_removeClass element p :
  extends p (removeClass element "active" p).
Proof.
  destruct p. split; [reflexivity|]. split.
  - apply grows_alter_remove.
  - left. auto.
Qed.

Lemma extends_requestAnimationFrame cb p :
  extends p (requestAnimationFrame cb p).
Proof. destruct p. apply extends_same; reflexivity. Qed.

Lemma extends_foldl {A} (f : Page → A → Page) (l : list A) :
  (∀ p x, extends p (f p x)) → ∀ p, extends p (foldl f p l).
Proof.
  intros Hf. induction l as [|x l IH]; intros p; simpl.
  - apply extends_refl.
  - eapply extends_trans; [apply Hf|apply IH].
Qed.

Lemma class_requests_cons cb fs :
  class_requests (cb :: fs) = (class_requests [cb] ++ class_requests fs)%list.
Proof. destruct cb; reflexivity. Qed.

Lemma class_requests_app fs1 fs2 :
  class_requests (fs1 ++ fs2)
  = (class_requests fs1 ++ class_requests fs2)%list.
Proof. apply omap_app. Qed.

(** The frames requested by a counter run. *)
Lemma requests_effect (mk : Page → nat * Z → frameCallback)
    (l : list (nat * Z)) :
  (∀ p stat, class_requests [mk p stat] = []) →
  ∀ p, ∃ fs,
    foldl (λ p stat, requestAnimationFrame (mk p stat) p) p l
    = set_frames (frames p ++ fs) p ∧ length fs = length l ∧
    class_requests fs = [].
Proof.
  intros Hmk. induction l as [|stat l IH]; intros p; simpl.
  - exists []. rewrite app_nil_r. destruct p. auto.
  - destruct (IH (requestAnimationFrame (mk p stat) p))
      as (fs & Hfs & Hlen & Hreq).
    exists (mk p stat :: fs). split; [|split].
    + rewrite Hfs. destruct p. simpl. rewrite <- app_assoc. reflexivity.
    + simpl. rewrite Hlen. reflexivity.
    + rewrite class_requests_cons, Hreq, app_nil_r. apply Hmk.
Qed.

Lemma animateStats_effect p :
  ∃ fs, animateStats p
        = set_frames (frames p ++ fs) (set_counterRuns (S (counterRuns p)) p)
        ∧ length fs = length (statNumbers p) ∧ class_requests fs = [].
Proof.
  unfold animateStats.
  destruct (requests_effect
              (λ p stat, CbUpdateNumber stat.1 stat.2 (performanceNow p))
              (statNumbers p) (λ _ _, eq_refl)
              (set_counterRuns (S (counterRuns p)) p))
    as (fs & Hfs & Hlen & Hreq).
  exists fs. rewrite Hfs. destruct p. auto.
Qed.

Lemma animateStatistics_effect p :
  ∃ fs, animateStatistics p
        = set_frames (frames p ++ fs) (set_counterRuns (S (counterRuns p)) p)
        ∧ length fs = length (statNumbers p) ∧ class_requests fs = [].
Proof.
  unfold animateStatistics.
  destruct (requests_effect
              (λ p stat, CbUpdateCount stat.1 stat.2 (performanceNow p))
              (statNumbers p) (λ _ _, eq_refl)
              (set_counterRuns (S (counterRuns p)) p))
    as (fs & Hfs & Hlen & Hreq).
  exists fs. rewrite Hfs. destruct p. auto.
Qed.

Lemma extends_stats_entry p entry :
  extends p (if isIntersecting entry && negb (statsAnimated p)
             then animateStats (set_statsAnimated true p) else p).
Proof.
  destruct (isIntersecting entry); simpl; [|apply extends_refl].
  destruct (statsAnimated p) eqn:Hflag; simpl; [apply extends_refl|].
  destruct (animateStats_effect (set_statsAnimated true p)) as (fs & -> & _).
  destruct p. simpl in Hflag. subst.
  split; [reflexivity|]. split; [apply grows_refl|]. right. auto.
Qed.

Lemma extends_statsObserverCallback entries p :
  extends p (statsObserverCallback entries p).
Proof. apply extends_foldl. intros q entry. apply extends_stats_entry. Qed.

Lemma extends_scrollObserverCallback entries p :
  extends p (scrollObserverCallback entries p).
Proof.
  apply extends_foldl. intros q entry.
  destruct (isIntersecting entry); [apply extends_addClass|apply extends_refl].
Qed.

Lemma extends_addClassWithAnimation element className p :
  extends p (addClassWithAnimation element className p).
Proof.
  unfold addClassWithAnimation. destruct (reducedMotion p).
  - apply extends_addClass.
  - apply extends_requestAnimationFrame.
Qed.

Lemma extends_start_statistics p :
  statsAnimated p = false →
  extends p (set_statsAnimated true (animateStatistics p)).
Proof.
  intros Hflag. destruct (animateStatistics_effect p) as (fs & -> & _).
  destruct p. simpl in Hflag. subst.
  split; [reflexivity|]. split; [apply grows_refl|]. right. auto.
Qed.

Lemma extends_visibility_entry q entry :
  extends q
    (if isIntersecting entry then
       let p := addClassWithAnimation (target entry) "visible" q in
       if hasClass (target entry) "stats-container" p
          && negb (statsAnimated p)
       then set_statsAnimated true (animateStatistics p)
       else p
     else q).
Proof.
  destruct (isIntersecting entry); [|apply extends_refl].
  eapply extends_trans; [apply extends_addClassWithAnimation|].
  cbv zeta.
  destruct (hasClass (target entry) "stats-container" _); simpl;
    [|apply extends_refl].
  destruct (statsAnimated (addClassWithAnimation _ _ q)) eqn:Hflag; simpl;
    [apply extends_refl|].
  apply extends_start_statistics, Hflag.
Qed.

Lemma extends_visibilityObserverCallback entries p :
  extends p (visibilityObserverCallback entries p).
Proof.
  apply extends_foldl. intros q entry. apply extends_visibility_entry.
Qed.

Lemma extends_updateActiveNavLink activeHref p :
  extends p (updateActiveNavLink activeHref p).
Proof.
  unfold updateActiveNavLink. apply extends_foldl. intros q link.
  cbv zeta.
  eapply extends_trans; [apply extends_removeClass|].
  destruct (bool_decide _); [apply extends_addClass|apply extends_refl].
Qed.

Lemma extends_sectionObserverCallback entries p :
  extends p (sectionObserverCallback entries p).
Proof.
  apply extends_foldl. intros q entry.
  destruct (isIntersecting entry); [|apply extends_refl].
  cbv zeta.
  eapply extends_trans; [|apply extends_updateActiveNavLink].
  destruct q. apply extends_same; reflexivity.
Qed.

Lemma extends_run_frame_callback t cb p :
  extends p (run_frame_callback t cb p).
Proof.
  destruct cb as [element className|stat target startTime
                 |element targetCount startTime]; simpl.
  - apply extends_addClass.
  - destruct (Stats.updateNumber _ _ _ _) as [s [|]];
      destruct p; apply extends_same; reflexivity.
  - destruct (Stats.updateCount _ _ _ _) as [s [|]];
      destruct p; apply extends_same; reflexivity.
Qed.

Lemma extends_animationFrame t p : extends p (animationFrame t p).
Proof.
  unfold animationFrame.
  eapply extends_trans;
    [|apply extends_foldl; intros q cb; apply extends_run_frame_callback].
  destruct p. apply extends_same; reflexivity.
Qed.

Lemma extends_step listens p ev : extends p (step listens p ev).
Proof.
  destruct ev as [o t entries|t|matches]; simpl.
  - destruct (bool_decide (o ∈ observers p)); [|apply extends_refl].
    eapply extends_trans with (p2 := set_performanceNow t p).
    { destruct p. apply extends_same; reflexivity. }
    destruct o; simpl.
    + apply extends_statsObserverCallback.
    + apply extends_scrollObserverCallback.
    + apply extends_visibilityObserverCallback.
    + apply extends_sectionObserverCallback.
  - apply extends_animationFrame.
  - destruct listens; [|apply extends_refl].
    destruct p. apply extends_same; reflexivity.
Qed.

Lemma extends_run listens evs : ∀ p, extends p (run listens evs p).
Proof.
  induction evs as [|ev evs IH]; intros p; simpl.
  - apply extends_refl.
  - eapply extends_trans; [apply extends_step|apply IH].
Qed.

(** *** The counter run *)

Lemma statsAnimated_stays p p' :
  extends p p' → statsAnimated p = true → statsAnimated p' = true.
Proof.
  intros (_ & _ & [[Hs _]|(_ & Hs & _)]) H; congruence.
Qed.

Lemma hasClass_grows element className p p' :
  className ≠ "active" →
  grows (classes p) (classes p') →
  hasClass element className p = true → hasClass element className p' = true.
Proof.
  unfold hasClass, contains. intros Hne Hg H.
  destruct (classes p !! element) as [l|] eqn:Hl; [|discriminate].
  destruct (Hg element l Hl) as (l' & -> & Hsub).
  apply bool_decide_eq_true. apply Hsub; [|exact Hne].
  apply bool_decide_eq_true in H. exact H.
Qed.

Lemma stats_entry_started q entry :
  isIntersecting entry = true →
  statsAnimated (if isIntersecting entry && negb (statsAnimated q)
                 then animateStats (set_statsAnimated true q) else q) = true.
Proof.
  intros ->. simpl. destruct (statsAnimated q) eqn:Hflag; simpl; [exact Hflag|].
  destruct (animateStats_effect (set_statsAnimated true q)) as (fs & -> & _).
  destruct q. reflexivity.
Qed.

Lemma statsObserverCallback_started entries :
  ∀ q, statsAnimated q = true ∨ existsb isIntersecting entries = true →
       statsAnimated (statsObserverCallback entries q) = true.
Proof.
  induction entries as [|entry entries IH]; intros q H.
  - destruct H as [H|H]; [exact H|discriminate].
  - unfold statsObserverCallback. simpl foldl.
    apply IH.
    destruct H as [H|H].
    + left. eapply statsAnimated_stays; [apply extends_stats_entry|exact H].
    + simpl in H. destruct (isIntersecting entry) eqn:Hi.
      * left. rewrite <- Hi at 1. apply stats_entry_started, Hi.
      * right. exact H.
Qed.

Lemma visibility_entry_started p0 q entry :
  grows (classes p0) (classes q) →
  isIntersecting entry && hasClass (target entry) "stats-container" p0 = true →
  statsAnimated
    (if isIntersecting entry then
       let p := addClassWithAnimation (target entry) "visible" q in
       if hasClass (target entry) "stats-container" p
          && negb (statsAnimated p)
       then set_statsAnimated true (animateStatistics p)
       else p
     else q) = true.
Proof.
  intros Hg H. apply andb_true_iff in H as [Hi Hc]. rewrite Hi. cbv zeta.
  pose proof (extends_addClassWithAnimation (target entry) "visible" q)
    as (_ & Hg' & _).
  assert (Hne : "stats-container" ≠ "active") by discriminate.
  rewrite (hasClass_grows _ _ p0 _ Hne (grows_trans _ _ _ Hg Hg') Hc).
  destruct (statsAnimated (addClassWithAnimation _ _ q)) eqn:Hflag;
    cbn [andb negb]; [exact Hflag|].
  destruct (animateStatistics_effect
              (addClassWithAnimation (target entry) "visible" q))
    as (fs & -> & _).
  destruct (addClassWithAnimation _ _ q). reflexivity.
Qed.

Lemma visibilityObserverCallback_started p0 entries :
  ∀ q, grows (classes p0) (classes q) →
       statsAnimated q = true ∨
       existsb (λ entry, isIntersecting entry &&
                         hasClass (target entry) "stats-container" p0)
         entries = true →
       statsAnimated (visibilityObserverCallback entries q) = true.
Proof.
  induction entries as [|entry entries IH]; intros q Hg H.
  - destruct H as [H|H]; [exact H|discriminate].
  - unfold visibilityObserverCallback. simpl foldl.
    pose proof (extends_visibility_entry q entry) as Hext.
    apply IH.
    { eapply grows_trans; [exact Hg|apply Hext]. }
    destruct H as [H|H].
    + left. eapply statsAnimated_stays; [exact Hext|exact H].
    + simpl in H. apply orb_true_iff in H as [H|H].
      * left. apply (visibility_entry_started p0); assumption.
      * right. exact H.
Qed.

Lemma triggers_step listens p0 p ev :
  observers p = observers p0 → grows (classes p0) (classes p) →
  triggers p0 ev = true → statsAnimated (step listens p ev) = true.
Proof.
  intros Ho Hg H.
  destruct ev as [o t entries|t|matches]; simpl in H; try discriminate.
  apply andb_true_iff in H as [Hobs H]. simpl. rewrite Ho, Hobs.
  destruct o; simpl; try discriminate.
  - apply statsObserverCallback_started. right. exact H.
  - apply (visibilityObserverCallback_started p0).
    + destruct p. exact Hg.
    + right. exact H.
Qed.

Lemma triggers_run listens p0 evs :
  ∀ p, observers p = observers p0 → grows (classes p0) (classes p) →
       Exists (λ ev, triggers p0 ev = true) evs →
       statsAnimated (run listens evs p) = true.
Proof.
  induction evs as [|ev evs IH]; intros p Ho Hg Hex.
  - inversion Hex.
  - simpl. pose proof (extends_step listens p ev) as Hext.
    inversion Hex as [? ? Hnow|? ? Hlater]; subst.
    + eapply statsAnimated_stays; [apply extends_run|].
      apply (triggers_step listens p0); assumption.
    + apply IH; [|eapply grows_trans; [exact Hg|apply Hext]|exact Hlater].
      destruct Hext as (Ho' & _). congruence.
Qed.

(** C4: from a page on which the counter has not run, whatever the
    observers report and however often, the counter run is started at
    most once, and it has been started exactly when the flag is up; it is
    started exactly once as soon as one callback brings an intersecting
    entry for the statistics. *)
Theorem C4_counter_runs_once (listens : bool) (evs : list event) (p : Page) :
  statsAnimated p = false → counterRuns p = 0 →
  let p' := run listens evs p in
  (counterRuns p' ≤ 1)%nat ∧
  (counterRuns p' = 1 ↔ statsAnimated p' = true) ∧
  (Exists (λ ev, triggers p ev = true) evs → counterRuns p' = 1).
Proof.
  intros Hflag Hruns p'.
  pose proof (extends_run listens evs p) as (_ & _ & Hstarted).
  fold p' in Hstarted.
  assert (Hiff : counterRuns p' = 1 ↔ statsAnimated p' = true).
  { destruct Hstarted as [[Hs Hr]|(_ & Hs & Hr)]; split; intros; congruence. }
  split; [|split; [exact Hiff|]].
  - destruct Hstarted as [[_ Hr]|(_ & _ & Hr)]; lia.
  - intros Hex. apply Hiff.
    apply (triggers_run listens p evs p);
      [reflexivity|apply grows_refl|exact Hex].
Qed.

(** *** Reveal *)

Lemma revealed_stays element p p' :
  extends p p' → revealed element p → revealed element p'.
Proof.
  intros (_ & Hg & _) (l & Hl & Hvisible).
  destruct (Hg element l Hl) as (l' & Hl' & Hsub).
  exists l'. split; [exact Hl'|]. apply Hsub; [exact Hvisible|discriminate].
Qed.

Lemma add_classes_app l1 l2 c :
  add_classes (l1 ++ l2) c = add_classes l2 (add_classes l1 c).
Proof. apply foldl_app. Qed.

Lemma reveals_cons entry entries :
  reveals (entry :: entries)
  = if isIntersecting entry
    then (target entry, "visible") :: reveals entries
    else reveals entries.
Proof.
  unfold reveals. destruct (isIntersecting entry) eqn:Hi.
  - rewrite filter_cons_True by exact Hi. reflexivity.
  - rewrite filter_cons_False by congruence. reflexivity.
Qed.

Lemma reveals_split entry entries :
  reveals (entry :: entries) = (reveals [entry] ++ reveals entries)%list.
Proof.
  rewrite !reveals_cons. destruct (isIntersecting entry); reflexivity.
Qed.

(** Adding the reveal class along a list of requests adds it once to each
    element named. *)
Lemma lookup_add_reveals entries :
  ∀ (c : gmap nat (list string)) element,
    add_classes (reveals entries) c !! element
    = if decide (element ∈ (reveals entries).*1)
      then tokens_add "visible" <$> c !! element
      else c !! element.
Proof.
  induction entries as [|entry entries IH]; intros c element.
  - change (reveals []) with ([] : list (nat * string)).
    rewrite decide_False by apply not_elem_of_nil. reflexivity.
  - rewrite reveals_cons. destruct (isIntersecting entry); [|apply IH].
    simpl. rewrite IH.
    destruct (decide (target entry = element)) as [<-|Hne].
    + rewrite lookup_alter_eq.
      rewrite (decide_True (P := _ ∈ _ :: _)) by apply list_elem_of_here.
      destruct (decide (target entry ∈ (reveals entries).*1));
        [|reflexivity].
      destruct (c !! target entry); simpl; [|reflexivity].
      rewrite tokens_add_idempotent. reflexivity.
    + rewrite lookup_alter_ne by exact Hne.
      destruct (decide (element ∈ (reveals entries).*1)) as [Hin|Hnin].
      * rewrite decide_True; [reflexivity|]. apply list_elem_of_further, Hin.
      * rewrite decide_False; [reflexivity|].
        intros Hin. apply elem_of_cons in Hin as [Heq|Hin]; auto.
Qed.

Lemma add_reveals_idempotent entries (c : gmap nat (list string)) :
  add_classes (reveals entries) (add_classes (reveals entries) c)
  = add_classes (reveals entries) c.
Proof.
  apply map_eq. intros element. rewrite !lookup_add_reveals.
  destruct (decide (element ∈ (reveals entries).*1)); [|reflexivity].
  destruct (c !! element); simpl; [|reflexivity].
  rewrite tokens_add_idempotent. reflexivity.
Qed.

Lemma classes_scrollObserverCallback entries :
  ∀ p, classes (scrollObserverCallback entries p)
       = add_classes (reveals entries) (classes p).
Proof.
  induction entries as [|entry entries IH]; intros p; [reflexivity|].
  change (scrollObserverCallback (entry :: entries) p)
    with (scrollObserverCallback entries
            (if isIntersecting entry
             then addClass (target entry) "visible" p else p)).
  rewrite IH, reveals_cons.
  destruct (isIntersecting entry); [|reflexivity].
  destruct p. reflexivity.
Qed.

Lemma classes_frames t fs :
  ∀ p, classes (foldl (λ p cb, run_frame_callback t cb p) p fs)
       = add_classes (class_requests fs) (classes p).
Proof.
  induction fs as [|cb fs IH]; intros p; [reflexivity|].
  simpl foldl. rewrite IH, class_requests_cons, add_classes_app.
  f_equal.
  destruct cb as [element className|stat target startTime
                 |element targetCount startTime]; simpl.
  - destruct p. reflexivity.
  - destruct (Stats.updateNumber _ _ _ _) as [s [|]]; destruct p; reflexivity.
  - destruct (Stats.updateCount _ _ _ _) as [s [|]]; destruct p; reflexivity.
Qed.

Lemma classes_animationFrame t p :
  classes (animationFrame t p)
  = add_classes (class_requests (frames p)) (classes p).
Proof.
  unfold animationFrame. rewrite classes_frames. destruct p. reflexivity.
Qed.

(** What one entry does to the classes, at once or by request. *)
Lemma visibility_entry_classes q entry :
  let q1 :=
    if isIntersecting entry then
      let p := addClassWithAnimation (target entry) "visible" q in
      if hasClass (target entry) "stats-container" p
         && negb (statsAnimated p)
      then set_statsAnimated true (animateStatistics p)
      else p
    else q in
  reducedMotion q1 = reducedMotion q ∧
  classes q1
  = (if reducedMotion q then add_classes (reveals [entry]) (classes q)
     else classes q) ∧
  class_requests (frames q1)
  = (class_requests (frames q)
     ++ (if reducedMotion q then [] else reveals [entry]))%list.
Proof.
  intros q1. subst q1. rewrite reveals_cons.
  destruct (isIntersecting entry).
  2:{ destruct (reducedMotion q); rewrite ?app_nil_r; auto. }
  cbv zeta.
  assert (Hadd :
    let p := addClassWithAnimation (target entry) "visible" q in
    reducedMotion p = reducedMotion q ∧
    classes p
    = (if reducedMotion q
       then add_classes [(target entry, "visible")] (classes q)
       else classes q) ∧
    class_requests (frames p)
    = (class_requests (frames q)
       ++ (if reducedMotion q then [] else [(target entry, "visible")]))%list).
  { unfold addClassWithAnimation.
    destruct q as [? ? ? ? ? ? ? rm ? ? ? ? ? ?].
    simpl. destruct rm; simpl.
    - rewrite app_nil_r. auto.
    - rewrite class_requests_app. auto. }
  cbv zeta in Hadd. destruct Hadd as (Hrm & Hc & Hf).
  destruct (hasClass _ _ _ && negb _); [|auto].
  destruct (animateStatistics_effect
              (addClassWithAnimation (target entry) "visible" q))
    as (fs & -> & _ & Hreq).
  destruct (addClassWithAnimation (target entry) "visible" q).
  simpl in *. rewrite class_requests_app, Hreq, app_nil_r. auto.
Qed.

Lemma visibilityObserverCallback_classes entries :
  ∀ p,
    let p' := visibilityObserverCallback entries p in
    reducedMotion p' = reducedMotion p ∧
    classes p'
    = (if reducedMotion p then add_classes (reveals entries) (classes p)
       else classes p) ∧
    class_requests (frames p')
    = (class_requests (frames p)
       ++ (if reducedMotion p then [] else reveals entries))%list.
Proof.
  induction entries as [|entry entries IH]; intros p.
  - simpl. destruct (reducedMotion p); rewrite app_nil_r; auto.
  - cbv zeta.
    pose proof (visibility_entry_classes p entry) as H1. cbv zeta in H1.
    destruct H1 as (Hrm1 & Hc1 & Hf1).
    change (visibilityObserverCallback (entry :: entries) p)
      with (visibilityObserverCallback entries
              (if isIntersecting entry then
                 if hasClass (target entry) "stats-container"
                      (addClassWithAnimation (target entry) "visible" p)
                    && negb (statsAnimated
                               (addClassWithAnimation (target entry)
                                  "visible" p))
                 then set_statsAnimated true
                        (animateStatistics
                           (addClassWithAnimation (target entry)
                              "visible" p))
                 else addClassWithAnimation (target entry) "visible" p
               else p)).
    match goal with
    | |- context [visibilityObserverCallback entries ?q] =>
        specialize (IH q); cbv zeta in IH; destruct IH as (Hrm & Hc & Hf)
    end.
    rewrite Hrm, Hc, Hf, Hrm1, Hc1, Hf1.
    rewrite (reveals_split entry entries).
    destruct (reducedMotion p).
    + rewrite add_classes_app, !app_nil_r. auto.
    + rewrite app_assoc. auto.
Qed.

Lemma grows_add_classes l : ∀ c, grows c (add_classes l c).
Proof.
  induction l as [|x l IH]; intros c; simpl.
  - apply grows_refl.
  - eapply grows_trans; [apply grows_alter|apply IH].
Qed.

Lemma revealed_add_reveals entry (c : gmap nat (list string)) :
  isIntersecting entry = true → is_Some (c !! target entry) →
  ∃ l, add_classes (reveals [entry]) c !! target entry = Some l
       ∧ "visible" ∈ l.
Proof.
  intros Hi [l Hl]. rewrite lookup_add_reveals, reveals_cons, Hi.
  rewrite decide_True by apply list_elem_of_here.
  rewrite Hl. simpl. eexists. split; [reflexivity|].
  apply elem_of_tokens_add.
Qed.

Lemma grows_revealed c c' element :
  grows c c' →
  (∃ l, c !! element = Some l ∧ "visible" ∈ l) →
  ∃ l, c' !! element = Some l ∧ "visible" ∈ l.
Proof.
  intros Hg (l & Hl & Hvisible).
  destruct (Hg element l Hl) as (l' & Hl' & Hsub). exists l'.
  split; [exact Hl'|]. apply Hsub; [exact Hvisible|discriminate].
Qed.

(** One intersecting report reveals the element: at once in [script.js],
    with the next frame at the latest in version 2.0.0. *)
Lemma reveal_applied entry t p :
  isIntersecting entry = true → is_Some (classes p !! target entry) →
  revealed (target entry) (scrollObserverCallback [entry] p) ∧
  revealed (target entry)
    (animationFrame t (visibilityObserverCallback [entry] p)).
Proof.
  intros Hi Hsome. unfold revealed. split.
  - rewrite classes_scrollObserverCallback.
    apply revealed_add_reveals; assumption.
  - rewrite classes_animationFrame.
    destruct (visibilityObserverCallback_classes [entry] p)
      as (_ & -> & ->).
    destruct (reducedMotion p).
    + eapply grows_revealed; [apply grows_add_classes|].
      apply revealed_add_reveals; assumption.
    + rewrite add_classes_app. apply revealed_add_reveals; [exact Hi|].
      destruct Hsome as [l Hl].
      destruct (grows_add_classes (class_requests (frames p)) (classes p)
                  (target entry) l Hl) as (l' & -> & _).
      eexists. reflexivity.
Qed.

(** C9: applying an intersection callback a second time leaves every
    class list as the first application left it, for the callback of
    [script.js] and (looking at the classes after the next frame) for the
    one of version 2.0.0; one intersecting report does reveal the element;
    and no event takes the reveal class away again. *)
Theorem C9_reveal_idempotent_one_way (p : Page)
    (entries : list IntersectionObserverEntry) (t : Q)
    (listens : bool) (evs : list event)
    (entry : IntersectionObserverEntry) (element : nat) :
  classes (scrollObserverCallback entries (scrollObserverCallback entries p))
  = classes (scrollObserverCallback entries p) ∧
  classes (animationFrame t (visibilityObserverCallback entries
                               (visibilityObserverCallback entries p)))
  = classes (animationFrame t (visibilityObserverCallback entries p)) ∧
  (isIntersecting entry = true → is_Some (classes p !! target entry) →
   revealed (target entry) (scrollObserverCallback [entry] p) ∧
   revealed (target entry)
     (animationFrame t (visibilityObserverCallback [entry] p))) ∧
  (revealed element p → revealed element (run listens evs p)).
Proof.
  split; [|split; [|split]].
  - rewrite !classes_scrollObserverCallback. apply add_reveals_idempotent.
  - rewrite !classes_animationFrame.
    destruct (visibilityObserverCallback_classes entries
                (visibilityObserverCallback entries p)) as (_ & -> & ->).
    destruct (visibilityObserverCallback_classes entries p)
      as (-> & -> & ->).
    destruct (reducedMotion p).
    + rewrite !app_nil_r, add_reveals_idempotent. reflexivity.
    + rewrite !add_classes_app, add_reveals_idempotent. reflexivity.
  - apply reveal_applied.
  - apply revealed_stays, extends_run.
Qed.

(** *** The text a frame writes *)

Lemma frames_kept t fs :
  ∀ p cb, cb ∈ frames p →
          cb ∈ frames (foldl (λ p cb, run_frame_callback t cb p) p fs).
Proof.
  induction fs as [|x fs IH]; intros p cb Hcb; [exact Hcb|].
  simpl foldl. apply IH.
  destruct x as [element className|stat target startTime
                |element targetCount startTime]; simpl.
  - destruct p. exact Hcb.
  - destruct (Stats.updateNumber _ _ _ _) as [s [|]]; destruct p; simpl in *;
      [apply elem_of_app; left|]; exact Hcb.
  - destruct (Stats.updateCount _ _ _ _) as [s [|]]; destruct p; simpl in *;
      [apply elem_of_app; left|]; exact Hcb.
Qed.

Lemma texts_unwritten t element fs :
  ∀ p, Forall (λ cb, writes cb ≠ Some element) fs →
       texts (foldl (λ p cb, run_frame_callback t cb p) p fs) !! element
       = texts p !! element.
Proof.
  induction fs as [|x fs IH]; intros p Hfs; [reflexivity|].
  inversion Hfs as [|? ? Hx Hfs']; subst.
  simpl foldl. rewrite (IH _ Hfs').
  destruct x as [el className|stat target startTime
                |el targetCount startTime]; simpl in *.
  - destruct p. reflexivity.
  - assert (stat ≠ element) by congruence.
    destruct (Stats.updateNumber _ _ _ _) as [s [|]]; destruct p; simpl;
      apply lookup_insert_ne; assumption.
  - assert (el ≠ element) by congruence.
    destruct (Stats.updateCount _ _ _ _) as [s [|]]; destruct p; simpl;
      apply lookup_insert_ne; assumption.
Qed.

(** The frame runs a pending counter closure: it writes the closure's
    text to its element, and requests the closure again when the update
    says so. *)
Lemma frame_runs_counter t p fs1 cb fs2 element (s : string)
    (again : bool) :
  frames p = (fs1 ++ cb :: fs2)%list →
  Forall (λ cb, writes cb ≠ Some element) fs2 →
  (∀ q, run_frame_callback t cb q
        = let q' := set_texts (<[element:=s]> (texts q)) q in
          if again then requestAnimationFrame cb q' else q') →
  texts (animationFrame t p) !! element = Some s ∧
  (again = true → cb ∈ frames (animationFrame t p)).
Proof.
  intros Hframes Hfs2 Hcb. unfold animationFrame.
  rewrite Hframes, foldl_app. simpl foldl. split.
  - rewrite (texts_unwritten t element fs2 _ Hfs2), Hcb. cbv zeta.
    destruct again; match goal with |- context [foldl ?f ?q fs1] =>
      destruct (foldl f q fs1) end; simpl; apply lookup_insert_eq.
  - intros ->. apply frames_kept. rewrite Hcb. cbv zeta.
    match goal with |- context [foldl ?f ?q fs1] =>
      destruct (foldl f q fs1) end; simpl.
    apply elem_of_app. right. apply list_elem_of_here.
Qed.

(** C2, as the code has it.  A frame runs every pending counter closure.
    The closure of version 2.0.0 writes to its element the number
    [floor (eased * target)], or the exact target once progress has
    reached 1, followed by [+] when the target is at least 100; the
    closure of [script.js] writes the same number and never a suffix.
    Each requests a further frame while progress is below 1.  The
    operators are those of JavaScript numbers. *)
Theorem C2_counter_frame_text (target : Z) (startTime currentTime : Q)
    (p : Page) (element : nat) (fs1 fs2 : list frameCallback) :
  Forall (λ cb, writes cb ≠ Some element) fs2 →
  let elapsed := Stats.sub currentTime startTime in
  let progress := Qmin (Stats.div elapsed Stats.statsCountDuration) 1 in
  let eased := Stats.sub 1 (Stats.pow3 (Stats.sub 1 progress)) in
  let p' := animationFrame currentTime p in
  (frames p = (fs1 ++ CbUpdateCount element target startTime :: fs2)%list →
   texts p' !! element
   = Some (Stats.toString
             (if Qlt_le_dec progress 1
              then Qfloor (Stats.mul eased (inject_Z target)) else target)
           +:+ (if (100 <=? target)%Z then "+" else "")) ∧
   ((progress < 1)%Q → CbUpdateCount element target startTime ∈ frames p')) ∧
  (frames p = (fs1 ++ CbUpdateNumber element target startTime :: fs2)%list →
   texts p' !! element
   = Some (Stats.toString
             (if Qlt_le_dec progress 1
              then Qfloor (Stats.mul (inject_Z target) eased) else target)) ∧
   ((progress < 1)%Q → CbUpdateNumber element target startTime ∈ frames p')).
Proof.
  intros Hfs2 elapsed progress eased p'.
  split; intros Hframes.
  - destruct (frame_runs_counter currentTime p fs1 _ fs2 element
                (Stats.updateCount target startTime currentTime "").1
                (Stats.updateCount target startTime currentTime "").2
                Hframes Hfs2) as [Htext Hagain].
    { intros q. simpl.
      destruct (StatsFacts.counter_frame_text target startTime currentTime
                  (textOf element q)) as [-> _].
      destruct (StatsFacts.counter_frame_text target startTime currentTime "")
        as [-> _].
      cbv zeta. simpl. destruct (Qlt_le_dec _ 1); reflexivity. }
    destruct (StatsFacts.counter_frame_text target startTime currentTime "")
      as [Heq _].
    cbv zeta in Heq. rewrite Heq in Htext, Hagain. simpl in Htext, Hagain.
    split; [exact Htext|]. intros Hlt. apply Hagain.
    fold elapsed progress.
    destruct (Qlt_le_dec progress 1) as [_|Hge]; [reflexivity|].
    exfalso. apply (Qlt_not_le _ _ Hlt Hge).
  - destruct (frame_runs_counter currentTime p fs1 _ fs2 element
                (Stats.updateNumber target startTime currentTime "").1
                (Stats.updateNumber target startTime currentTime "").2
                Hframes Hfs2) as [Htext Hagain].
    { intros q. simpl.
      destruct (StatsFacts.counter_frame_text target startTime currentTime
                  (textOf element q)) as [_ ->].
      destruct (StatsFacts.counter_frame_text target startTime currentTime "")
        as [_ ->].
      cbv zeta. simpl. destruct (Qlt_le_dec _ 1); reflexivity. }
    destruct (StatsFacts.counter_frame_text target startTime currentTime "")
      as [_ Heq].
    cbv zeta in Heq. rewrite Heq in Htext, Hagain. simpl in Htext, Hagain.
    split; [exact Htext|]. intros Hlt. apply Hagain.
    fold elapsed progress.
    destruct (Qlt_le_dec progress 1) as [_|Hge]; [reflexivity|].
    exfalso. apply (Qlt_not_le _ _ Hlt Hge).
Qed.

End Facts.

(** A card is revealed, leaves the view and enters it again. *)
Lemma C9_reveal_card :
  let p := initApp false (Lang.Returns tt) (Lang.Returns tt)
             (markup {[ 1 := ["fade-in-up"]; 2 := ["stats-container"] ]}
                {[ 3 := "0" ]} [(3, 150%Z)]) in
  let entry := mkEntry true 1 in
  let once := animationFrame 16 (visibilityObserverCallback [entry] p) in
  let evs := [Intersection VisibilityObserver 20 [mkEntry false 1];
              AnimationFrame 32;
              Intersection VisibilityObserver 40 [mkEntry true 1];
              AnimationFrame 48] in
  classes once !! 1 = Some ["fade-in-up"; "visible"] ∧
  revealed 1 (run true evs once).
Proof.
  intros p entry once evs.
  pose proof (C9_reveal_idempotent_one_way p [entry] 16 true [] entry 1)
    as (_ & _ & Happlied & _).
  destruct (Happlied eq_refl (ex_intro _ _ eq_refl)) as [_ Hrevealed].
  pose proof (C9_reveal_idempotent_one_way once [entry] 16 true evs entry 1)
    as (_ & _ & _ & Hstays).
  split; [reflexivity|]. exact (Hstays Hrevealed).
Defined.

(** The statistics enter the view three times; the counter runs once. *)
Lemma C4_counter_runs_once_on_reentry :
  let p := init false
             (markup {[ 1 := ["fade-in-up"]; 3 := ["stat-number"] ]}
                {[ 3 := "0" ]} [(3, 150%Z)]) in
  let evs := [Intersection StatsObserver 10 [mkEntry true 3];
              AnimationFrame 1000;
              Intersection StatsObserver 1500 [mkEntry false 3];
              Intersection StatsObserver 1800 [mkEntry true 3];
              AnimationFrame 3000;
              Intersection StatsObserver 5000 [mkEntry true 3]] in
  statsAnimated p = false ∧ counterRuns p = 0 ∧
  Exists (λ ev, triggers p ev = true) evs ∧
  counterRuns (run false evs p) = 1.
Proof.
  intros p evs.
  assert (Hex : Exists (λ ev, triggers p ev = true) evs).
  { apply Exists_cons_hd. reflexivity. }
  split; [reflexivity|]. split; [reflexivity|]. split; [exact Hex|].
  exact (proj2 (proj2 (C4_counter_runs_once false evs p eq_refl eq_refl)) Hex).
Defined.

(** A stats container enters the view at 10 ms; the frame one second later
    writes [131+] for a target of 150 and asks for the next frame. *)
Lemma C2_counter_frame_text_midway :
  let p := visibilityObserverCallback [mkEntry true 2]
             (set_performanceNow 10
                (initApp false (Lang.Returns tt) (Lang.Returns tt)
                   (markup {[ 2 := ["stats-container"]; 3 := ["stat-number"] ]}
                      {[ 3 := "0" ]} [(3, 150%Z)]))) in
  frames p = [CbAddClass 2 "visible"; CbUpdateCount 3 150 10] ∧
  texts (animationFrame 1010 p) !! 3 = Some "131+" ∧
  CbUpdateCount 3 150 10 ∈ frames (animationFrame 1010 p).
Proof.
  intros p.
  assert (Hfs2 : Forall (λ cb : frameCallback, writes cb ≠ Some 3) []).
  { constructor. }
  pose proof (C2_counter_frame_text 150 10 1010 p 3
                [CbAddClass 2 "visible"] [] Hfs2) as H.
  cbv zeta in H. destruct H as [H _].
  destruct (H eq_refl) as [Htext Hagain].
  split; [reflexivity|]. split.
  - exact (eq_trans Htext eq_refl).
  - apply Hagain. reflexivity.
Defined.

(** C2 as stated fails for [script.js]: with a target of 150 its frames
    write the bare number, half way through and at the end. *)
Lemma C2_script_js_writes_no_suffix :
  let p := statsObserverCallback [mkEntry true 3]
             (set_performanceNow 10
                (init false
                   (markup {[ 3 := ["stat-number"] ]} {[ 3 := "0" ]}
                      [(3, 150%Z)]))) in
  (100 <=? 150)%Z = true ∧
  frames p = [CbUpdateNumber 3 150 10] ∧
  texts (animationFrame 1010 p) !! 3 = Some "131" ∧
  texts (animationFrame 2010 (animationFrame 1010 p)) !! 3 = Some "150" ∧
  texts (animationFrame 2010 (animationFrame 1010 p)) !! 3
  ≠ Some (Stats.toString 150 +:+ "+").
Proof. vm_compute. repeat split; discriminate. Qed.

End ObserversFacts.

(** ** Facts about the banner's timer bookkeeping *)

Module CycleFacts.
Import Dom Lang DomFacts LangFacts Cycle.

Local Arguments Nat.modulo : simpl never.
Local Arguments Z.div : simpl never.
Local Arguments Z.add : simpl never.
Local Arguments Z.max : simpl never.
Local Arguments Z.min : simpl never.
Local Arguments Z.mul : simpl never.
Local Arguments setAttribute : simpl never.
Local Arguments set_textContent : simpl never.
Local Arguments classList_add : simpl never.
Local Arguments classList_remove : simpl never.
Local Arguments String.append : simpl never.

(** *** Lists of timers *)

Lemma NoDup_tid_filter (P : timer → Prop) `{∀ t, Decision (P t)}
    (ts : list timer) :
  NoDup (tid <$> ts) → NoDup (tid <$> filter P ts).
Proof.
  induction ts as [|t ts IH]; intros Hnd; [constructor|].
  rewrite fmap_cons in Hnd. apply NoDup_cons in Hnd as [Hnotin Hnd].
  destruct (decide (P t)) as [Hp|Hp].
  - rewrite filter_cons_True by exact Hp. rewrite fmap_cons.
    apply NoDup_cons. split; [|apply IH, Hnd].
    intros Hin. apply Hnotin.
    apply list_elem_of_fmap in Hin as (u & Hu & Hin).
    apply list_elem_of_filter in Hin as [_ Hin].
    apply list_elem_of_fmap. exists u. auto.
  - rewrite filter_cons_False by exact Hp. apply IH, Hnd.
Qed.

Lemma NoDup_tid_inj (ts : list timer) (t u : timer) :
  NoDup (tid <$> ts) → t ∈ ts → u ∈ ts → tid t = tid u → t = u.
Proof.
  induction ts as [|v ts IH]; intros Hnd Ht Hu Heq.
  - apply not_elem_of_nil in Ht. contradiction.
  - rewrite fmap_cons in Hnd. apply NoDup_cons in Hnd as [Hnotin Hnd].
    apply elem_of_cons in Ht as [->|Ht]; apply elem_of_cons in Hu as [->|Hu].
    + reflexivity.
    + exfalso. apply Hnotin. rewrite Heq.
      apply list_elem_of_fmap. exists u. auto.
    + exfalso. apply Hnotin. rewrite <- Heq.
      apply list_elem_of_fmap. exists t. auto.
    + apply IH; assumption.
Qed.

Lemma tid_reschedule_interval (t : timer) (p : Z) (ts : list timer) :
  tid <$> ((λ u, if decide (tid u = tid t)
                 then mkTimer (tid u) (due t + p) (period u) (cb u) else u)
           <$> ts)
  = tid <$> ts.
Proof.
  rewrite <- list_fmap_compose. apply list_fmap_ext.
  intros i u _. simpl. destruct (decide (tid u = tid t)); reflexivity.
Qed.

(** *** The queue and the handle stay coherent *)

Lemma coherent_same f :
  (∀ w, nextTimerId (f w) = nextTimerId w ∧ timers (f w) = timers w ∧
        animationInterval (f w) = animationInterval w) →
  preserves coherent (modify f).
Proof.
  intros Hf w Hw. unfold exec, modify. simpl.
  destruct (Hf w) as (Hn & Ht & Hh). unfold coherent.
  rewrite Hn, Ht, Hh. exact Hw.
Qed.

Lemma coherent_onElement f : preserves coherent (onElement f).
Proof. apply coherent_same. intros w. destruct w. auto. Qed.

Lemma coherent_set_prefersReducedMotion b :
  preserves coherent (modify (set_prefersReducedMotion b)).
Proof. apply coherent_same. intros w. destruct w. auto. Qed.

Lemma coherent_languageAt i : preserves coherent (languageAt i).
Proof. unfold languageAt. preserve. Qed.

Lemma coherent_addTimer p c d :
  armed_as (mkTimer 0 0 p c) → preserves coherent (addTimer p c d).
Proof.
  intros Harmed w (Hnext & Hts & Hnd & Hh). unfold exec, addTimer.
  destruct w as [now0 next ts h mr dh ml idx handle prm].
  unfold coherent. simpl in *.
  split; [lia|]. split; [|split].
  - intros t Ht. apply elem_of_app in Ht as [Ht|Ht].
    + destruct (Hts t Ht) as [? ?]. split; [lia|assumption].
    + apply list_elem_of_singleton in Ht. subst t. simpl.
      split; [lia|exact Harmed].
  - rewrite fmap_app. apply NoDup_app. split; [exact Hnd|].
    split; [|apply NoDup_singleton].
    intros x Hx Hx'. apply list_elem_of_singleton in Hx'. subst x.
    apply list_elem_of_fmap in Hx as (t & Heq & Ht). simpl in Heq.
    destruct (Hts t Ht). lia.
  - intros id Hid. destruct (Hh id Hid) as (t & Ht & ?). exists t.
    split; [apply elem_of_app; auto|auto].
Qed.

Lemma coherent_fade_in_timeout :
  preserves coherent (setTimeout CbFadeInDone FADE_DURATION).
Proof. apply coherent_addTimer. reflexivity. Qed.

(** [animationInterval = setInterval(...)]. *)
Lemma coherent_attach :
  preserves coherent
    (let! id := setInterval CbLanguageTick ANIMATION_INTERVAL in
     modify (set_animationInterval (Some id))).
Proof.
  intros w Hw.
  pose proof (coherent_addTimer (Some ANIMATION_INTERVAL) CbLanguageTick
                ANIMATION_INTERVAL eq_refl w Hw) as H.
  destruct w as [now0 next ts h mr dh ml idx handle prm].
  unfold exec, addTimer, coherent in *. simpl in *.
  destruct H as (H1 & H2 & H3 & _).
  split; [exact H1|]. split; [exact H2|]. split; [exact H3|].
  intros id [= <-]. eexists. split.
  - apply elem_of_app. right. apply list_elem_of_singleton. reflexivity.
  - auto.
Qed.

Lemma coherent_stopMultilingualAnimation :
  preserves coherent stopMultilingualAnimation.
Proof.
  intros w (Hnext & Hts & Hnd & Hh).
  destruct w as [now0 next ts h mr dh ml idx handle prm].
  unfold coherent. simpl in *.
  destruct handle as [[|id]|]; cbn; auto.
  split; [exact Hnext|]. split; [|split].
  - intros t Ht. apply list_elem_of_filter in Ht as [_ Ht]. auto.
  - apply NoDup_tid_filter, Hnd.
  - discriminate.
Qed.

Create HintDb coherent.

#[local] Hint Resolve coherent_onElement coherent_set_prefersReducedMotion
  coherent_languageAt coherent_fade_in_timeout coherent_attach
  coherent_stopMultilingualAnimation : coherent.

Lemma coherent_updateLanguageText i : preserves coherent (updateLanguageText i).
Proof. unfold updateLanguageText. preserve_by ltac:(auto with coherent). Qed.

Lemma coherent_startLanguageCycle : preserves coherent startLanguageCycle.
Proof.
  unfold startLanguageCycle.
  preserve_by ltac:(auto using coherent_updateLanguageText with coherent).
Qed.

Lemma coherent_initMultilingualAnimation :
  preserves coherent initMultilingualAnimation.
Proof.
  unfold initMultilingualAnimation.
  preserve_by ltac:(auto using coherent_startLanguageCycle with coherent).
Qed.

Lemma coherent_motionListener b : preserves coherent (motionListener b).
Proof.
  unfold motionListener.
  preserve_by ltac:(auto using coherent_initMultilingualAnimation
                      with coherent).
Qed.

Lemma coherent_init : preserves coherent init.
Proof.
  unfold init, handleMotionPreferenceChange.
  apply preserves_bind; [apply coherent_initMultilingualAnimation|intros _].
  apply coherent_same. intros w. destruct w. auto.
Qed.

Lemma coherent_visibilityListener : preserves coherent visibilityListener.
Proof.
  unfold visibilityListener.
  preserve_by ltac:(auto using coherent_initMultilingualAnimation
                      with coherent).
Qed.

(** The tick arms the swap with the index it has just reduced modulo the
    length of the list. *)
Lemma coherent_tick : preserves coherent (run_callback CbLanguageTick).
Proof.
  intros w Hw.
  pose proof (coherent_addTimer None
                (CbSwapLanguage
                   ((currentLanguageIndex w + 1) mod length LANGUAGES))
                (FADE_DURATION / 2)
                (conj eq_refl (mod_languages_lt _)) w Hw) as H.
  destruct w as [now0 next ts h mr dh ml idx handle prm].
  exact H.
Qed.

Lemma coherent_run_callback c : preserves coherent (run_callback c).
Proof.
  destruct c as [|j|].
  - apply coherent_tick.
  - unfold run_callback.
    preserve_by ltac:(auto using coherent_updateLanguageText with coherent).
  - simpl. auto with coherent.
Qed.

Lemma coherent_reschedule t w :
  coherent w → t ∈ timers w →
  coherent (set_timers (reschedule t (timers w))
              (set_now (Z.max (now w) (due t)) w)).
Proof.
  intros (Hnext & Hts & Hnd & Hh) Ht.
  destruct w as [now0 next ts h mr dh ml idx handle prm].
  unfold coherent. simpl in *. unfold reschedule.
  destruct (period t) as [p|] eqn:Hp.
  - split; [exact Hnext|]. split; [|split].
    + intros u Hu. apply list_elem_of_fmap in Hu as (v & -> & Hv).
      destruct (Hts v Hv) as [Hid Harmed].
      destruct (decide (tid v = tid t)); auto.
    + rewrite tid_reschedule_interval. exact Hnd.
    + intros id Hid. destruct (Hh id Hid) as (v & Hv & Hvid & Hvcb).
      eexists. split; [apply list_elem_of_fmap; exists v; split;
                       [reflexivity|exact Hv]|].
      destruct (decide (tid v = tid t)); auto.
  - split; [exact Hnext|]. split; [|split].
    + intros u Hu. apply list_elem_of_filter in Hu as [_ Hu]. auto.
    + apply NoDup_tid_filter, Hnd.
    + intros id Hid. destruct (Hh id Hid) as (v & Hv & Hvid & Hvcb).
      exists v. split; [|auto]. apply list_elem_of_filter. split; [|exact Hv].
      intros Heq. pose proof (NoDup_tid_inj ts v t Hnd Hv Ht Heq). subst v.
      destruct (Hts t Ht) as [_ Harmed]. unfold armed_as in Harmed.
      rewrite Hvcb in Harmed. congruence.
Qed.

Lemma coherent_fire t w : coherent w → t ∈ timers w → coherent (fire t w).
Proof.
  intros Hw Ht. rewrite fire_unfold. apply coherent_run_callback.
  apply coherent_reschedule; assumption.
Qed.

Lemma coherent_step w ev : coherent w → coherent (step w ev).
Proof.
  intros Hw. destruct ev as [|hidden|matches| | |ms]; simpl.
  - apply coherent_init, Hw.
  - destruct (Bool.eqb hidden (docHidden w)); [exact Hw|].
    apply coherent_visibilityListener. destruct w. exact Hw.
  - destruct (Bool.eqb matches (mediaReduce w)); [exact Hw|].
    apply preserves_repeat; [apply coherent_motionListener|].
    destruct w. exact Hw.
  - apply coherent_stopMultilingualAnimation, Hw.
  - unfold fire_next. destruct (earliest (timers w)) as [t|] eqn:Ht;
      [|exact Hw].
    apply coherent_fire; [exact Hw|]. apply earliest_elem, Ht.
  - unfold elapse. destruct (earliest (timers w)); destruct w; exact Hw.
Qed.

Lemma coherent_initial h reduce hidden :
  coherent (initial_world h reduce hidden).
Proof.
  unfold coherent. simpl. split; [lia|]. split; [|split].
  - intros t Ht. apply not_elem_of_nil in Ht. contradiction.
  - constructor.
  - discriminate.
Qed.

Lemma coherent_run evs : ∀ w, coherent w → coherent (run evs w).
Proof.
  induction evs as [|ev evs IH]; intros w Hw; simpl; [exact Hw|].
  apply IH, coherent_step, Hw.
Qed.

(** X: in every state of the page the timer ids are positive and pairwise
    distinct, every closure is armed the way the script arms it (the
    tick as an interval of [ANIMATION_INTERVAL], the swap with an index
    into [LANGUAGES]), and a handle that is not [null] is the id of a
    tick interval that is still pending: the handle never dangles. *)
Theorem handle_never_dangles (h : option Element) (reduce hidden : bool)
    (evs : list event) :
  let w := run evs (initial_world h reduce hidden) in
  NoDup (tid <$> timers w) ∧
  (∀ t, t ∈ timers w → 0 < tid t < nextTimerId w ∧ armed_as t) ∧
  (∀ id, animationInterval w = Some id →
         ∃ t, t ∈ timers w ∧ tid t = id ∧
              period t = Some ANIMATION_INTERVAL ∧ cb t = CbLanguageTick).
Proof.
  intros w.
  destruct (coherent_run evs _ (coherent_initial h reduce hidden))
    as (_ & Hts & Hnd & Hh).
  fold w in Hts, Hnd, Hh.
  split; [exact Hnd|]. split; [exact Hts|].
  intros id Hid. destruct (Hh id Hid) as (t & Ht & Htid & Hcb).
  exists t. split; [exact Ht|]. split; [exact Htid|]. split; [|exact Hcb].
  destruct (Hts t Ht) as [_ Harmed]. unfold armed_as in Harmed.
  rewrite Hcb in Harmed. exact Harmed.
Qed.

(** *** No handler throws *)

Lemma returns_initMultilingualAnimation w :
  index_valid w → returns initMultilingualAnimation w.
Proof.
  intros Hi.
  destruct (lookup_lt_is_Some_2 LANGUAGES _ Hi) as [entry Hentry].
  destruct w as [now0 next ts h mr dh ml idx handle prm].
  simpl in Hentry. unfold returns.
  destruct h as [e|], mr;
    repeat (js_eval; rewrite ?languages_first, ?Hentry);
    eexists; reflexivity.
Qed.

Lemma returns_init w : index_valid w → returns init w.
Proof.
  intros Hi.
  destruct (lookup_lt_is_Some_2 LANGUAGES _ Hi) as [entry Hentry].
  destruct w as [now0 next ts h mr dh ml idx handle prm].
  simpl in Hentry. unfold returns.
  destruct h as [e|], mr;
    repeat (js_eval; rewrite ?languages_first, ?Hentry);
    eexists; reflexivity.
Qed.

Lemma returns_stopMultilingualAnimation w :
  returns stopMultilingualAnimation w.
Proof.
  destruct w as [now0 next ts h mr dh ml idx handle prm].
  unfold returns. destruct handle as [[|id]|]; js_eval; eexists; reflexivity.
Qed.

Lemma returns_visibilityListener w :
  index_valid w → returns visibilityListener w.
Proof.
  intros Hi.
  destruct (lookup_lt_is_Some_2 LANGUAGES _ Hi) as [entry Hentry].
  destruct w as [now0 next ts h mr dh ml idx handle prm].
  simpl in Hentry. unfold returns.
  destruct dh, prm, h as [e|], mr, handle as [[|id]|];
    repeat (js_eval; rewrite ?languages_first, ?Hentry);
    eexists; reflexivity.
Qed.

Lemma returns_motionListener b w :
  index_valid w → returns (motionListener b) w.
Proof.
  intros Hi.
  destruct (lookup_lt_is_Some_2 LANGUAGES _ Hi) as [entry Hentry].
  destruct w as [now0 next ts h mr dh ml idx handle prm].
  simpl in Hentry. unfold returns.
  destruct b, h as [e|], mr, handle as [[|id]|];
    repeat (js_eval; rewrite ?languages_first, ?Hentry);
    eexists; reflexivity.
Qed.

Lemma returns_run_callback t w :
  armed_as t → returns (run_callback (cb t)) w.
Proof.
  unfold armed_as. destruct (cb t) as [|j|]; intros Harmed.
  - destruct w. unfold returns. js_eval. eexists. reflexivity.
  - destruct Harmed as [_ Hj].
    destruct (lookup_lt_is_Some_2 LANGUAGES _ Hj) as [entry Hentry].
    destruct w. unfold returns.
    repeat (js_eval; rewrite ?Hentry). eexists. reflexivity.
  - destruct w. unfold returns. js_eval. eexists. reflexivity.
Qed.

Lemma all_return_motionListener b n :
  ∀ w, index_valid w → all_return n (motionListener b) w.
Proof.
  induction n as [|n IH]; intros w Hi; simpl; [exact I|].
  split; [apply returns_motionListener, Hi|].
  apply IH, index_motionListener, Hi.
Qed.

(** X: no listener and no timer task of the banner ever throws.  In
    every state of the page, whatever event comes next, the script
    functions that run for it return normally; the [TypeError] of
    [updateLanguageText] on an index outside [LANGUAGES] cannot occur. *)
Theorem handlers_never_throw (h : option Element) (reduce hidden : bool)
    (evs : list event) (ev : event) :
  handled (run evs (initial_world h reduce hidden)) ev.
Proof.
  assert (Hi : index_valid (run evs (initial_world h reduce hidden))).
  { apply index_run. unfold index_valid. simpl. lia. }
  pose proof (coherent_run evs _ (coherent_initial h reduce hidden))
    as (_ & Hts & _).
  generalize dependent (run evs (initial_world h reduce hidden)).
  intros w Hi Hts.
  destruct ev as [|hid|matches| | |ms]; simpl.
  - apply returns_init, Hi.
  - destruct (Bool.eqb hid (docHidden w)); [exact I|].
    apply returns_visibilityListener. destruct w. exact Hi.
  - destruct (Bool.eqb matches (mediaReduce w)); [exact I|].
    apply all_return_motionListener. destruct w. exact Hi.
  - apply returns_stopMultilingualAnimation.
  - destruct (earliest (timers w)) as [t|] eqn:Ht; [|exact I].
    apply returns_run_callback. apply Hts, earliest_elem, Ht.
  - exact I.
Qed.

(** *** A fade class has its remover pending *)

Lemma fade_pending_weaken w w' :
  (∀ e', hero w' = Some e' →
         ∃ e, hero w = Some e ∧
              ∀ c, classList_contains c e' = true →
                   c = "fade-out" ∨ c = "fade-in" →
                   classList_contains c e = true) →
  (∀ t, t ∈ timers w → cb t ≠ CbLanguageTick →
        ∃ t', t' ∈ timers w' ∧ cb t' = cb t) →
  fade_pending w → fade_pending w'.
Proof.
  intros Hhero Htimers Hw e' He'.
  destruct (Hhero e' He') as (e & He & Hclasses).
  destruct (Hw e He) as [Hout Hin]. split.
  - intros Hc. destruct (Hout (Hclasses _ Hc (or_introl eq_refl)))
      as (t & j & Ht & Hcb).
    destruct (Htimers t Ht) as (t' & Ht' & Hcb'); [congruence|].
    exists t', j. split; [exact Ht'|congruence].
  - intros Hc. destruct (Hin (Hclasses _ Hc (or_intror eq_refl)))
      as (t & Ht & Hcb).
    destruct (Htimers t Ht) as (t' & Ht' & Hcb'); [congruence|].
    exists t'. split; [exact Ht'|congruence].
Qed.

Lemma tidy_onElement f :
  (∀ e c, classList_contains c (f e) = true → classList_contains c e = true) →
  preserves tidy (onElement f).
Proof.
  intros Hf w [Hc Hp]. split; [apply coherent_onElement, Hc|].
  revert Hp. apply fade_pending_weaken.
  - destruct w as [now0 next ts h mr dh ml idx handle prm]. simpl.
    destruct h as [e|]; simpl; intros e' [= <-].
    exists e. split; [reflexivity|]. intros c Hcl _. apply (Hf e c Hcl).
  - intros t Ht _. exists t. destruct w. auto.
Qed.

Lemma tidy_setAttribute k v : preserves tidy (onElement (setAttribute k v)).
Proof. apply tidy_onElement. intros e c H. exact H. Qed.

Lemma tidy_set_textContent s : preserves tidy (onElement (set_textContent s)).
Proof. apply tidy_onElement. intros e c H. exact H. Qed.

Lemma tidy_classList_remove d : preserves tidy (onElement (classList_remove d)).
Proof.
  apply tidy_onElement. intros e c H.
  destruct (decide (c = d)) as [->|Hne].
  - rewrite classList_contains_remove in H. discriminate.
  - rewrite classList_contains_remove_ne in H by exact Hne. exact H.
Qed.

Lemma tidy_set_prefersReducedMotion b :
  preserves tidy (modify (set_prefersReducedMotion b)).
Proof.
  intros w [Hc Hp]. split; [apply coherent_set_prefersReducedMotion, Hc|].
  destruct w. exact Hp.
Qed.

Lemma tidy_languageAt i : preserves tidy (languageAt i).
Proof. unfold languageAt. preserve. Qed.

Lemma tidy_attach :
  preserves tidy
    (let! id := setInterval CbLanguageTick ANIMATION_INTERVAL in
     modify (set_animationInterval (Some id))).
Proof.
  intros w [Hc Hp]. split; [apply coherent_attach, Hc|].
  revert Hp. apply fade_pending_weaken.
  - destruct w as [now0 next ts h mr dh ml idx handle prm]. simpl.
    intros e' He'. exists e'. auto.
  - intros t Ht _. exists t. destruct w. simpl in *.
    split; [apply elem_of_app; auto|reflexivity].
Qed.

Lemma tidy_stopMultilingualAnimation :
  preserves tidy stopMultilingualAnimation.
Proof.
  intros w [Hc Hp].
  split; [apply coherent_stopMultilingualAnimation, Hc|].
  revert Hp. apply fade_pending_weaken.
  - destruct w as [now0 next ts h mr dh ml idx handle prm].
    destruct handle as [[|id]|]; simpl; intros e' He'; exists e'; auto.
  - intros t Ht Hcb. exists t. split; [|reflexivity].
    destruct Hc as (_ & _ & Hnd & Hh).
    destruct w as [now0 next ts h mr dh ml idx handle prm].
    destruct handle as [[|id]|]; simpl in *; auto.
    apply list_elem_of_filter. split; [|exact Ht].
    intros Heq. destruct (Hh _ eq_refl) as (v & Hv & Hvid & Hvcb).
    assert (t = v) by (apply (NoDup_tid_inj ts); congruence).
    congruence.
Qed.

Create HintDb tidy.

#[local] Hint Resolve tidy_setAttribute tidy_set_textContent
  tidy_classList_remove tidy_set_prefersReducedMotion tidy_languageAt
  tidy_attach tidy_stopMultilingualAnimation : tidy.

Lemma tidy_updateLanguageText i : preserves tidy (updateLanguageText i).
Proof. unfold updateLanguageText. preserve_by ltac:(auto with tidy). Qed.

Lemma tidy_startLanguageCycle : preserves tidy startLanguageCycle.
Proof.
  unfold startLanguageCycle.
  preserve_by ltac:(auto using tidy_updateLanguageText with tidy).
Qed.

Lemma tidy_initMultilingualAnimation :
  preserves tidy initMultilingualAnimation.
Proof.
  unfold initMultilingualAnimation.
  preserve_by ltac:(auto using tidy_startLanguageCycle with tidy).
Qed.

Lemma tidy_motionListener b : preserves tidy (motionListener b).
Proof.
  unfold motionListener.
  preserve_by ltac:(auto using tidy_initMultilingualAnimation with tidy).
Qed.

Lemma tidy_init : preserves tidy init.
Proof.
  unfold init, handleMotionPreferenceChange.
  apply preserves_bind; [apply tidy_initMultilingualAnimation|intros _].
  intros w [Hc Hp]. split.
  - revert Hc. apply coherent_same. intros w'. destruct w'. auto.
  - destruct w. exact Hp.
Qed.

Lemma tidy_visibilityListener : preserves tidy visibilityListener.
Proof.
  unfold visibilityListener.
  preserve_by ltac:(auto using tidy_initMultilingualAnimation with tidy).
Qed.

Lemma contains_add_other (c d : string) (e : Element) :
  c ≠ d →
  classList_contains c (classList_add d e) = classList_contains c e.
Proof. intros Hne. apply contains_tokens_add_ne. exact Hne. Qed.

Lemma tidy_fire t w : tidy w → t ∈ timers w → tidy (fire t w).
Proof.
  intros [Hc Hp] Ht. split; [apply coherent_fire; assumption|].
  destruct Hc as (_ & Hts & Hnd & _).
  destruct (Hts t Ht) as [_ Harmed]. unfold armed_as in Harmed.
  rewrite fire_unfold.
  destruct w as [now0 next ts h mr dh ml idx handle prm]. simpl in *.
  intros e' He'.
  destruct (cb t) as [|j|] eqn:Hcb.
  - (* tick *)
    unfold reschedule in He' |- *. rewrite Harmed in He' |- *.
    cbn in He' |- *. destruct h as [e|]; [|discriminate].
    injection He' as <-. destruct (Hp e eq_refl) as [_ Hin]. split.
    + intros _. eexists _, _.
      split; [apply elem_of_app; right; apply list_elem_of_singleton;
              reflexivity|reflexivity].
    + rewrite contains_add_other by discriminate. intros Hfade.
      destruct (Hin Hfade) as (u & Hu & Hucb).
      eexists. split.
      * apply elem_of_app. left. apply list_elem_of_fmap.
        exists u. split; [reflexivity|exact Hu].
      * destruct (decide (tid u = tid t)); exact Hucb.
  - (* swap *)
    destruct Harmed as [Hperiod Hj].
    destruct (lookup_lt_is_Some_2 LANGUAGES _ Hj) as [entry Hentry].
    unfold reschedule in He' |- *. rewrite Hperiod in He' |- *.
    revert He'. unfold exec, run_callback, updateLanguageText, languageAt, bind.
    rewrite Hentry. cbn. destruct h as [e|]; [|discriminate].
    intros [= <-]. split.
    + rewrite contains_add_other by discriminate.
      rewrite classList_contains_remove. discriminate.
    + intros _. eexists.
      split; [apply elem_of_app; right; apply list_elem_of_singleton;
              reflexivity|reflexivity].
  - (* clean-up *)
    unfold reschedule in He' |- *. rewrite Harmed in He' |- *.
    cbn in He' |- *. destruct h as [e|]; [|discriminate].
    injection He' as <-. destruct (Hp e eq_refl) as [Hout _]. split.
    + rewrite classList_contains_remove_ne by discriminate. intros Hfade.
      destruct (Hout Hfade) as (u & i & Hu & Hucb).
      exists u, i. split; [|exact Hucb].
      apply list_elem_of_filter. split; [|exact Hu].
      intros Heq. assert (u = t) by (apply (NoDup_tid_inj ts); assumption).
      congruence.
    + rewrite classList_contains_remove. discriminate.
Qed.

Lemma tidy_step w ev : tidy w → tidy (step w ev).
Proof.
  intros Hw. destruct ev as [|hidden|matches| | |ms]; simpl.
  - apply tidy_init, Hw.
  - destruct (Bool.eqb hidden (docHidden w)); [exact Hw|].
    apply tidy_visibilityListener. destruct w. exact Hw.
  - destruct (Bool.eqb matches (mediaReduce w)); [exact Hw|].
    apply preserves_repeat; [apply tidy_motionListener|].
    destruct w. exact Hw.
  - apply tidy_stopMultilingualAnimation, Hw.
  - unfold fire_next. destruct (earliest (timers w)) as [t|] eqn:Ht;
      [|exact Hw].
    apply tidy_fire; [exact Hw|]. apply earliest_elem, Ht.
  - unfold elapse. destruct (earliest (timers w)); destruct w; exact Hw.
Qed.

Lemma tidy_run evs : ∀ w, tidy w → tidy (run evs w).
Proof.
  induction evs as [|ev evs IH]; intros w Hw; simpl; [exact Hw|].
  apply IH, tidy_step, Hw.
Qed.

(** X: a fade class never gets stuck on the element.  On a page whose
    markup carries neither class, in every state: while [fade-out] is
    applied the timeout that swaps the language (and removes the class)
    is pending, and while [fade-in] is applied the timeout that removes
    it is pending.  So once no timeout is pending the element carries
    neither class, also when the cycle was stopped in the middle of a
    transition. *)
Theorem fade_classes_get_removed (e : Element) (reduce hidden : bool)
    (evs : list event) :
  classList_contains "fade-out" e = false →
  classList_contains "fade-in" e = false →
  let w := run evs (initial_world (Some e) reduce hidden) in
  fade_pending w ∧
  ∀ e', hero w = Some e' →
        (∀ t, t ∈ timers w → is_Some (period t)) →
        classList_contains "fade-out" e' = false ∧
        classList_contains "fade-in" e' = false.
Proof.
  intros Hout Hin w.
  assert (Hw : tidy w).
  { apply tidy_run. split; [apply coherent_initial|].
    intros e0 [= <-]. rewrite Hout, Hin. split; discriminate. }
  destruct Hw as [Hc Hp]. split; [exact Hp|].
  intros e' He' Hintervals. destruct (Hp e' He') as [Hout' Hin'].
  destruct Hc as (_ & Hts & _). split.
  - destruct (classList_contains "fade-out" e'); [|reflexivity].
    destruct (Hout' eq_refl) as (t & j & Ht & Hcb).
    destruct (Hts t Ht) as [_ Harmed]. unfold armed_as in Harmed.
    rewrite Hcb in Harmed. destruct (Hintervals t Ht) as [p Hp'].
    destruct Harmed. congruence.
  - destruct (classList_contains "fade-in" e'); [|reflexivity].
    destruct (Hin' eq_refl) as (t & Ht & Hcb).
    destruct (Hts t Ht) as [_ Harmed]. unfold armed_as in Harmed.
    rewrite Hcb in Harmed. destruct (Hintervals t Ht) as [p Hp'].
    congruence.
Qed.

(** *** One cycle at a time *)

Lemma intervals_app_timeout (ts : list timer) id d c :
  filter (λ t, is_Some (period t)) (ts ++ [mkTimer id d None c])%list
  = filter (λ t, is_Some (period t)) ts.
Proof.
  rewrite filter_app, filter_cons_False, filter_nil, app_nil_r.
  - reflexivity.
  - simpl. intros [p Hp]. discriminate.
Qed.

Lemma intervals_app_interval (ts : list timer) id d p c :
  filter (λ t, is_Some (period t)) (ts ++ [mkTimer id d (Some p) c])%list
  = (filter (λ t, is_Some (period t)) ts ++ [mkTimer id d (Some p) c])%list.
Proof.
  rewrite filter_app, filter_cons_True, filter_nil by (simpl; eauto).
  reflexivity.
Qed.

Lemma intervals_filter (Q : timer → Prop) `{∀ t, Decision (Q t)}
    (ts : list timer) :
  filter (λ t, is_Some (period t)) (filter Q ts)
  = filter Q (filter (λ t, is_Some (period t)) ts).
Proof.
  rewrite !list_filter_filter. apply list_filter_iff. intros t. tauto.
Qed.

Lemma intervals_reschedule (t : timer) (p : Z) (ts : list timer) :
  filter (λ u, is_Some (period u))
    ((λ u, if decide (tid u = tid t)
           then mkTimer (tid u) (due t + p) (period u) (cb u) else u) <$> ts)
  = (λ u, if decide (tid u = tid t)
          then mkTimer (tid u) (due t + p) (period u) (cb u) else u)
    <$> filter (λ u, is_Some (period u)) ts.
Proof.
  induction ts as [|u ts IH]; [reflexivity|].
  rewrite fmap_cons.
  destruct (decide (is_Some (period u))) as [Hu|Hu].
  - rewrite (filter_cons_True _ u) by exact Hu.
    rewrite filter_cons_True, fmap_cons, IH; [reflexivity|].
    destruct (decide (tid u = tid t)); exact Hu.
  - rewrite (filter_cons_False _ u) by exact Hu.
    rewrite filter_cons_False, IH; [reflexivity|].
    destruct (decide (tid u = tid t)); exact Hu.
Qed.

Lemma orderly_handle_positive w id :
  coherent w → orderly w → animationInterval w = Some id → id ≠ 0.
Proof.
  intros (_ & Hts & _) Ho Hid. unfold orderly in Ho. rewrite Hid in Ho.
  destruct Ho as [(t & Ht & Htid) _].
  assert (Hin : t ∈ timers w).
  { assert (Hin : t ∈ intervals w) by (rewrite Ht; apply list_elem_of_here).
    apply list_elem_of_filter in Hin as [_ Hin]. exact Hin. }
  destruct (Hts t Hin) as [? _]. lia.
Qed.

Lemma intervals_cleared (ts : list timer) (t : timer) (id : nat) :
  filter (λ u, is_Some (period u)) ts = [t] → tid t = id →
  filter (λ u, is_Some (period u)) (filter (λ u, tid u ≠ id) ts) = [].
Proof.
  intros Hts Hid. rewrite intervals_filter, Hts.
  rewrite filter_cons_False by (intros Hne; apply Hne, Hid). reflexivity.
Qed.

Lemma intervals_attached (ts : list timer) id d p c :
  filter (λ u, is_Some (period u)) ts = [] →
  ∃ t, filter (λ u, is_Some (period u)) (ts ++ [mkTimer id d (Some p) c])%list
       = [t] ∧ tid t = id.
Proof.
  intros Hts. rewrite intervals_app_interval, Hts. eexists. split; reflexivity.
Qed.

Lemma single_cycle_visibility hidden w :
  single_cycle w →
  single_cycle (step w (VisibilityChange hidden)) ∧
  docHidden (step w (VisibilityChange hidden)) = hidden.
Proof.
  intros (Hc & Hi & Hl & Ho).
  assert (Hc' := coherent_step w (VisibilityChange hidden) Hc).
  assert (Hi' := index_step w (VisibilityChange hidden) Hi).
  unfold single_cycle.
  enough (loaded_once (step w (VisibilityChange hidden)) ∧
          orderly (step w (VisibilityChange hidden)) ∧
          docHidden (step w (VisibilityChange hidden)) = hidden) by tauto.
  clear Hc' Hi'.
  pose proof (orderly_handle_positive w) as Hpos.
  specialize (Hpos) with (1 := Hc) (2 := Ho).
  destruct (lookup_lt_is_Some_2 LANGUAGES _ Hi) as [entry Hentry].
  destruct Hl as (Hml & Hprm & Hnone). clear Hc Hi.
  destruct w as [now0 next ts h mr dh ml idx handle prm].
  unfold loaded_once, orderly, intervals in *.
  simpl in Hml, Hprm, Hnone, Hentry, Ho, Hpos.
  subst ml prm.
  destruct hidden, dh.
  - simpl. auto.
  - destruct handle as [[|id]|].
    + exfalso. apply (Hpos 0); reflexivity.
    + repeat (js_eval; rewrite ?languages_first, ?Hentry).
      destruct Ho as [(t & Ht & Htid) _].
      rewrite (intervals_cleared ts t (S id)) by assumption. auto.
    + repeat (js_eval; rewrite ?languages_first, ?Hentry). auto.
  - destruct handle as [id|]; [destruct Ho as (_ & Hd & _); discriminate|].
    destruct mr, h as [e|];
      repeat (js_eval; rewrite ?languages_first, ?Hentry);
      rewrite ?Ho; auto.
    split; [split; [reflexivity|split; [reflexivity|discriminate]]|].
    split; [|reflexivity]. split; [|auto].
    apply intervals_attached, Ho.
  - simpl. auto.
Qed.

Lemma single_cycle_motion matches w :
  single_cycle w → (matches = false → docHidden w = false) →
  single_cycle (step w (MotionChange matches)) ∧
  docHidden (step w (MotionChange matches)) = docHidden w.
Proof.
  intros (Hc & Hi & Hl & Ho) Hvisible.
  assert (Hc' := coherent_step w (MotionChange matches) Hc).
  assert (Hi' := index_step w (MotionChange matches) Hi).
  unfold single_cycle.
  enough (loaded_once (step w (MotionChange matches)) ∧
          orderly (step w (MotionChange matches)) ∧
          docHidden (step w (MotionChange matches)) = docHidden w) by tauto.
  clear Hc' Hi'.
  pose proof (orderly_handle_positive w) as Hpos.
  specialize (Hpos) with (1 := Hc) (2 := Ho).
  destruct (lookup_lt_is_Some_2 LANGUAGES _ Hi) as [entry Hentry].
  destruct Hl as (Hml & Hprm & Hnone). clear Hc Hi.
  destruct w as [now0 next ts h mr dh ml idx handle prm].
  unfold loaded_once, orderly, intervals in *.
  simpl in Hml, Hprm, Hnone, Hentry, Ho, Hpos, Hvisible.
  subst ml prm.
  destruct matches, mr.
  - simpl. auto.
  - destruct h as [e|].
    + destruct handle as [[|id]|].
      * exfalso. apply (Hpos 0); reflexivity.
      * repeat (js_eval; rewrite ?languages_first, ?Hentry).
        destruct Ho as [(t & Ht & Htid) _].
        rewrite (intervals_cleared ts t (S id)) by assumption.
        split; [split; [reflexivity|split; [reflexivity|discriminate]]|auto].
      * repeat (js_eval; rewrite ?languages_first, ?Hentry).
        split; [split; [reflexivity|split; [reflexivity|discriminate]]|auto].
    + rewrite (Hnone eq_refl) in Ho |- *.
      repeat (js_eval; rewrite ?languages_first, ?Hentry). auto.
  - destruct handle as [id|]; [destruct Ho as (_ & _ & Hm); discriminate|].
    rewrite (Hvisible eq_refl).
    destruct h as [e|];
      repeat (js_eval; rewrite ?languages_first, ?Hentry);
      rewrite ?Ho; auto.
    split; [split; [reflexivity|split; [reflexivity|discriminate]]|].
    split; [|reflexivity]. split; [|auto].
    apply intervals_attached, Ho.
  - simpl. auto.
Qed.

Lemma single_cycle_unload w :
  single_cycle w →
  single_cycle (step w BeforeUnload) ∧
  docHidden (step w BeforeUnload) = docHidden w.
Proof.
  intros (Hc & Hi & Hl & Ho).
  assert (Hc' := coherent_step w BeforeUnload Hc).
  assert (Hi' := index_step w BeforeUnload Hi).
  unfold single_cycle.
  enough (loaded_once (step w BeforeUnload) ∧
          orderly (step w BeforeUnload) ∧
          docHidden (step w BeforeUnload) = docHidden w) by tauto.
  clear Hc' Hi'.
  pose proof (orderly_handle_positive w) as Hpos.
  specialize (Hpos) with (1 := Hc) (2 := Ho).
  destruct Hl as (Hml & Hprm & Hnone). clear Hc Hi.
  destruct w as [now0 next ts h mr dh ml idx handle prm].
  unfold loaded_once, orderly, intervals in *.
  simpl in Hml, Hprm, Hnone, Ho, Hpos.
  subst ml prm.
  destruct handle as [[|id]|].
  - exfalso. apply (Hpos 0); reflexivity.
  - js_eval. destruct Ho as [(t & Ht & Htid) _].
    rewrite (intervals_cleared ts t (S id)) by assumption. auto.
  - js_eval. auto.
Qed.

Lemma single_cycle_fire w :
  single_cycle w →
  single_cycle (step w TimerFire) ∧
  docHidden (step w TimerFire) = docHidden w.
Proof.
  intros (Hc & Hi & Hl & Ho).
  assert (Hc' := coherent_step w TimerFire Hc).
  assert (Hi' := index_step w TimerFire Hi).
  unfold single_cycle.
  enough (loaded_once (step w TimerFire) ∧
          orderly (step w TimerFire) ∧
          docHidden (step w TimerFire) = docHidden w) by tauto.
  clear Hc' Hi'. simpl. unfold fire_next.
  destruct (earliest (timers w)) as [t|] eqn:Hearliest; [|auto].
  apply earliest_elem in Hearliest. rename Hearliest into Ht.
  destruct Hc as (_ & Hts & Hnd & _).
  destruct (Hts t Ht) as [_ Harmed]. unfold armed_as in Harmed.
  rewrite fire_unfold.
  destruct Hl as (Hml & Hprm & Hnone).
  destruct w as [now0 next ts h mr dh ml idx handle prm].
  unfold loaded_once, orderly, intervals in *.
  simpl in Hml, Hprm, Hnone, Ho, Ht, Hts, Hnd. subst ml prm.
  assert (Hkept : ∀ u, period t = None →
            filter (λ v, is_Some (period v)) ts = [u] →
            filter (λ v, is_Some (period v)) (filter (λ v, tid v ≠ tid t) ts)
            = [u]).
  { intros u Hperiod Hu. rewrite intervals_filter, Hu.
    rewrite filter_cons_True; [reflexivity|].
    assert (Hin : u ∈ filter (λ v, is_Some (period v)) ts)
      by (rewrite Hu; apply list_elem_of_here).
    apply list_elem_of_filter in Hin as [[p Hp] Hin].
    intros Heq. assert (u = t) by (apply (NoDup_tid_inj ts); assumption).
    congruence. }
  assert (Hnone' : filter (λ v, is_Some (period v)) ts = [] →
            filter (λ v, is_Some (period v)) (filter (λ v, tid v ≠ tid t) ts)
            = []).
  { intros Hu. rewrite intervals_filter, Hu. reflexivity. }
  destruct (cb t) as [|j|] eqn:Hcb.
  - unfold reschedule. rewrite Harmed. js_eval.
    rewrite intervals_app_timeout, intervals_reschedule.
    split; [split; [reflexivity|split; [reflexivity|]];
            destruct h; simpl; [discriminate|exact Hnone]|].
    split; [|reflexivity].
    destruct handle as [id|].
    + destruct Ho as [(u & Hu & Hid) Hrest]. split; [|exact Hrest].
      rewrite Hu. eexists. split; [reflexivity|].
      destruct (decide (tid u = tid t)); exact Hid.
    + rewrite Ho. reflexivity.
  - destruct Harmed as [Hperiod Hj].
    destruct (lookup_lt_is_Some_2 LANGUAGES _ Hj) as [entry Hentry].
    unfold reschedule. rewrite Hperiod.
    repeat (js_eval; rewrite ?Hentry).
    rewrite intervals_app_timeout.
    split; [split; [reflexivity|split; [reflexivity|]];
            destruct h; simpl; [discriminate|exact Hnone]|].
    split; [|reflexivity].
    destruct handle as [id|].
    + destruct Ho as [(u & Hu & Hid) Hrest]. split; [|exact Hrest].
      exists u. split; [apply Hkept; assumption|exact Hid].
    + apply Hnone', Ho.
  - unfold reschedule. rewrite Harmed. js_eval.
    split; [split; [reflexivity|split; [reflexivity|]];
            destruct h; simpl; [discriminate|exact Hnone]|].
    split; [|reflexivity].
    destruct handle as [id|].
    + destruct Ho as [(u & Hu & Hid) Hrest]. split; [|exact Hrest].
      exists u. split; [apply Hkept; assumption|exact Hid].
    + apply Hnone', Ho.
Qed.

Lemma single_cycle_elapse ms w :
  single_cycle w →
  single_cycle (step w (Elapse ms)) ∧
  docHidden (step w (Elapse ms)) = docHidden w.
Proof.
  intros (Hc & Hi & Hl & Ho).
  assert (Hc' := coherent_step w (Elapse ms) Hc).
  assert (Hi' := index_step w (Elapse ms) Hi).
  unfold single_cycle.
  enough (loaded_once (step w (Elapse ms)) ∧
          orderly (step w (Elapse ms)) ∧
          docHidden (step w (Elapse ms)) = docHidden w) by tauto.
  clear Hc' Hi'. simpl. unfold elapse.
  destruct (earliest (timers w)); destruct w; auto.
Qed.

Lemma single_cycle_loaded w :
  coherent w → index_valid w → unloaded w →
  single_cycle (step w DOMContentLoaded) ∧
  docHidden (step w DOMContentLoaded) = false.
Proof.
  intros Hc Hi (Hts & Hh & Hml & Hd).
  assert (Hc' := coherent_step w DOMContentLoaded Hc).
  assert (Hi' := index_step w DOMContentLoaded Hi).
  unfold single_cycle.
  enough (loaded_once (step w DOMContentLoaded) ∧
          orderly (step w DOMContentLoaded) ∧
          docHidden (step w DOMContentLoaded) = false) by tauto.
  clear Hc' Hi' Hc.
  destruct (lookup_lt_is_Some_2 LANGUAGES _ Hi) as [entry Hentry].
  destruct w as [now0 next ts h mr dh ml idx handle prm].
  unfold loaded_once, orderly, intervals.
  simpl in Hts, Hh, Hml, Hd, Hentry. subst ts handle ml dh.
  destruct h as [e|], mr;
    repeat (js_eval; rewrite ?languages_first, ?Hentry);
    simpl; auto.
  split; [split; [reflexivity|split; [reflexivity|discriminate]]|].
  split; [|reflexivity]. split; [|auto]. eexists. split; reflexivity.
Qed.

Lemma unloaded_step w ev :
  unloaded w →
  match ev with
  | DOMContentLoaded => False
  | VisibilityChange hidden => hidden = false
  | _ => True
  end →
  unloaded (step w ev).
Proof.
  intros (Hts & Hh & Hml & Hd) Hev.
  destruct w as [now0 next ts h mr dh ml idx handle prm].
  simpl in Hts, Hh, Hml, Hd. subst ts handle ml dh.
  unfold unloaded.
  destruct ev as [|hidden|matches| | |ms]; simpl.
  - contradiction.
  - subst hidden. simpl. auto.
  - destruct (Bool.eqb matches mr); simpl; auto.
  - js_eval. auto.
  - auto.
  - auto.
Qed.

Lemma single_cycle_run evs :
  ∀ w, single_cycle w → resumes_visible (docHidden w) evs = true →
       single_cycle (run evs w).
Proof.
  induction evs as [|ev evs IH]; intros w Hw Hevs; simpl; [exact Hw|].
  destruct ev as [|hidden|matches| | |ms]; simpl in Hevs.
  - discriminate.
  - destruct (single_cycle_visibility hidden w Hw) as [Hw' Hd].
    apply IH; [exact Hw'|]. rewrite Hd. exact Hevs.
  - assert (Hvisible : matches = false → docHidden w = false).
    { intros ->. apply andb_true_iff in Hevs as [Hv _].
      apply negb_true_iff in Hv. exact Hv. }
    destruct (single_cycle_motion matches w Hw Hvisible) as [Hw' Hd].
    apply IH; [exact Hw'|]. rewrite Hd.
    destruct matches; [exact Hevs|].
    apply andb_true_iff in Hevs as [_ Hevs]. exact Hevs.
  - destruct (single_cycle_unload w Hw) as [Hw' Hd].
    apply IH; [exact Hw'|]. rewrite Hd. exact Hevs.
  - destruct (single_cycle_fire w Hw) as [Hw' Hd].
    apply IH; [exact Hw'|]. rewrite Hd. exact Hevs.
  - destruct (single_cycle_elapse ms w Hw) as [Hw' Hd].
    apply IH; [exact Hw'|]. rewrite Hd. exact Hevs.
Qed.

Lemma loads_visible_run evs :
  ∀ w, coherent w → index_valid w → unloaded w →
       loads_visible evs = true →
       unloaded (run evs w) ∨ single_cycle (run evs w).
Proof.
  induction evs as [|ev evs IH]; intros w Hc Hi Hw Hevs; [left; exact Hw|].
  assert (Hc' := coherent_step w ev Hc).
  assert (Hi' := index_step w ev Hi).
  change (run (ev :: evs) w) with (run evs (step w ev)).
  destruct ev as [|hidden|matches| | |ms]; simpl in Hevs.
  - right. destruct (single_cycle_loaded w Hc Hi Hw) as [Hw' Hd].
    apply single_cycle_run; [exact Hw'|]. rewrite Hd. exact Hevs.
  - apply andb_true_iff in Hevs as [Hv Hevs].
    apply negb_true_iff in Hv.
    apply IH; [exact Hc'|exact Hi'| |exact Hevs].
    apply unloaded_step; [exact Hw|exact Hv].
  - apply IH; [exact Hc'|exact Hi'| |exact Hevs].
    apply unloaded_step; [exact Hw|exact I].
  - apply IH; [exact Hc'|exact Hi'| |exact Hevs].
    apply unloaded_step; [exact Hw|exact I].
  - apply IH; [exact Hc'|exact Hi'| |exact Hevs].
    apply unloaded_step; [exact Hw|exact I].
  - apply IH; [exact Hc'|exact Hi'| |exact Hevs].
    apply unloaded_step; [exact Hw|exact I].
Qed.

(** X: the banner runs at most one cycle when the page loads visible and
    is never restarted behind a hidden document.  The history starts
    when the script is evaluated on a visible document; the document
    stays visible until [DOMContentLoaded], which is dispatched once, and
    afterwards the media query does not turn back to "motion allowed"
    while the document is hidden ([loads_visible]).  Then in every state
    at most one interval is pending, it is the one the handle refers to,
    and none is pending while the document is hidden or reduced motion
    is preferred ([orderly]). *)
Theorem one_cycle_at_a_time (h : option Element) (reduce : bool)
    (evs : list event) :
  loads_visible evs = true →
  let w := run evs (initial_world h reduce false) in
  (length (intervals w) ≤ 1)%nat ∧ orderly w.
Proof.
  intros Hevs w.
  assert (Ho : orderly w).
  { destruct (loads_visible_run evs (initial_world h reduce false))
      as [(Hts & Hh & _)|(_ & _ & _ & Ho)].
    - apply coherent_initial.
    - unfold index_valid. simpl. lia.
    - unfold unloaded. simpl. auto.
    - exact Hevs.
    - fold w in Hts, Hh. unfold orderly, intervals.
      rewrite Hh, Hts. reflexivity.
    - exact Ho. }
  split; [|exact Ho].
  unfold orderly in Ho.
  destruct (animationInterval w) as [id|].
  - destruct Ho as [(t & Ht & Hid) Hrest]. rewrite Ht. simpl. lia.
  - rewrite Ho. simpl. lia.
Qed.

(** The preference changes before the page has loaded; then hidden,
    reduced, shown, motion allowed again, a tick, hidden and shown once
    more: at most one interval. *)
Lemma one_cycle_at_a_time_session :
  loads_visible
    [MotionChange true; Elapse 100; MotionChange false; DOMContentLoaded;
     VisibilityChange true; MotionChange true; VisibilityChange false;
     MotionChange false; TimerFire; VisibilityChange true;
     VisibilityChange false] = true ∧
  (length (intervals
             (run [MotionChange true; Elapse 100; MotionChange false;
                   DOMContentLoaded;
                   VisibilityChange true; MotionChange true;
                   VisibilityChange false; MotionChange false; TimerFire;
                   VisibilityChange true; VisibilityChange false]
                (initial_world (Some markup) false false))) ≤ 1)%nat.
Proof.
  split; [reflexivity|].
  exact (proj1 (one_cycle_at_a_time (Some markup) false
                  [MotionChange true; Elapse 100; MotionChange false;
                   DOMContentLoaded;
                   VisibilityChange true; MotionChange true;
                   VisibilityChange false; MotionChange false; TimerFire;
                   VisibilityChange true; VisibilityChange false]
                  eq_refl)).
Defined.

(** A page with plain markup that is stopped in the middle of a
    transition. *)
Lemma fade_classes_get_removed_after_stop :
  classList_contains "fade-out" markup = false ∧
  classList_contains "fade-in" markup = false ∧
  fade_pending
    (run [DOMContentLoaded; TimerFire; MotionChange true; TimerFire;
          TimerFire]
       (initial_world (Some markup) false false)).
Proof.
  split; [reflexivity|]. split; [reflexivity|].
  exact (proj1 (fade_classes_get_removed markup false false
                  [DOMContentLoaded; TimerFire; MotionChange true; TimerFire;
                   TimerFire]
                  eq_refl eq_refl)).
Defined.

End CycleFacts.

(** ** Facts about [debounce] *)

Module DebounceFacts.
Import Tasks TasksFacts Debounce.

Section Wrapper.
Context {Args Page : Type}.
Variable func : Z → Args → Page → Page.
Variable wait : Z.

Lemma settle_idle t (c : Closure (Args:=Args) (Page:=Page)) :
  timers c = [] → settle func t c = c.
Proof. intros H. unfold settle. rewrite H. reflexivity. Qed.

Lemma settle_pending t (c : Closure (Args:=Args) (Page:=Page)) id d a :
  timers c = [mkTimer id d a] → timeout c = Some id →
  settle func t c
  = if (d <=? t)%Z
    then mkClosure (Some id) (nextTimerId c) [] (func d a (page c))
    else c.
Proof.
  intros Hts Hto. unfold settle. rewrite Hts. simpl. rewrite Hts. simpl.
  destruct (d <=? t)%Z; [|reflexivity].
  unfold fire, later. simpl. rewrite Hts, Hto. simpl.
  rewrite filter_cons_False by (simpl; intros Hne; apply Hne; reflexivity).
  reflexivity.
Qed.

Lemma call_unfold t a (c : Closure (Args:=Args) (Page:=Page)) :
  call func wait c (t, a) = executedFunction wait t a (settle func t c).
Proof. reflexivity. Qed.

Lemma executedFunction_tracks pending t a (c : Closure (Args:=Args) (Page:=Page)) :
  tracks wait pending c →
  tracks wait (Some (t, a)) (executedFunction wait t a c) ∧
  page (executedFunction wait t a c) = page c.
Proof.
  intros Hc. split; [|reflexivity].
  unfold tracks, executedFunction. simpl.
  exists (nextTimerId c). split; [|reflexivity].
  destruct pending as [[t0 a0]|]; simpl in Hc.
  - destruct Hc as (id & Hts & Hto). rewrite Hts, Hto. simpl.
    rewrite filter_cons_False by (simpl; intros Hne; apply Hne; reflexivity).
    reflexivity.
  - rewrite Hc. destruct (timeout c); reflexivity.
Qed.

Lemma calls_trailing_edge (until : Z) (l : list (Z * Args)) :
  ∀ pending (c : Closure (Args:=Args) (Page:=Page)),
    tracks wait pending c →
    page (settle func until (calls func wait l c))
    = apply_all func (trailing_edge wait pending l until) (page c).
Proof.
  induction l as [|[t a] l IH]; intros pending c Hc.
  - simpl. destruct pending as [[t0 a0]|]; simpl in Hc.
    + destruct Hc as (id & Hts & Hto).
      rewrite (settle_pending until c id _ a0 Hts Hto).
      destruct (t0 + Z.max 0 wait <=? until)%Z; reflexivity.
    + rewrite settle_idle by exact Hc. reflexivity.
  - change (calls func wait ((t, a) :: l) c)
      with (calls func wait l (call func wait c (t, a))).
    rewrite call_unfold.
    destruct pending as [[t0 a0]|]; simpl in Hc.
    + destruct Hc as (id & Hts & Hto).
      rewrite (settle_pending t c id _ a0 Hts Hto). simpl trailing_edge.
      destruct (t0 + Z.max 0 wait <=? t)%Z.
      * destruct (executedFunction_tracks None t a
                    (mkClosure (Some id) (nextTimerId c) []
                       (func (t0 + Z.max 0 wait)%Z a0 (page c))) eq_refl)
          as [Htr Hpage].
        rewrite (IH _ _ Htr), Hpage. reflexivity.
      * destruct (executedFunction_tracks (Some (t0, a0)) t a c) as [Htr Hpage].
        { exists id. auto. }
        rewrite (IH _ _ Htr), Hpage. reflexivity.
    + rewrite (settle_idle t c Hc).
      destruct (executedFunction_tracks None t a c Hc) as [Htr Hpage].
      rewrite (IH _ _ Htr), Hpage. reflexivity.
Qed.

Lemma calls_tracks (l : list (Z * Args)) :
  ∀ pending (c : Closure (Args:=Args) (Page:=Page)),
    tracks wait pending c →
    ∃ pending', tracks wait pending' (calls func wait l c).
Proof.
  induction l as [|[t a] l IH]; intros pending c Hc.
  - exists pending. exact Hc.
  - change (calls func wait ((t, a) :: l) c)
      with (calls func wait l (call func wait c (t, a))).
    rewrite call_unfold.
    destruct pending as [[t0 a0]|]; simpl in Hc.
    + destruct Hc as (id & Hts & Hto).
      rewrite (settle_pending t c id _ a0 Hts Hto).
      destruct (t0 + Z.max 0 wait <=? t)%Z.
      * apply (IH (Some (t, a))).
        apply (executedFunction_tracks None). reflexivity.
      * apply (IH (Some (t, a))).
        apply (executedFunction_tracks (Some (t0, a0))). exists id. auto.
    + rewrite (settle_idle t c Hc).
      apply (IH (Some (t, a))).
      apply (executedFunction_tracks None). exact Hc.
Qed.

Lemma settle_tracks t pending (c : Closure (Args:=Args) (Page:=Page)) :
  tracks wait pending c →
  (length (timers (settle func t c)) ≤ 1)%nat ∧
  ∀ tm, tm ∈ timers (settle func t c) → (t < due tm)%Z.
Proof.
  intros Hc. destruct pending as [[t0 a0]|]; simpl in Hc.
  - destruct Hc as (id & Hts & Hto).
    rewrite (settle_pending t c id _ a0 Hts Hto).
    destruct (Z.leb_spec (t0 + Z.max 0 wait) t) as [Hle|Hlt]; simpl.
    + split; [lia|]. intros tm Htm. apply not_elem_of_nil in Htm.
      contradiction.
    + rewrite Hts. simpl. split; [lia|]. intros tm Htm.
      apply list_elem_of_singleton in Htm. subst tm. exact Hlt.
  - rewrite (settle_idle t c Hc), Hc. simpl. split; [lia|].
    intros tm Htm. apply not_elem_of_nil in Htm. contradiction.
Qed.

Lemma trailing_edge_burst (until : Z) (t : Z) (a : Args)
    (l : list (Z * Args)) :
  ∀ t0 a0,
    burst wait t0 (l ++ [(t, a)]) →
    trailing_edge wait (Some (t0, a0)) (l ++ [(t, a)]) until
    = if (t + Z.max 0 wait <=? until)%Z
      then [((t + Z.max 0 wait)%Z, a)] else [].
Proof.
  induction l as [|[t1 a1] l IH]; intros t0 a0 Hb.
  - simpl in Hb |- *. destruct Hb as [Hlt _].
    destruct (Z.leb_spec (t0 + Z.max 0 wait) t); [lia|]. reflexivity.
  - simpl in Hb. destruct Hb as [Hlt Hb].
    change (trailing_edge wait (Some (t0, a0))
              (((t1, a1) :: l) ++ [(t, a)]) until)
      with (if (t0 + Z.max 0 wait <=? t1)%Z
            then ((t0 + Z.max 0 wait)%Z, a0)
                 :: trailing_edge wait (Some (t1, a1)) (l ++ [(t, a)]) until
            else trailing_edge wait (Some (t1, a1)) (l ++ [(t, a)]) until).
    destruct (Z.leb_spec (t0 + Z.max 0 wait) t1); [lia|].
    apply IH, Hb.
Qed.
(** *** Tasks, for a positive delay *)

Section Positive.
Hypothesis Hwait : (0 < wait)%Z.
Variable until : Z.

Lemma settle_follows pending from t p0
    (c : Closure (Args:=Args) (Page:=Page)) :
  follows func wait pending from p0 c → (from ≤ t)%Z →
  follows func wait pending t p0 (settle func t c) ∧
  (tracks wait pending (settle func t c) →
   match pending with
   | Some (t0, _) => timers (settle func t c) = [] ∨ (t < t0 + Z.max 0 wait)%Z
   | None => True
   end).
Proof.
  intros Hc Hfrom. destruct pending as [[t0 a0]|]; simpl in Hc.
  - destruct Hc as [[(id & Hts & Hto) Hpage]|(Hts & Hdue & Hpage)].
    + rewrite (settle_pending t c id _ a0 Hts Hto).
      destruct (Z.leb_spec (t0 + Z.max 0 wait) t) as [Hle|Hlt].
      * split; [|intros _; left; reflexivity].
        right. simpl. rewrite Hpage. auto.
      * split; [|intros _; right; exact Hlt].
        left. split; [exists id; auto|exact Hpage].
    + rewrite (settle_idle t c Hts).
      split; [|intros _; left; exact Hts].
      right. repeat split; [exact Hts|lia|exact Hpage].
  - destruct Hc as [Hts Hpage]. rewrite (settle_idle t c Hts).
    split; [|auto]. simpl. auto.
Qed.

(** The first call of a task. *)
Lemma first_call_follows pending from t a p0
    (c : Closure (Args:=Args) (Page:=Page)) :
  follows func wait pending from p0 c → (from ≤ t)%Z →
  ∃ p1,
    tracks wait (Some (t, a)) (call func wait c (t, a)) ∧
    page (call func wait c (t, a)) = p1 ∧
    ∀ m, apply_all func (trailing_edge wait pending ((t, a) :: m) until) p0
         = apply_all func (trailing_edge wait (Some (t, a)) m until) p1.
Proof.
  intros Hc Hfrom. rewrite call_unfold.
  destruct pending as [[t0 a0]|]; simpl in Hc.
  - destruct Hc as [[(id & Hts & Hto) Hpage]|(Hts & Hdue & Hpage)].
    + rewrite (settle_pending t c id _ a0 Hts Hto). simpl trailing_edge.
      destruct (Z.leb_spec (t0 + Z.max 0 wait) t) as [Hle|Hlt].
      * destruct (executedFunction_tracks None t a
                    (mkClosure (Some id) (nextTimerId c) []
                       (func (t0 + Z.max 0 wait)%Z a0 (page c))) eq_refl)
          as [Htr Hp].
        eexists. split; [exact Htr|]. split; [exact Hp|].
        intros m. simpl. rewrite Hpage. reflexivity.
      * destruct (executedFunction_tracks (Some (t0, a0)) t a c)
          as [Htr Hp]; [exists id; auto|].
        eexists. split; [exact Htr|]. split; [exact Hp|].
        intros m. rewrite Hpage. reflexivity.
    + rewrite (settle_idle t c Hts). simpl trailing_edge.
      destruct (executedFunction_tracks None t a c Hts) as [Htr Hp].
      eexists. split; [exact Htr|]. split; [exact Hp|].
      intros m. destruct (Z.leb_spec (t0 + Z.max 0 wait) t); [|lia].
      simpl. rewrite Hpage. reflexivity.
  - destruct Hc as [Hts Hpage]. rewrite (settle_idle t c Hts).
    destruct (executedFunction_tracks None t a c Hts) as [Htr Hp].
    eexists. split; [exact Htr|]. split; [exact Hp|].
    intros m. rewrite Hpage. reflexivity.
Qed.

(** The other calls of the task: each replaces the one before. *)
Lemma rest_follows t (argss : list Args) :
  ∀ a (c : Closure (Args:=Args) (Page:=Page)),
    tracks wait (Some (t, a)) c →
    let c' := foldl (λ c a, executedFunction wait t a c) c argss in
    ∃ a', tracks wait (Some (t, a')) c' ∧ page c' = page c ∧
          ∀ m, trailing_edge wait (Some (t, a)) (stamped (t, argss) ++ m) until
               = trailing_edge wait (Some (t, a')) m until.
Proof.
  induction argss as [|a1 argss IH]; intros a c Hc; simpl.
  - exists a. auto.
  - destruct (executedFunction_tracks (Some (t, a)) t a1 c Hc) as [Htr Hp].
    destruct (IH a1 _ Htr) as (a' & Htr' & Hp' & Heq).
    exists a'. split; [exact Htr'|]. split; [congruence|].
    intros m. unfold stamped. simpl.
    destruct (Z.leb_spec (t + Z.max 0 wait) t); [lia|].
    apply Heq.
Qed.

Lemma task_follows pending from t (argss : list Args) p0
    (c : Closure (Args:=Args) (Page:=Page)) :
  follows func wait pending from p0 c → (from ≤ t)%Z →
  ∃ pending' p1,
    follows func wait pending' t p1 (task func wait c (t, argss)) ∧
    ∀ m, apply_all func
           (trailing_edge wait pending (stamped (t, argss) ++ m) until) p0
         = apply_all func (trailing_edge wait pending' m until) p1.
Proof.
  intros Hc Hfrom. destruct argss as [|a argss].
  - exists pending, p0. split; [|reflexivity].
    apply (settle_follows pending from t p0 c Hc Hfrom).
  - destruct (first_call_follows pending from t a p0 c Hc Hfrom)
      as (p1 & Htr & Hp & Heq).
    destruct (rest_follows t argss a _ Htr) as (a' & Htr' & Hp' & Heq').
    exists (Some (t, a')), p1. split.
    + left. split; [exact Htr'|]. rewrite <- Hp. exact Hp'.
    + intros m.
      change (stamped (t, a :: argss) ++ m)%list
        with ((t, a) :: (stamped (t, argss) ++ m))%list.
      rewrite Heq, Heq'. reflexivity.
Qed.

Lemma tasks_follows (l : list (Z * list Args)) :
  ∀ pending from (c : Closure (Args:=Args) (Page:=Page)) p0,
    follows func wait pending from p0 c →
    ascending from l → Forall (λ ta, (ta.1 ≤ until)%Z) l →
    (from ≤ until)%Z →
    ∃ pending' from' p1,
      follows func wait pending' from' p1 (tasks func wait l c) ∧
      (from' ≤ until)%Z ∧
      apply_all func (trailing_edge wait pending (all_calls l) until) p0
      = apply_all func (trailing_edge wait pending' [] until) p1.
Proof.
  induction l as [|[t argss] l IH]; intros pending from c p0 Hc Hasc Hall Hfrom.
  - exists pending, from, p0. auto.
  - destruct Hasc as [Ht Hasc]. inversion Hall as [|? ? Htu Hall']; subst.
    simpl in Htu.
    destruct (task_follows pending from t argss p0 c Hc Ht)
      as (pending1 & p1 & Hc1 & Heq1).
    destruct (IH pending1 t _ p1 Hc1 Hasc Hall' Htu)
      as (pending' & from' & p2 & Hc2 & Hfrom' & Heq2).
    exists pending', from', p2. split; [exact Hc2|]. split; [exact Hfrom'|].
    rewrite all_calls_cons, Heq1. exact Heq2.
Qed.

Lemma settle_follows_final pending from p0
    (c : Closure (Args:=Args) (Page:=Page)) :
  follows func wait pending from p0 c → (from ≤ until)%Z →
  page (settle func until c)
  = apply_all func (trailing_edge wait pending [] until) p0 ∧
  (length (timers (settle func until c)) ≤ 1)%nat ∧
  ∀ tm, tm ∈ timers (settle func until c) → (until < due tm)%Z.
Proof.
  intros Hc Hfrom. destruct pending as [[t0 a0]|]; simpl in Hc.
  - destruct Hc as [[Htr Hpage]|(Hts & Hdue & Hpage)].
    + split; [|apply (settle_tracks until (Some (t0, a0)) c Htr)].
      destruct Htr as (id & Hts & Hto).
      rewrite (settle_pending until c id _ a0 Hts Hto). simpl.
      destruct (t0 + Z.max 0 wait <=? until)%Z; simpl; congruence.
    + split; [|apply (settle_tracks until None c Hts)].
      rewrite (settle_idle until c Hts). simpl.
      destruct (Z.leb_spec (t0 + Z.max 0 wait) until); [|lia].
      exact Hpage.
  - destruct Hc as [Hts Hpage].
    split; [|apply (settle_tracks until None c Hts)].
    rewrite (settle_idle until c Hts). exact Hpage.
Qed.
End Positive.
End Wrapper.





End DebounceFacts.

(** ** Facts about the rate of a throttled function *)

Module RateFacts.
Import Tasks Throttle ThrottleFacts Rate.

Section Spacing.
Context {Args : Type}.
Variable limit : Z.

Lemma leading_edge_sublist (l : list (Z * Args)) :
  ∀ last, sublist (leading_edge limit last l) l.
Proof.
  induction l as [|[t a] l IH]; intros last; simpl.
  - constructor.
  - destruct last as [t0|].
    + destruct (t <? t0 + limit)%Z.
      * apply sublist_cons, IH.
      * apply sublist_skip, IH.
    + apply sublist_skip, IH.
Qed.

Lemma leading_edge_after (l : list (Z * Args)) :
  ∀ t0 t a rest,
    leading_edge limit (Some t0) l = (t, a) :: rest → (t0 + limit ≤ t)%Z.
Proof.
  induction l as [|[t1 a1] l IH]; intros t0 t a rest H; simpl in H.
  - discriminate.
  - destruct (Z.ltb_spec t1 (t0 + limit)).
    + apply (IH t0 t a rest H).
    + injection H as <- <- _. assumption.
Qed.

Lemma leading_edge_spaced (l : list (Z * Args)) :
  ∀ last, spaced limit (leading_edge limit last l).
Proof.
  induction l as [|[t a] l IH]; intros last; simpl.
  - exact I.
  - assert (Hcons : spaced limit ((t, a) :: leading_edge limit (Some t) l)).
    { simpl. split; [|apply IH].
      destruct (leading_edge limit (Some t) l) as [|[t' a'] rest] eqn:Hrest;
        [exact I|].
      apply (leading_edge_after l t t' a' rest Hrest). }
    destruct last as [t0|]; [|exact Hcons].
    destruct (t <? t0 + limit)%Z; [apply IH|exact Hcons].
Qed.

Lemma leading_edge_head (l : list (Z * Args)) :
  head (leading_edge limit None l) = head l.
Proof. destruct l as [|[t a] l]; reflexivity. Qed.
End Spacing.



End RateFacts.

(** ** Facts about the navigation *)

Module NavFacts.
Import Dom Nav DomFacts Tasks Throttle ThrottleFacts.

Lemma getAttribute_setAttribute k v e :
  getAttribute k (setAttribute k v e) = Some v.
Proof. unfold getAttribute, setAttribute. simpl. apply lookup_insert_eq. Qed.

Lemma in_sync_openMobileMenu p : in_sync (openMobileMenu p).
Proof.
  unfold in_sync, openMobileMenu, classList_contains. simpl.
  rewrite !contains_tokens_add.
  split; [reflexivity|]. split; [reflexivity|].
  split; (split; [reflexivity|]); intros _.
  - apply lookup_insert_eq.
  - reflexivity.
Qed.

Lemma in_sync_closeMobileMenu p : in_sync (closeMobileMenu p).
Proof.
  unfold in_sync, closeMobileMenu, classList_contains. simpl.
  rewrite !contains_tokens_remove.
  split; [reflexivity|]. split; [reflexivity|].
  split; split; try discriminate.
  unfold getAttribute. simpl. rewrite lookup_insert_eq. discriminate.
Qed.

Lemma in_sync_toggleMobileMenu p : in_sync (toggleMobileMenu p).
Proof.
  unfold toggleMobileMenu.
  destruct (isNavOpen p);
    [apply in_sync_closeMobileMenu|apply in_sync_openMobileMenu].
Qed.

Section Handlers.
Variable selects : string → bool.

Lemma in_sync_handleNavigationClick l p :
  in_sync p → in_sync (handleNavigationClick selects l p).
Proof.
  intros Hp. unfold handleNavigationClick.
  destruct (getAttribute "href" (link l)) as [href|]; [|exact Hp].
  destruct (String.prefix "#" href && selects href); [|exact Hp].
  destruct (isNavOpen p) eqn:Hopen.
  - apply (in_sync_closeMobileMenu p).
  - exact Hp.
Qed.

Lemma in_sync_clickOutside inside p :
  in_sync p → in_sync (clickOutside inside p).
Proof.
  intros Hp. unfold clickOutside.
  destruct (isNavOpen p && negb inside);
    [apply in_sync_closeMobileMenu|exact Hp].
Qed.

Lemma in_sync_step p ev : in_sync p → in_sync (step selects p ev).
Proof.
  intros Hp. destruct ev as [[| |i|]|key|width]; simpl.
  - apply in_sync_clickOutside, in_sync_toggleMobileMenu.
  - apply in_sync_clickOutside, Hp.
  - destruct (navLinks p !! i) as [l|]; [|exact Hp].
    apply in_sync_clickOutside, in_sync_handleNavigationClick, Hp.
  - apply in_sync_clickOutside, Hp.
  - unfold keydownListener.
    destruct (bool_decide (key = "Escape") && isNavOpen p);
      [apply in_sync_closeMobileMenu|exact Hp].
  - unfold resizeListener.
    destruct ((768 <? width)%Z && isNavOpen p);
      [apply in_sync_closeMobileMenu|exact Hp].
Qed.

Lemma isNavOpen_handleNavigationClick l p :
  isNavOpen (handleNavigationClick selects l p) = true → isNavOpen p = true.
Proof.
  unfold handleNavigationClick.
  destruct (getAttribute "href" (link l)) as [href|]; [|auto].
  destruct (String.prefix "#" href && selects href); [|auto].
  destruct (isNavOpen p) eqn:Hp; [reflexivity|]. simpl. rewrite Hp. auto.
Qed.

Lemma isNavOpen_clickOutside inside p :
  isNavOpen (clickOutside inside p) = true → isNavOpen p = true.
Proof.
  unfold clickOutside. destruct (isNavOpen p) eqn:Hp; [reflexivity|].
  simpl. rewrite Hp. auto.
Qed.
End Handlers.

(** X: the mobile menu never gets out of step with itself.  On a page
    whose markup has the menu closed, after every sequence of clicks,
    key presses and resizes: the flag [STATE.isNavOpen], the [active]
    class of the menu, the [active] class of the button, the value
    [true] of [aria-expanded] and the scroll lock of the body are all on
    or all off. *)
Theorem menu_stays_in_sync (selects : string → bool) (evs : list event)
    (p : Page) :
  in_sync p → in_sync (run selects evs p).
Proof.
  revert p. induction evs as [|ev evs IH]; intros p Hp; simpl; [exact Hp|].
  apply IH, in_sync_step, Hp.
Qed.

(** X: only a click on the button opens the menu, and each of the
    following closes it: a click on the button while it is open, a
    click outside menu and button, a click on a navigation link whose
    target exists (or that lies outside the menu), the Escape key, and
    a resize to more than 768 pixels. *)
Theorem menu_opens_by_button_only (selects : string → bool) (p : Page)
    (ev : event) :
  (isNavOpen p = false → isNavOpen (step selects p ev) = true →
   ev = Click Button) ∧
  (closes selects p ev → isNavOpen (step selects p ev) = false).
Proof.
  split.
  - intros Hclosed Hopen. destruct ev as [[| |i|]|key|width]; simpl in Hopen.
    + reflexivity.
    + apply isNavOpen_clickOutside in Hopen. congruence.
    + destruct (navLinks p !! i) as [l|]; [|congruence].
      apply isNavOpen_clickOutside, isNavOpen_handleNavigationClick in Hopen.
      congruence.
    + apply isNavOpen_clickOutside in Hopen. congruence.
    + unfold keydownListener in Hopen. rewrite Hclosed in Hopen.
      rewrite andb_false_r in Hopen. congruence.
    + unfold resizeListener in Hopen. rewrite Hclosed in Hopen.
      rewrite andb_false_r in Hopen. congruence.
  - intros Hev. destruct ev as [[| |i|]|key|width]; simpl in Hev |- *.
    + unfold toggleMobileMenu. rewrite Hev. reflexivity.
    + contradiction.
    + destruct Hev as (l & -> & Hl). unfold clickOutside.
      destruct (isNavOpen (handleNavigationClick selects l p)) eqn:Hopen;
        [|simpl; exact Hopen].
      destruct Hl as [Hout|(href & Hhref & Hprefix & Hsel)].
      * rewrite Hout. reflexivity.
      * exfalso. unfold handleNavigationClick in Hopen.
        rewrite Hhref, Hprefix, Hsel in Hopen. simpl in Hopen.
        destruct (isNavOpen p) eqn:Hp; simpl in Hopen; congruence.
    + unfold clickOutside. destruct (isNavOpen p) eqn:Hp; [reflexivity|].
      simpl. exact Hp.
    + subst key. unfold keydownListener.
      rewrite bool_decide_eq_true_2 by reflexivity. simpl.
      destruct (isNavOpen p) eqn:Hp; [reflexivity|exact Hp].
    + unfold resizeListener.
      destruct (Z.ltb_spec 768 width); [|lia]. simpl.
      destruct (isNavOpen p) eqn:Hp; [reflexivity|exact Hp].
Qed.

Lemma markLink_active activeHref l :
  classList_contains "active" (link (markLink activeHref l)) = true
  ↔ getAttribute "href" (link l) = Some activeHref.
Proof.
  unfold markLink. simpl.
  change (getAttribute "href" (classList_remove "active" (link l)))
    with (getAttribute "href" (link l)).
  destruct (decide (getAttribute "href" (link l) = Some activeHref))
    as [Heq|Hne].
  - split; [intros _; exact Heq|intros _].
    apply contains_tokens_add.
  - split; [|contradiction].
    unfold classList_contains, classList_remove. simpl.
    rewrite contains_tokens_remove. discriminate.
Qed.

Lemma markLink_others activeHref l c :
  c ≠ "active" →
  classList_contains c (link (markLink activeHref l))
  = classList_contains c (link l).
Proof.
  intros Hc. unfold markLink. simpl.
  destruct (decide _).
  - unfold classList_contains, classList_add, classList_remove. simpl.
    rewrite contains_tokens_add_ne by exact Hc.
    apply contains_tokens_remove_ne. exact Hc.
  - apply contains_tokens_remove_ne. exact Hc.
Qed.

Lemma markLink_keeps activeHref l :
  attributes (link (markLink activeHref l)) = attributes (link l) ∧
  textContent (link (markLink activeHref l)) = textContent (link l) ∧
  insideMenu (markLink activeHref l) = insideMenu l.
Proof. unfold markLink. simpl. destruct (decide _); auto. Qed.

(** X: [updateActiveNavLink] marks exactly the links that point to
    [activeHref].  Afterwards a navigation link carries the class
    [active] if and only if its [href] equals [activeHref], whatever it
    carried before; its other classes, its attributes and its text are
    as before, and so is the rest of the page. *)
Theorem updateActiveNavLink_marks_exactly (activeHref : string) (p : Page) :
  let p' := updateActiveNavLink activeHref p in
  length (navLinks p') = length (navLinks p) ∧
  (∀ i l, navLinks p !! i = Some l →
     ∃ l', navLinks p' !! i = Some l' ∧
           (classList_contains "active" (link l') = true
            ↔ getAttribute "href" (link l) = Some activeHref) ∧
           (∀ c, c ≠ "active" →
                 classList_contains c (link l')
                 = classList_contains c (link l)) ∧
           attributes (link l') = attributes (link l) ∧
           textContent (link l') = textContent (link l)) ∧
  isNavOpen p' = isNavOpen p ∧ navMenu p' = navMenu p ∧
  mobileMenuBtn p' = mobileMenuBtn p ∧ navbar p' = navbar p.
Proof.
  simpl. split; [apply length_fmap|]. split; [|auto].
  intros i l Hl. exists (markLink activeHref l).
  split; [rewrite list_lookup_fmap, Hl; reflexivity|].
  split; [apply markLink_active|].
  split; [intros c Hc; apply markLink_others, Hc|].
  destruct (markLink_keeps activeHref l) as (Ha & Ht & _). auto.
Qed.

(** X: a click on a navigation link whose [href] starts with [#] and
    selects an element navigates: the menu is closed and in step, the
    target is handed to [smoothScrollTo], the location is pushed, and
    the links marked [active] are exactly those with that [href]. *)
Theorem navigation_click_navigates (selects : string → bool) (p : Page)
    (i : nat) (l : NavLink) (href : string) :
  navLinks p !! i = Some l →
  getAttribute "href" (link l) = Some href →
  String.prefix "#" href = true → selects href = true →
  let p' := step selects p (Click (Link i)) in
  isNavOpen p' = false ∧
  (in_sync p → in_sync p') ∧
  scrolledTo p' = (scrolledTo p ++ [href])%list ∧
  location p' = Some href ∧
  ∀ j k, navLinks p !! j = Some k →
    ∃ k', navLinks p' !! j = Some k' ∧
          (classList_contains "active" (link k') = true
           ↔ getAttribute "href" (link k) = Some href).
Proof.
  intros Hl Hhref Hprefix Hsel. simpl. rewrite Hl.
  assert (Hstep :
    ∃ q, handleNavigationClick selects l p
         = pushState href (updateActiveNavLink href (smoothScrollTo href q))
         ∧ isNavOpen q = false ∧ navLinks q = navLinks p ∧
           scrolledTo q = scrolledTo p ∧ (in_sync p → in_sync q)).
  { unfold handleNavigationClick. rewrite Hhref, Hprefix, Hsel. simpl.
    destruct (isNavOpen p) eqn:Hopen.
    - exists (closeMobileMenu p). split; [reflexivity|].
      split; [reflexivity|]. split; [reflexivity|]. split; [reflexivity|].
      intros _. apply in_sync_closeMobileMenu.
    - exists p. auto. }
  destruct Hstep as (q & -> & Hq & Hlinks & Hscrolled & Hsync).
  unfold clickOutside. simpl. rewrite Hq. simpl.
  split; [exact Hq|]. split; [exact Hsync|].
  split; [rewrite Hscrolled; reflexivity|]. split; [reflexivity|].
  intros j k Hk. exists (markLink href k).
  split; [rewrite Hlinks, list_lookup_fmap, Hk; reflexivity|].
  apply markLink_active.
Qed.

Lemma tokens_remove_add_remove (c : string) (l : list string) :
  tokens_remove c (tokens_add c (tokens_remove c l)) = tokens_remove c l.
Proof.
  unfold tokens_add. rewrite contains_tokens_remove.
  unfold tokens_remove. rewrite filter_app, list_filter_filter.
  rewrite filter_cons_False by (intros H; apply H; reflexivity).
  rewrite filter_nil, app_nil_r. apply list_filter_iff. intros x. tauto.
Qed.

Lemma tokens_remove_twice (c : string) (l : list string) :
  tokens_remove c (tokens_remove c l) = tokens_remove c l.
Proof.
  unfold tokens_remove. rewrite list_filter_filter.
  apply list_filter_iff. intros x. tauto.
Qed.

Lemma markLink_twice h1 h2 l : markLink h2 (markLink h1 l) = markLink h2 l.
Proof.
  unfold markLink. destruct l as [[text attrs classes] inside]. simpl.
  unfold getAttribute, classList_remove, classList_add. simpl.
  destruct (decide (attrs !! "href" = Some h1)); simpl;
    rewrite ?tokens_remove_add_remove, ?tokens_remove_twice; reflexivity.
Qed.

Lemma updateActiveNavLink_twice h1 h2 p :
  updateActiveNavLink h2 (updateActiveNavLink h1 p) = updateActiveNavLink h2 p.
Proof.
  unfold updateActiveNavLink. simpl. f_equal.
  rewrite <- list_fmap_compose. apply list_fmap_ext.
  intros i l _. apply markLink_twice.
Qed.

Lemma sectionObserverCallback_last (entries : list SectionEntry) :
  ∀ current p,
  match last (filter (λ entry, isIntersecting entry = true) entries) with
  | Some entry =>
      sectionObserverCallback entries (current, p)
      = (targetId entry, updateActiveNavLink ("#" +:+ targetId entry) p)
  | None => sectionObserverCallback entries (current, p) = (current, p)
  end.
Proof.
  induction entries as [|entry entries IH] using rev_ind; intros current p.
  - reflexivity.
  - unfold sectionObserverCallback. rewrite foldl_app, filter_app. simpl.
    fold (sectionObserverCallback entries (current, p)).
    specialize (IH current p).
    destruct (isIntersecting entry) eqn:Hentry.
    + rewrite filter_cons_True by exact Hentry. rewrite filter_nil.
      rewrite last_snoc.
      destruct (last (filter _ entries)) as [previous|]; rewrite IH; simpl;
        [rewrite updateActiveNavLink_twice|]; reflexivity.
    + rewrite filter_cons_False by (rewrite Hentry; discriminate).
      rewrite filter_nil, app_nil_r. exact IH.
Qed.

(** X: the section observer of version 2.0.0 lets the last intersecting
    entry win.  After a callback, [STATE.currentSection] is the id of the
    last entry that intersects, and the navigation links are marked as
    one call of [updateActiveNavLink] for that section marks them: a link
    is [active] if and only if its [href] is [#] followed by that id.
    A callback without an intersecting entry changes nothing. *)
Theorem section_detection_last_wins (entries : list SectionEntry)
    (current : string) (p : Page) :
  let current' := (sectionObserverCallback entries (current, p)).1 in
  let p' := (sectionObserverCallback entries (current, p)).2 in
  match last (filter (λ entry, isIntersecting entry = true) entries) with
  | Some entry =>
      current' = targetId entry ∧
      p' = updateActiveNavLink ("#" +:+ targetId entry) p ∧
      ∀ i l, navLinks p !! i = Some l →
        ∃ l', navLinks p' !! i = Some l' ∧
              (classList_contains "active" (link l') = true
               ↔ getAttribute "href" (link l)
                 = Some ("#" +:+ targetId entry))
  | None => current' = current ∧ p' = p
  end.
Proof.
  cbv zeta. pose proof (sectionObserverCallback_last entries current p) as H.
  destruct (last (filter _ entries)) as [entry|]; rewrite H; simpl.
  - split; [reflexivity|]. split; [reflexivity|].
    intros i l Hl. exists (markLink ("#" +:+ targetId entry) l).
    split; [rewrite list_lookup_fmap, Hl; reflexivity|].
    apply markLink_active.
  - auto.
Qed.

(** A visit on a small screen: the menu is opened, a link is followed,
    the menu is opened again and left with Escape. *)
Lemma menu_stays_in_sync_visit :
  in_sync markup ∧
  in_sync (run (λ _, true)
             [Click Button; Click (Link 1); Click Button; KeyDown "Escape"]
             markup).
Proof.
  assert (H : in_sync markup).
  { unfold in_sync. simpl. split; [reflexivity|]. split; [reflexivity|].
    split; split; discriminate. }
  split; [exact H|]. apply (menu_stays_in_sync (λ _, true)), H.
Defined.

(** The open menu and a click on the second link. *)
Lemma navigation_click_navigates_about :
  let p := openMobileMenu markup in
  let p' := step (λ _, true) p (Click (Link 1)) in
  isNavOpen p = true ∧ isNavOpen p' = false ∧ location p' = Some "#about".
Proof.
  intros p p'.
  pose proof (navigation_click_navigates (λ _, true) p 1 _ "#about"
                eq_refl eq_refl eq_refl eq_refl) as H.
  cbv zeta in H. destruct H as (Hclosed & _ & _ & Hlocation & _).
  split; [reflexivity|]. split; [exact Hclosed|exact Hlocation].
Defined.

(** *** The scroll listeners behind [throttle] *)

Section OffsetClass.
Variable f : Q → Element → Element.
Variable threshold : Q.
Variable c : string.
Hypothesis f_above :
  ∀ off e, (threshold < off)%Q → f off e = classList_add c e.
Hypothesis f_below :
  ∀ off e, (off <= threshold)%Q → f off e = classList_remove c e.

Lemma offset_class off e :
  classList_contains c (f off e) = true ↔ (threshold < off)%Q.
Proof.
  destruct (Qlt_le_dec threshold off) as [Hlt|Hle].
  - rewrite (f_above off e Hlt). split; [intros _; exact Hlt|intros _].
    apply contains_tokens_add.
  - rewrite (f_below off e Hle). unfold classList_contains, classList_remove.
    simpl. rewrite contains_tokens_remove. split; [discriminate|].
    intros Hlt. exfalso. apply (Qlt_not_le _ _ Hlt Hle).
Qed.

Lemma offset_class_last (l : list (Z * Q)) (e : Element) :
  match last l with
  | Some (_, off) =>
      classList_contains c (apply_all (plain f) l e) = true
      ↔ (threshold < off)%Q
  | None => apply_all (plain f) l e = e
  end.
Proof.
  destruct l as [|x l _] using rev_ind; [reflexivity|].
  rewrite last_snoc. destruct x as [t off].
  unfold apply_all. rewrite foldl_app. simpl. apply offset_class.
Qed.
End OffsetClass.

(** X: behind [throttle], the scroll classes follow the last call that
    was let through, not the last scroll position.  After a sequence of
    [scroll] events the navigation bar carries [scrolled] if and only if
    the scroll offset was above 20 at the last event the 10 ms throttle
    let through; and the back-to-top button carries [show] if and only
    if the offset was above [showOffset] at the last event the 100 ms
    throttle let through. *)
Theorem scroll_classes_follow_throttle (from : Z) (l : list (Z * Q))
    (navbar backToTopBtn : Element) :
  ascending from l →
  match last (leading_edge 10 None l) with
  | Some (_, pageYOffset) =>
      classList_contains "scrolled"
        (page (calls (plain scrollDetection) 10 l (throttle navbar))) = true
      ↔ (20 < pageYOffset)%Q
  | None => page (calls (plain scrollDetection) 10 l (throttle navbar)) = navbar
  end ∧
  match last (leading_edge 100 None l) with
  | Some (_, pageYOffset) =>
      classList_contains "show"
        (page (calls (plain backToTopDetection) 100 l (throttle backToTopBtn))) = true
      ↔ (showOffset < pageYOffset)%Q
  | None =>
      page (calls (plain backToTopDetection) 100 l (throttle backToTopBtn))
      = backToTopBtn
  end.
Proof.
  intros Hasc. split.
  - rewrite (calls_leading_edge (plain scrollDetection) 10
               (plain_returns scrollDetection) l None from
               (throttle navbar)); [|simpl; auto|exact Hasc].
    apply offset_class_last.
    + intros off e Hlt. unfold scrollDetection.
      destruct (Qlt_le_dec 20 off) as [_|Hle]; [reflexivity|].
      exfalso. apply (Qlt_not_le _ _ Hlt Hle).
    + intros off e Hle. unfold scrollDetection.
      destruct (Qlt_le_dec 20 off) as [Hlt|_]; [|reflexivity].
      exfalso. apply (Qlt_not_le _ _ Hlt Hle).
  - rewrite (calls_leading_edge (plain backToTopDetection) 100
               (plain_returns backToTopDetection) l None from
               (throttle backToTopBtn)); [|simpl; auto|exact Hasc].
    apply offset_class_last.
    + intros off e Hlt. unfold backToTopDetection.
      destruct (Qlt_le_dec showOffset off) as [_|Hle]; [reflexivity|].
      exfalso. apply (Qlt_not_le _ _ Hlt Hle).
    + intros off e Hle. unfold backToTopDetection.
      destruct (Qlt_le_dec showOffset off) as [Hlt|_]; [|reflexivity].
      exfalso. apply (Qlt_not_le _ _ Hlt Hle).
Qed.

(** The page is scrolled down and, 5 ms later, back to the top: the
    second event is dropped and the bar keeps [scrolled]. *)
Lemma scroll_classes_follow_throttle_stale :
  ascending 0 [(0%Z, 100%Q); (5%Z, 0%Q)] ∧
  classList_contains "scrolled"
    (page (calls (plain scrollDetection) 10 [(0%Z, 100%Q); (5%Z, 0%Q)]
             (throttle (navbar markup)))) = true.
Proof.
  assert (Hasc : ascending 0 [(0%Z, 100%Q); (5%Z, 0%Q)]).
  { simpl. lia. }
  split; [exact Hasc|].
  pose proof (scroll_classes_follow_throttle 0 _ (navbar markup)
                (navbar markup) Hasc) as [H _].
  simpl last in H. apply H. reflexivity.
Defined.

End NavFacts.

(** ** Facts about the contact form *)

Module FormFacts.
Import Dom Form DomFacts.

(** *** The matcher *)

Lemma matches_nullable r : nullable r = true ↔ matches r [].
Proof.
  split.
  - induction r as [| |p|r1 IH1 r2 IH2|r1 IH1 r2 IH2|r IH]; simpl;
      intros H; try discriminate.
    + constructor.
    + apply orb_true_iff in H as [H|H];
        [apply matches_Alt_l|apply matches_Alt_r]; auto.
    + apply andb_true_iff in H as [H1 H2].
      apply (matches_Cat r1 r2 [] []); auto.
    + constructor.
  - intros H. remember [] as s eqn:Hs.
    induction H as [|p c Hp|r1 r2 s H IH|r1 r2 s H IH
                    |r1 r2 s1 s2 H1 IH1 H2 IH2| |r s1 s2 H1 IH1 H2 IH2];
      simpl; try reflexivity; try discriminate.
    + rewrite IH by exact Hs. reflexivity.
    + rewrite IH by exact Hs. apply orb_true_r.
    + apply app_eq_nil in Hs as [-> ->].
      rewrite IH1, IH2 by reflexivity. reflexivity.
Qed.

Lemma matches_Star_app r s1 s2 :
  matches (Star r) s1 → matches (Star r) s2 → matches (Star r) (s1 ++ s2)%list.
Proof.
  intros H1 H2. remember (Star r) as r' eqn:Hr.
  induction H1 as [| | | | | |r0 u v Hu _ Hv IHv]; try discriminate.
  - exact H2.
  - injection Hr as ->. rewrite <- app_assoc.
    apply matches_Star_cons; [exact Hu|]. apply IHv; [reflexivity|exact H2].
Qed.

(** A non-empty match of [Star r] starts with a non-empty match of
    [r]. *)
Lemma matches_Star_uncons r c s :
  matches (Star r) (c :: s) →
  ∃ s1 s2, s = (s1 ++ s2)%list ∧ matches r (c :: s1) ∧ matches (Star r) s2.
Proof.
  intros H. remember (Star r) as r' eqn:Hr. remember (c :: s) as cs eqn:Hcs.
  revert c s Hcs.
  induction H as [| | | | | |r0 u v Hu _ Hv IHv]; intros a w Hcs;
    try discriminate.
  injection Hr as ->.
  destruct u as [|a' u].
  - simpl in Hcs. apply (IHv eq_refl a w Hcs).
  - simpl in Hcs. injection Hcs as -> <-.
    exists u, v. auto.
Qed.

Lemma matches_Cat_inv r1 r2 s :
  matches (Cat r1 r2) s →
  ∃ s1 s2, s = (s1 ++ s2)%list ∧ matches r1 s1 ∧ matches r2 s2.
Proof. intros H. inversion H; subst. eauto. Qed.

Lemma matches_Alt_inv r1 r2 s :
  matches (Alt r1 r2) s → matches r1 s ∨ matches r2 s.
Proof. intros H. inversion H; subst; auto. Qed.

Lemma matches_Class_inv p s :
  matches (Class p) s → ∃ c, s = [c] ∧ p c = true.
Proof. intros H. inversion H; subst. eauto. Qed.

Lemma matches_derivative c r : ∀ s,
  matches (derivative c r) s ↔ matches r (c :: s).
Proof.
  induction r as [| |p|r1 IH1 r2 IH2|r1 IH1 r2 IH2|r IH]; intros s; simpl.
  - split; intros H; inversion H.
  - split; intros H; inversion H.
  - destruct (p c) eqn:Hp.
    + split; intros H.
      * inversion H; subst. constructor. exact Hp.
      * apply matches_Class_inv in H as (c' & [= -> ->] & _). constructor.
    + split; intros H; [inversion H|].
      apply matches_Class_inv in H as (c' & [= -> ->] & Hp'). congruence.
  - split; intros H; apply matches_Alt_inv in H as [H|H].
    + apply matches_Alt_l, IH1, H.
    + apply matches_Alt_r, IH2, H.
    + apply matches_Alt_l, IH1, H.
    + apply matches_Alt_r, IH2, H.
  - assert (Hcat : ∀ s, matches (Cat (derivative c r1) r2) s →
                        matches (Cat r1 r2) (c :: s)).
    { intros s' H. apply matches_Cat_inv in H as (s1 & s2 & -> & H1 & H2).
      apply IH1 in H1.
      apply (matches_Cat r1 r2 (c :: s1) s2); assumption. }
    assert (Hsplit : ∀ s, matches (Cat r1 r2) (c :: s) →
              matches (Cat (derivative c r1) r2) s ∨
              (matches r1 [] ∧ matches r2 (c :: s))).
    { intros s' H. apply matches_Cat_inv in H as (s1 & s2 & Heq & H1 & H2).
      destruct s1 as [|c1 s1].
      - right. simpl in Heq. subst. auto.
      - left. simpl in Heq. injection Heq as <- ->.
        apply matches_Cat; [apply IH1; exact H1|exact H2]. }
    destruct (nullable r1) eqn:Hn.
    + split; intros H.
      * apply matches_Alt_inv in H as [H|H]; [apply Hcat; assumption|].
        apply (matches_Cat r1 r2 [] (c :: s)).
        -- apply matches_nullable, Hn.
        -- apply IH2. assumption.
      * destruct (Hsplit s H) as [Hl|[_ Hr]].
        -- apply matches_Alt_l, Hl.
        -- apply matches_Alt_r, IH2, Hr.
    + split; intros H.
      * apply Hcat, H.
      * destruct (Hsplit s H) as [Hl|[Hnull _]]; [exact Hl|].
        apply matches_nullable in Hnull. congruence.
  - split; intros H.
    + apply matches_Cat_inv in H as (s1 & s2 & -> & H1 & H2).
      apply IH in H1.
      apply (matches_Star_cons r (c :: s1) s2); assumption.
    + apply matches_Star_uncons in H as (s1 & s2 & -> & H1 & H2).
      apply matches_Cat; [apply IH; exact H1|exact H2].
Qed.

Lemma test_matches s : ∀ r, test r s = true ↔ matches r s.
Proof.
  induction s as [|c s IH]; intros r; simpl.
  - apply matches_nullable.
  - rewrite IH. apply matches_derivative.
Qed.

(** *** The email pattern *)

Lemma matches_Star_Class p s :
  matches (Star (Class p)) s ↔ Forall (λ c, p c = true) s.
Proof.
  split.
  - intros H. remember (Star (Class p)) as r eqn:Hr.
    induction H as [| | | | | |r0 u v Hu _ Hv IHv]; try discriminate.
    + constructor.
    + injection Hr as ->.
      apply matches_Class_inv in Hu as (c & -> & Hc).
      simpl. constructor; [exact Hc|]. apply IHv. reflexivity.
  - induction 1 as [|c s Hc _ IH].
    + constructor.
    + apply (matches_Star_cons (Class p) [c] s); [|exact IH].
      constructor. exact Hc.
Qed.

Lemma matches_Plus_Class p s :
  matches (Plus (Class p)) s ↔ s ≠ [] ∧ Forall (λ c, p c = true) s.
Proof.
  unfold Plus. split.
  - intros H. apply matches_Cat_inv in H as (s1 & s2 & -> & H1 & H2).
    apply matches_Class_inv in H1 as (c & -> & Hc).
    apply matches_Star_Class in H2.
    split; [discriminate|]. simpl. constructor; assumption.
  - intros [Hne H]. destruct s as [|c s]; [congruence|].
    apply Forall_cons in H as [Hc H].
    apply (matches_Cat (Class p) (Star (Class p)) [c] s).
    + constructor. exact Hc.
    + apply matches_Star_Class, H.
Qed.

Lemma matches_code_unit (a : N) s :
  matches (Class (N.eqb a)) s ↔ s = [a].
Proof.
  split.
  - intros H. apply matches_Class_inv in H as (c & -> & Hc).
    apply N.eqb_eq in Hc. subst. reflexivity.
  - intros ->. constructor. apply N.eqb_refl.
Qed.

Lemma isValidEmail_shape (s : jsstring) :
  isValidEmail s = true
  ↔ ∃ u x y, s = (u ++ [64%N] ++ x ++ [46%N] ++ y)%list ∧
             word u ∧ word x ∧ word y.
Proof.
  unfold isValidEmail. rewrite test_matches. unfold emailRegex, word. split.
  - intros H.
    apply matches_Cat_inv in H as (u & s1 & -> & Hu & H).
    apply matches_Cat_inv in H as (a & s2 & -> & Ha & H).
    apply matches_Cat_inv in H as (x & s3 & -> & Hx & H).
    apply matches_Cat_inv in H as (d & y & -> & Hd & Hy).
    apply matches_code_unit in Ha, Hd. subst a d.
    apply matches_Plus_Class in Hu, Hx, Hy.
    exists u, x, y. auto.
  - intros (u & x & y & -> & Hu & Hx & Hy).
    apply matches_Plus_Class in Hu, Hx, Hy.
    repeat (apply matches_Cat; [assumption || (apply matches_code_unit;
                                                reflexivity)|]).
    exact Hy.
Qed.

Lemma word_no_at u : word u → count_occ N.eq_dec u 64%N = 0.
Proof.
  intros [_ H]. induction H as [|c u Hc _ IH]; [reflexivity|].
  simpl. destruct (N.eq_dec c 64%N) as [->|_]; [discriminate|exact IH].
Qed.

Lemma word_no_space u :
  word u → Forall (λ c, isWhiteSpace c = false) u.
Proof.
  intros [_ H]. eapply Forall_impl; [exact H|]. intros c Hc. simpl in Hc.
  unfold notSpaceOrAt in Hc. apply negb_true_iff, orb_false_iff in Hc.
  tauto.
Qed.

Lemma word_length u : word u → (1 ≤ length u)%nat.
Proof. intros [Hne _]. destruct u; [congruence|simpl; lia]. Qed.

(** X: what [isValidEmail] accepts.  A string passes if and only if it
    is a word, [@], a word, a dot and a word, where a word is one or
    more code units that are neither white space nor [@] (a dot may be
    part of a word).  So an accepted address has exactly one [@], no
    white space, and five code units or more. *)
Theorem isValidEmail_accepts (s : jsstring) :
  (isValidEmail s = true
   ↔ ∃ u x y, s = (u ++ [64%N] ++ x ++ [46%N] ++ y)%list ∧
              word u ∧ word x ∧ word y) ∧
  (isValidEmail s = true →
   count_occ N.eq_dec s 64%N = 1 ∧
   Forall (λ c, isWhiteSpace c = false) s ∧
   (5 ≤ length s)%nat).
Proof.
  split; [apply isValidEmail_shape|].
  intros H. apply isValidEmail_shape in H as (u & x & y & -> & Hu & Hx & Hy).
  split; [|split].
  - rewrite !count_occ_app. simpl.
    rewrite (word_no_at u Hu), (word_no_at x Hx), (word_no_at y Hy).
    reflexivity.
  - repeat (apply Forall_app; split); try (apply word_no_space; assumption);
      repeat constructor.
  - rewrite !length_app. simpl.
    pose proof (word_length u Hu). pose proof (word_length x Hx).
    pose proof (word_length y Hy). lia.
Qed.

(** *** Trimming *)

Lemma trimStart_blank s :
  trimStart s = [] ↔ Forall (λ c, isWhiteSpace c = true) s.
Proof.
  induction s as [|c s IH]; simpl.
  - split; [constructor|reflexivity].
  - destruct (isWhiteSpace c) eqn:Hc.
    + rewrite IH. split; [intros H; constructor; assumption|].
      intros H. apply Forall_cons in H as [_ H]. exact H.
    + split; [discriminate|]. intros H. apply Forall_cons in H as [H _].
      congruence.
Qed.

Lemma trimStart_starts s :
  match trimStart s with
  | [] => True
  | c :: _ => isWhiteSpace c = false
  end.
Proof.
  induction s as [|c s IH]; simpl; [exact I|].
  destruct (isWhiteSpace c) eqn:Hc; [exact IH|exact Hc].
Qed.

Lemma trim_blank s :
  trim s = [] ↔ Forall (λ c, isWhiteSpace c = true) s.
Proof.
  unfold trim, trimEnd. rewrite <- trimStart_blank. split.
  - intros H.
    assert (Hrev : trimStart (rev (trimStart s)) = []).
    { rewrite <- (rev_involutive (trimStart _)), H. reflexivity. }
    apply trimStart_blank in Hrev.
    pose proof (trimStart_starts s) as Hstart.
    destruct (trimStart s) as [|c t] eqn:Ht; [reflexivity|].
    exfalso. apply Forall_rev in Hrev. rewrite rev_involutive in Hrev.
    apply Forall_cons in Hrev as [Hc _]. congruence.
  - intros ->. reflexivity.
Qed.

(** *** Marks on a control *)

Lemma marked_success l :
  contains "success" (tokens_add "success" (tokens_remove "error" l)) = true ∧
  contains "error" (tokens_add "success" (tokens_remove "error" l)) = false.
Proof.
  split; [apply contains_tokens_add|].
  rewrite contains_tokens_add_ne by discriminate.
  apply contains_tokens_remove.
Qed.

Lemma marked_error l :
  contains "success" (tokens_add "error" (tokens_remove "success" l)) = false ∧
  contains "error" (tokens_add "error" (tokens_remove "success" l)) = true.
Proof.
  split; [|apply contains_tokens_add].
  rewrite contains_tokens_add_ne by discriminate.
  apply contains_tokens_remove.
Qed.

Lemma marked_others (a b c : string) l :
  c ≠ a → c ≠ b →
  contains c (tokens_add a (tokens_remove b l)) = contains c l.
Proof.
  intros Ha Hb. rewrite contains_tokens_add_ne by exact Ha.
  apply contains_tokens_remove_ne. exact Hb.
Qed.

Lemma ltb_leb (n m : nat) : (n <? m)%nat = negb (m <=? n)%nat.
Proof.
  destruct (Nat.ltb_spec n m), (Nat.leb_spec m n); try reflexivity; lia.
Qed.

Section Script.
Variable capitalize : string → string.

Lemma check_acceptable input :
  (check capitalize (name input) (trim (value input))).1 = acceptable input.
Proof.
  unfold check, acceptable. destruct (trim (value input)) as [|c v] eqn:Hv.
  - reflexivity.
  - rewrite bool_decide_eq_false_2 by discriminate.
    generalize (c :: v). intros w. cbn [negb andb].
    destruct (decide (name input = "email")).
    { destruct (isValidEmail w); reflexivity. }
    destruct (decide (name input = "name")).
    { rewrite ltb_leb. destruct (2 <=? length w)%nat; reflexivity. }
    destruct (decide (name input = "message")).
    { rewrite ltb_leb. destruct (10 <=? length w)%nat; reflexivity. }
    reflexivity.
Qed.

Lemma check_message fieldName value :
  (check capitalize fieldName value).1 = false →
  (check capitalize fieldName value).2 ≠ "".
Proof.
  unfold check. destruct value as [|c v].
  - intros _. simpl. destruct (capitalize fieldName); discriminate.
  - destruct (decide (fieldName = "email")).
    { destruct (isValidEmail (c :: v)); simpl; [discriminate|]. intros _.
      discriminate. }
    destruct (decide (fieldName = "name")).
    { destruct (length (c :: v) <? 2)%nat; simpl; discriminate. }
    destruct (decide (fieldName = "message")).
    { destruct (length (c :: v) <? 10)%nat; simpl; discriminate. }
    simpl. discriminate.
Qed.

Lemma validateField_control input errors :
  let input' := (validateField capitalize input errors).1.1 in
  (validateField capitalize input errors).2 = acceptable input ∧
  contains "success" (classes input') = acceptable input ∧
  contains "error" (classes input') = negb (acceptable input) ∧
  (∀ c, c ≠ "success" → c ≠ "error" →
        contains c (classes input') = contains c (classes input)) ∧
  value input' = value input ∧ name input' = name input ∧
  required input' = required input.
Proof.
  rewrite <- check_acceptable. unfold validateField.
  destruct (check capitalize (name input) (trim (value input)))
    as [[|] message]; simpl.
  - destruct (marked_success (classes input)) as [-> ->].
    repeat split; try reflexivity.
    intros c Hs He. apply marked_others; assumption.
  - destruct (marked_error (classes input)) as [-> ->].
    repeat split; try reflexivity.
    intros c Hs He. apply marked_others; assumption.
Qed.

(** X: [validateField] of [script.js] marks the control with its
    verdict.  The result is [true] if and only if something is left of
    the value after trimming and it fits the rule of the field; the
    control then carries exactly one of [success] and [error], whatever
    it carried before, and nothing else about it changes.  The element
    with id [<name>-error], if the page has it, shows the message of an
    invalid control and is emptied and hidden for a valid one; no other
    error element is touched. *)
Theorem validateField_marks_verdict (input : Control)
    (errors : gmap string Element) :
  let input' := (validateField capitalize input errors).1.1 in
  let errors' := (validateField capitalize input errors).1.2 in
  let isValid := (validateField capitalize input errors).2 in
  isValid = acceptable input ∧
  contains "success" (classes input') = isValid ∧
  contains "error" (classes input') = negb isValid ∧
  (∀ c, c ≠ "success" → c ≠ "error" →
        contains c (classes input') = contains c (classes input)) ∧
  (value input' = value input ∧ name input' = name input ∧
   required input' = required input) ∧
  (∀ k, k ≠ name input +:+ "-error" → errors' !! k = errors !! k) ∧
  (∀ e, errors !! (name input +:+ "-error") = Some e →
        ∃ e', errors' !! (name input +:+ "-error") = Some e' ∧
              classList_contains "show" e' = negb isValid ∧
              (isValid = true → textContent e' = "") ∧
              (isValid = false → textContent e' ≠ "")).
Proof.
  destruct (validateField_control input errors)
    as (Hok & Hs & He & Hothers & Hrest).
  cbv zeta in Hs, He, Hothers, Hrest |- *. rewrite Hok.
  split; [reflexivity|]. split; [exact Hs|]. split; [exact He|].
  split; [exact Hothers|]. split; [exact Hrest|].
  rewrite <- Hok. clear.
  pose proof (check_message (name input) (trim (value input))) as Hmessage.
  unfold validateField.
  destruct (check capitalize (name input) (trim (value input)))
    as [[|] message]; simpl in *.
  - split; [intros k Hk; apply lookup_alter_ne; congruence|].
    intros e He. eexists.
    split; [rewrite lookup_alter_eq, He; reflexivity|].
    split; [apply contains_tokens_remove|].
    split; [reflexivity|discriminate].
  - split; [intros k Hk; apply lookup_alter_ne; congruence|].
    intros e He. eexists.
    split; [rewrite lookup_alter_eq, He; reflexivity|].
    split; [apply contains_tokens_add|].
    split; [discriminate|]. intros _. apply Hmessage. reflexivity.
Qed.

Lemma validateForm_controls inputs : ∀ errors,
  let r := validateForm capitalize inputs errors in
  r.2 = forallb (λ i, negb (required i) || acceptable i) inputs ∧
  length r.1.1 = length inputs ∧
  ∀ k i, inputs !! k = Some i →
    ∃ i', r.1.1 !! k = Some i' ∧
          if required i
          then contains "success" (classes i') = acceptable i ∧
               contains "error" (classes i') = negb (acceptable i) ∧
               value i' = value i ∧ name i' = name i
          else i' = i.
Proof.
  induction inputs as [|input rest IH]; intros errors.
  - simpl. split; [reflexivity|]. split; [reflexivity|].
    intros k i Hk. rewrite lookup_nil in Hk. discriminate.
  - cbv zeta. simpl validateForm. simpl forallb.
    destruct (required input) eqn:Hreq.
    + pose proof (validateField_control input errors)
        as (Hok & Hs & He & _ & Hv & Hn & _).
      cbv zeta in Hs, He, Hv, Hn.
      destruct (validateField capitalize input errors)
        as [[input' errors'] ok] eqn:Hfield.
      simpl in Hok, Hs, He, Hv, Hn.
      specialize (IH errors'). cbv zeta in IH.
      destruct (validateForm capitalize rest errors')
        as [[rest' errors''] ok'] eqn:Hrest.
      simpl in IH |- *. destruct IH as (IHok & IHlen & IHk).
      split; [rewrite Hok, IHok; reflexivity|].
      split; [rewrite IHlen; reflexivity|].
      intros [|k] i Hk; simpl in Hk |- *.
      * injection Hk as <-. exists input'. rewrite Hreq. auto.
      * apply IHk, Hk.
    + specialize (IH errors). cbv zeta in IH.
      destruct (validateForm capitalize rest errors)
        as [[rest' errors'] ok'] eqn:Hrest.
      simpl in IH |- *. destruct IH as (IHok & IHlen & IHk).
      split; [exact IHok|]. split; [rewrite IHlen; reflexivity|].
      intros [|k] i Hk; simpl in Hk |- *.
      * injection Hk as <-. exists input. rewrite Hreq. auto.
      * apply IHk, Hk.
Qed.
End Script.

(** X: [validateForm] of [script.js] validates every required control
    and only those.  The result is [true] if and only if every control
    with [required] is acceptable; every such control is marked with its
    own verdict, also the ones that come after an invalid control; a
    control without [required] is left as it is, whatever its value. *)
Theorem validateForm_checks_required (capitalize : string → string)
    (inputs : list Control) (errors : gmap string Element) :
  let inputs' := (validateForm capitalize inputs errors).1.1 in
  (validateForm capitalize inputs errors).2
  = forallb (λ i, negb (required i) || acceptable i) inputs ∧
  length inputs' = length inputs ∧
  ∀ k i, inputs !! k = Some i →
    ∃ i', inputs' !! k = Some i' ∧
          if required i
          then contains "success" (classes i') = acceptable i ∧
               contains "error" (classes i') = negb (acceptable i) ∧
               value i' = value i ∧ name i' = name i
          else i' = i.
Proof. apply validateForm_controls. Qed.

(** *** Version 2.0.0 *)

Lemma V2_check_acceptable key element :
  (V2.check key (required element) (trim (value element))).1
  = V2.acceptable key element.
Proof.
  unfold V2.check, V2.acceptable.
  destruct (trim (value element)) as [|c v] eqn:Hv.
  - rewrite bool_decide_eq_true_2 by reflexivity.
    rewrite !andb_false_r. cbn [negb andb].
    destruct (required element); reflexivity.
  - rewrite bool_decide_eq_false_2 by discriminate.
    generalize (c :: v). intros w. cbn [negb andb].
    rewrite !andb_true_r, andb_false_r.
    destruct (decide (key = "email")) as [->|Hemail].
    { rewrite bool_decide_eq_true_2 by reflexivity.
      destruct (isValidEmail w); reflexivity. }
    rewrite (bool_decide_eq_false_2 (key = "email")) by exact Hemail.
    cbn [andb].
    destruct (decide (key = "name")) as [->|Hname].
    { rewrite bool_decide_eq_true_2 by reflexivity. rewrite ltb_leb.
      destruct (2 <=? length w)%nat; reflexivity. }
    rewrite (bool_decide_eq_false_2 (key = "name")) by exact Hname.
    cbn [andb].
    destruct (decide (key = "subject")) as [->|Hsubject].
    { rewrite bool_decide_eq_true_2 by reflexivity. rewrite ltb_leb.
      destruct (3 <=? length w)%nat; reflexivity. }
    rewrite (bool_decide_eq_false_2 (key = "subject")) by exact Hsubject.
    cbn [andb].
    destruct (decide (key = "message")) as [->|Hmessage].
    { rewrite bool_decide_eq_true_2 by reflexivity. rewrite ltb_leb.
      destruct (10 <=? length w)%nat; reflexivity. }
    rewrite (bool_decide_eq_false_2 (key = "message")) by exact Hmessage.
    reflexivity.
Qed.

Lemma V2_validateField_control key element errors :
  let element' := (V2.validateField key element errors).1.1 in
  (V2.validateField key element errors).2 = V2.acceptable key element ∧
  contains "success" (classes element') = V2.acceptable key element ∧
  contains "error" (classes element') = negb (V2.acceptable key element) ∧
  (∀ c, c ≠ "success" → c ≠ "error" →
        contains c (classes element') = contains c (classes element)) ∧
  value element' = value element ∧ tagName element' = tagName element ∧
  id element' = id element ∧ required element' = required element.
Proof.
  rewrite <- V2_check_acceptable. unfold V2.validateField.
  destruct (V2.check key (required element) (trim (value element)))
    as [[|] message]; simpl.
  - destruct (marked_success (classes element)) as [-> ->].
    repeat split; try reflexivity.
    intros c Hs He. apply marked_others; assumption.
  - destruct (marked_error (classes element)) as [-> ->].
    repeat split; try reflexivity.
    intros c Hs He. apply marked_others; assumption.
Qed.

(** X: [validateField] of version 2.0.0 marks the field with its
    verdict.  The result is [true] if and only if the trimmed value fits
    the rule of the field when something is left of it, and the field is
    not required when nothing is left; the field then carries exactly one
    of [success] and [error].  The element with id [<fieldName>-error],
    if the page has it, is shown with [aria-live] set for an invalid
    field and hidden with [aria-live] removed for a valid one. *)
Theorem V2_validateField_marks_verdict (fieldName : string)
    (element : Control) (errors : gmap string Element) :
  let element' := (V2.validateField fieldName element errors).1.1 in
  let errors' := (V2.validateField fieldName element errors).1.2 in
  let isValid := (V2.validateField fieldName element errors).2 in
  isValid = V2.acceptable fieldName element ∧
  contains "success" (classes element') = isValid ∧
  contains "error" (classes element') = negb isValid ∧
  (∀ c, c ≠ "success" → c ≠ "error" →
        contains c (classes element') = contains c (classes element)) ∧
  (∀ k, k ≠ fieldName +:+ "-error" → errors' !! k = errors !! k) ∧
  (∀ e, errors !! (fieldName +:+ "-error") = Some e →
        ∃ e', errors' !! (fieldName +:+ "-error") = Some e' ∧
              classList_contains "show" e' = negb isValid ∧
              (getAttribute "aria-live" e' = Some "polite"
               ↔ isValid = false) ∧
              (isValid = true → getAttribute "aria-live" e' = None ∧
                                textContent e' = textContent e)).
Proof.
  destruct (V2_validateField_control fieldName element errors)
    as (Hok & Hs & He & Hothers & _).
  cbv zeta in Hs, He, Hothers |- *. rewrite Hok.
  split; [reflexivity|]. split; [exact Hs|]. split; [exact He|].
  split; [exact Hothers|].
  rewrite <- Hok. clear. unfold V2.validateField.
  destruct (V2.check fieldName (required element) (trim (value element)))
    as [[|] message]; simpl.
  - split; [intros k Hk; apply lookup_alter_ne; congruence|].
    intros e He. eexists.
    split; [rewrite lookup_alter_eq, He; reflexivity|].
    unfold V2.hideFieldError, removeAttribute, getAttribute,
      classList_contains. simpl. rewrite lookup_delete_eq.
    split; [apply contains_tokens_remove|].
    split; [split; discriminate|auto].
  - split; [intros k Hk; apply lookup_alter_ne; congruence|].
    intros e He. eexists.
    split; [rewrite lookup_alter_eq, He; reflexivity|].
    unfold V2.showFieldError, getAttribute, classList_contains. simpl.
    rewrite lookup_insert_eq.
    split; [apply contains_tokens_add|].
    split; [split; reflexivity|discriminate].
Qed.

Lemma V2_validateForm_fields formElements : ∀ errors,
  let r := V2.validateForm formElements errors in
  r.2 = forallb (λ ke, match ke.2 with
                       | Some c => negb (V2.validated ke.2)
                                   || V2.acceptable ke.1 c
                       | None => true
                       end) formElements ∧
  length r.1.1 = length formElements ∧
  ∀ k key element, formElements !! k = Some (key, element) →
    ∃ element', r.1.1 !! k = Some (key, element') ∧
      match element with
      | Some c =>
          if V2.validated element
          then ∃ c', element' = Some c' ∧
                 contains "success" (classes c') = V2.acceptable key c ∧
                 contains "error" (classes c')
                 = negb (V2.acceptable key c) ∧
                 value c' = value c
          else element' = element
      | None => element' = None
      end.
Proof.
  induction formElements as [|[key0 element0] rest IH]; intros errors.
  - simpl. split; [reflexivity|]. split; [reflexivity|].
    intros k key element Hk. rewrite lookup_nil in Hk. discriminate.
  - cbv zeta. simpl V2.validateForm. simpl forallb.
    destruct element0 as [c0|].
    + destruct (V2.validated (Some c0)) eqn:Hvalidated.
      * pose proof (V2_validateField_control key0 c0 errors)
          as (Hok & Hs & He & _ & Hv & _).
        cbv zeta in Hs, He, Hv.
        destruct (V2.validateField key0 c0 errors)
          as [[c0' errors'] ok] eqn:Hfield.
        simpl in Hok, Hs, He, Hv.
        specialize (IH errors'). cbv zeta in IH.
        destruct (V2.validateForm rest errors')
          as [[rest' errors''] ok'] eqn:Hrest.
        simpl in IH |- *. destruct IH as (IHok & IHlen & IHk).
        split; [rewrite Hok, IHok; reflexivity|].
        split; [rewrite IHlen; reflexivity|].
        intros [|k] key element Hk; simpl in Hk |- *.
        -- injection Hk as <- <-. exists (Some c0'). split; [reflexivity|].
           rewrite Hvalidated. exists c0'. auto.
        -- apply IHk, Hk.
      * specialize (IH errors). cbv zeta in IH.
        destruct (V2.validateForm rest errors)
          as [[rest' errors'] ok'] eqn:Hrest.
        simpl in IH |- *. destruct IH as (IHok & IHlen & IHk).
        split; [exact IHok|]. split; [rewrite IHlen; reflexivity|].
        intros [|k] key element Hk; simpl in Hk |- *.
        -- injection Hk as <- <-. exists (Some c0). split; [reflexivity|].
           rewrite Hvalidated. reflexivity.
        -- apply IHk, Hk.
    + specialize (IH errors). cbv zeta in IH.
      destruct (V2.validateForm rest errors)
        as [[rest' errors'] ok'] eqn:Hrest.
      simpl in IH |- *. destruct IH as (IHok & IHlen & IHk).
      split; [exact IHok|]. split; [rewrite IHlen; reflexivity|].
      intros [|k] key element Hk; simpl in Hk |- *.
      * injection Hk as <- <-. exists None. auto.
      * apply IHk, Hk.
Qed.

(** X: [validateForm] of version 2.0.0 validates every field of
    [DOM.formElements] that was found and is neither a button nor the
    success message.  The result is [true] if and only if each of them
    is acceptable, required or not; every such field is marked with its
    own verdict, also the ones after an invalid field; an entry that is
    [null], a button or the success message stays as it is. *)
Theorem V2_validateForm_checks_fields
    (formElements : list (string * option Control))
    (errors : gmap string Element) :
  let formElements' := (V2.validateForm formElements errors).1.1 in
  (V2.validateForm formElements errors).2
  = forallb (λ ke, match ke.2 with
                   | Some c => negb (V2.validated ke.2)
                               || V2.acceptable ke.1 c
                   | None => true
                   end) formElements ∧
  length formElements' = length formElements ∧
  ∀ k key element, formElements !! k = Some (key, element) →
    ∃ element', formElements' !! k = Some (key, element') ∧
      match element with
      | Some c =>
          if V2.validated element
          then ∃ c', element' = Some c' ∧
                 contains "success" (classes c') = V2.acceptable key c ∧
                 contains "error" (classes c')
                 = negb (V2.acceptable key c) ∧
                 value c' = value c
          else element' = element
      | None => element' = None
      end.
Proof. apply V2_validateForm_fields. Qed.

(** X: a value of white space only counts as empty.  [script.js]
    rejects the control, whatever its field; version 2.0.0 rejects the
    field if and only if it is required. *)
Theorem blank_value_counts_as_empty (capitalize : string → string)
    (fieldName : string) (control : Control)
    (errors : gmap string Element) :
  Forall (λ c, isWhiteSpace c = true) (value control) →
  (validateField capitalize control errors).2 = false ∧
  (V2.validateField fieldName control errors).2 = negb (required control).
Proof.
  intros Hblank. apply trim_blank in Hblank.
  destruct (validateField_control capitalize control errors) as [-> _].
  destruct (V2_validateField_control fieldName control errors) as [-> _].
  unfold acceptable, V2.acceptable. rewrite Hblank.
  rewrite bool_decide_eq_true_2 by reflexivity. auto.
Qed.

(** A required name field that holds two spaces and a tab. *)
Lemma blank_value_counts_as_empty_spaces :
  let control := mkControl "INPUT" "name" "name" [32; 32; 9]%N true
                   ["form-control"] in
  Forall (λ c, isWhiteSpace c = true) (value control) ∧
  (validateField (λ s, s) control ∅).2 = false ∧
  (V2.validateField "name" control ∅).2 = false.
Proof.
  intros control.
  assert (H : Forall (λ c, isWhiteSpace c = true) (value control)).
  { repeat constructor. }
  split; [exact H|].
  exact (blank_value_counts_as_empty (λ s, s) "name" control ∅ H).
Defined.

(** *** Validating again *)

Lemma tokens_marked_again (a b : string) (l : list string) :
  a ≠ b →
  tokens_add a (tokens_remove b (tokens_add a (tokens_remove b l)))
  = tokens_add a (tokens_remove b l).
Proof.
  intros Hne.
  assert (Hkeep : tokens_remove b (tokens_add a (tokens_remove b l))
                  = tokens_add a (tokens_remove b l)).
  { unfold tokens_add. destruct (contains a (tokens_remove b l)).
    - unfold tokens_remove. rewrite list_filter_filter.
      apply list_filter_iff. intros x. tauto.
    - unfold tokens_remove. rewrite filter_app, list_filter_filter.
      rewrite filter_cons_True by exact Hne. rewrite filter_nil.
      f_equal. apply list_filter_iff. intros x. tauto. }
  rewrite Hkeep. apply tokens_add_idempotent.
Qed.

Lemma alter_again (f : Element → Element) (k : string)
    (m : gmap string Element) :
  (∀ e, f (f e) = f e) → alter f k (alter f k m) = alter f k m.
Proof.
  intros Hf. apply map_eq. intros i.
  destruct (decide (i = k)) as [->|Hne].
  - rewrite !lookup_alter_eq. destruct (m !! k) as [e|]; simpl; [|reflexivity].
    rewrite Hf. reflexivity.
  - rewrite !lookup_alter_ne by congruence. reflexivity.
Qed.

Lemma tokens_removed_again (c : string) (l : list string) :
  tokens_remove c (tokens_remove c l) = tokens_remove c l.
Proof.
  unfold tokens_remove. rewrite list_filter_filter.
  apply list_filter_iff. intros x. tauto.
Qed.

(** X: validating a control again changes nothing.  In both scripts a
    second run of [validateField] right after the first returns the same
    verdict and leaves the control and every error element exactly as the
    first run left them. *)
Theorem validateField_again (capitalize : string → string)
    (fieldName : string) (control : Control)
    (errors : gmap string Element) :
  (let r := validateField capitalize control errors in
   validateField capitalize r.1.1 r.1.2 = r) ∧
  (let r := V2.validateField fieldName control errors in
   V2.validateField fieldName r.1.1 r.1.2 = r).
Proof.
  split; cbv zeta.
  - unfold validateField.
    destruct (check capitalize (name control) (trim (value control)))
      as [[|] message] eqn:Hcheck; simpl; rewrite Hcheck.
    + rewrite tokens_marked_again by discriminate.
      rewrite alter_again; [reflexivity|].
      intros e. unfold classList_remove, set_textContent. simpl.
      rewrite tokens_removed_again. reflexivity.
    + rewrite tokens_marked_again by discriminate.
      rewrite alter_again; [reflexivity|].
      intros e. unfold classList_add, set_textContent. simpl.
      rewrite tokens_add_idempotent. reflexivity.
  - unfold V2.validateField.
    destruct (V2.check fieldName (required control) (trim (value control)))
      as [[|] message] eqn:Hcheck; simpl; rewrite Hcheck.
    + rewrite tokens_marked_again by discriminate.
      rewrite alter_again; [reflexivity|].
      intros e. unfold V2.hideFieldError, removeAttribute, classList_remove.
      simpl. rewrite tokens_removed_again, delete_delete_eq. reflexivity.
    + rewrite tokens_marked_again by discriminate.
      rewrite alter_again; [reflexivity|].
      intros e. unfold V2.showFieldError, setAttribute, classList_add,
        set_textContent. simpl.
      rewrite tokens_add_idempotent, insert_insert_eq. reflexivity.
Qed.

End FormFacts.

(** ** Facts about the start-up of version 2.0.0 *)

Module StartupFacts.
Import Dom Startup DomFacts.

Section Scope.
Variable icons : string → string.

Lemma createTeamCardHTML_unbound (member : Member) :
  social member ≠ [] →
  createTeamCardHTML None icons member
  = Lang.Throws "ReferenceError: member is not defined".
Proof.
  intros Hsocial. unfold createTeamCardHTML.
  destruct (social member) as [|[platform url] entries]; [congruence|].
  reflexivity.
Qed.

Lemma createTeamCardHTML_without_links (member : Member) :
  social member = [] →
  ∃ html, createTeamCardHTML None icons member = Lang.Returns html.
Proof.
  intros Hsocial. unfold createTeamCardHTML. rewrite Hsocial. simpl.
  eexists. reflexivity.
Qed.

Lemma mapJoin_unbound (members : list Member) :
  (∃ member, member ∈ members ∧ social member ≠ []) →
  mapJoin (createTeamCardHTML None icons) members
  = Lang.Throws "ReferenceError: member is not defined".
Proof.
  induction members as [|m members IH]; intros (member & Hin & Hsocial).
  - apply not_elem_of_nil in Hin. contradiction.
  - simpl. destruct (decide (social m = [])) as [Hm|Hm].
    + destruct (createTeamCardHTML_without_links m Hm) as [html ->].
      rewrite IH; [reflexivity|].
      exists member. split; [|exact Hsocial].
      apply elem_of_cons in Hin as [->|Hin]; [congruence|exact Hin].
    + rewrite (createTeamCardHTML_unbound m Hm). reflexivity.
Qed.

Lemma mapJoin_without_links (members : list Member) :
  (∀ member, member ∈ members → social member = []) →
  ∃ html, mapJoin (createTeamCardHTML None icons) members
          = Lang.Returns html.
Proof.
  induction members as [|m members IH]; intros Hall.
  - eexists. reflexivity.
  - simpl.
    destruct (createTeamCardHTML_without_links m) as [html ->].
    { apply Hall, list_elem_of_here. }
    destruct IH as [rest ->].
    { intros member Hin. apply Hall, list_elem_of_further, Hin. }
    eexists. reflexivity.
Qed.
End Scope.

(** X: the team cards cannot be generated.  [createSocialLinkHTML]
    reads [member], which is not in its scope; unless something else
    defined a global of that name, a roster throws a [ReferenceError] as
    soon as one member has a social link, and only then.  The roster of
    the script does, so on a page with the team grid [initTeamSection]
    throws and leaves the page as it is. *)
Theorem team_cards_need_member {Other : Type} (icons : string → string)
    (members : list Member) (s : App (Other:=Other)) :
  (mapJoin (createTeamCardHTML None icons) members
   = Lang.Throws "ReferenceError: member is not defined"
   ↔ ∃ member, member ∈ members ∧ social member ≠ []) ∧
  (is_Some (teamGrid s) →
   initTeamSection None icons s
   = (s, Lang.Throws "ReferenceError: member is not defined")) ∧
  (teamGrid s = None →
   initTeamSection None icons s = (s, Lang.Returns tt)).
Proof.
  split; [split|split].
  - intros Hthrows.
    destruct (decide (Exists (λ member, social member ≠ []) members))
      as [Hex|Hnex].
    + apply Exists_exists in Hex. exact Hex.
    + exfalso. destruct (mapJoin_without_links icons members) as [html Hr].
      * intros member Hin.
        destruct (decide (social member = [])) as [Hm|Hm]; [exact Hm|].
        exfalso. apply Hnex, Exists_exists. eauto.
      * congruence.
  - apply mapJoin_unbound.
  - intros [html Hgrid]. unfold initTeamSection. rewrite Hgrid.
    unfold generateTeamCards.
    rewrite mapJoin_unbound; [reflexivity|].
    eexists. split; [apply list_elem_of_here|]. discriminate.
  - intros Hgrid. unfold initTeamSection. rewrite Hgrid. reflexivity.
Qed.

(** *** What [initApp] registers *)

Section Registry.
Context {Other : Type}.
Implicit Types s : App (Other:=Other).

Lemma addEventListeners_app ls : ∀ s,
  addEventListeners ls s
  = mkApp (page s) (listeners s ++ ls) (prefersReduced s) (reducedMotion s)
      (skipLink s) (teamGrid s) (contactForm s) (formElements s)
      (backToTopBtn s) (bodyClasses s) (reported s) (initialized s)
      (other s).
Proof.
  induction ls as [|l ls IH]; intros s.
  - unfold addEventListeners. simpl. rewrite app_nil_r. destruct s.
    reflexivity.
  - change (addEventListeners (l :: ls) s)
      with (addEventListeners ls (addEventListener l s)).
    rewrite IH. simpl. rewrite <- app_assoc. reflexivity.
Qed.

Lemma initAccessibility_effect s :
  initAccessibility s
  = (mkApp (page s) (listeners s ++ accessibilityListeners (skipLink s))
       (prefersReduced s) (prefersReduced s) (skipLink s) (teamGrid s)
       (contactForm s) (formElements s) (backToTopBtn s) (bodyClasses s)
       (reported s) (initialized s) (other s),
     Lang.Returns tt).
Proof.
  unfold initAccessibility, modify, accessibilityListeners.
  rewrite addEventListeners_app.
  destruct s as [pg ls pr rm skip tg cf fe bt bc rp ini o].
  destruct skip; simpl; rewrite <- ?app_assoc; reflexivity.
Qed.

Lemma initNavigation_effect s :
  initNavigation s
  = (mkApp (page s)
       (listeners s ++ navigationListeners (length (Nav.navLinks (page s))))
       (prefersReduced s) (reducedMotion s) (skipLink s) (teamGrid s)
       (contactForm s) (formElements s) (backToTopBtn s) (bodyClasses s)
       (reported s) (initialized s) (other s),
     Lang.Returns tt).
Proof.
  unfold initNavigation, modify, navigationListeners.
  rewrite !addEventListeners_app.
  destruct s as [pg ls pr rm skip tg cf fe bt bc rp ini o].
  unfold addEventListener. simpl. rewrite <- ?app_assoc. simpl.
  rewrite <- ?app_assoc. reflexivity.
Qed.

Lemma validation_listeners (entries : list (string * option Form.Control)) :
  ∀ s,
  foldl (λ s entry,
           if Form.V2.validated entry.2
           then addEventListeners [FieldBlur entry.1; FieldInput entry.1] s
           else s) s entries
  = mkApp (page s)
      (listeners s
       ++ flat_map (λ entry, if Form.V2.validated entry.2
                             then [FieldBlur entry.1; FieldInput entry.1]
                             else [])
            entries)
      (prefersReduced s) (reducedMotion s) (skipLink s) (teamGrid s)
      (contactForm s) (formElements s) (backToTopBtn s) (bodyClasses s)
      (reported s) (initialized s) (other s).
Proof.
  induction entries as [|entry entries IH]; intros s.
  - simpl. rewrite app_nil_r. destruct s. reflexivity.
  - simpl. destruct (Form.V2.validated entry.2).
    + rewrite IH. unfold addEventListeners, addEventListener. simpl.
      rewrite <- !app_assoc. reflexivity.
    + rewrite IH. reflexivity.
Qed.

Lemma initContactForm_effect s :
  initContactForm s
  = (mkApp (page s)
       (listeners s
        ++ (if contactForm s then formListeners (formElements s) else []))
       (prefersReduced s) (reducedMotion s) (skipLink s) (teamGrid s)
       (contactForm s) (formElements s) (backToTopBtn s) (bodyClasses s)
       (reported s) (initialized s) (other s),
     Lang.Returns tt).
Proof.
  unfold initContactForm. destruct (contactForm s) eqn:Hform.
  - unfold bind, setupFormValidation, setupFormSubmission, modify.
    rewrite validation_listeners. unfold addEventListener, formListeners.
    simpl. rewrite <- app_assoc, Hform. reflexivity.
  - unfold ret. rewrite app_nil_r. destruct s. simpl in Hform. subst.
    reflexivity.
Qed.

Lemma initBackToTop_effect s :
  initBackToTop s
  = (mkApp (page s)
       (listeners s
        ++ (if backToTopBtn s then backToTopListeners else []))
       (prefersReduced s) (reducedMotion s) (skipLink s) (teamGrid s)
       (contactForm s) (formElements s) (backToTopBtn s) (bodyClasses s)
       (reported s) (initialized s) (other s),
     Lang.Returns tt).
Proof.
  unfold initBackToTop. destruct (backToTopBtn s) eqn:Hbtn.
  - unfold modify. rewrite addEventListeners_app, Hbtn. reflexivity.
  - unfold ret. rewrite app_nil_r. destruct s. simpl in Hbtn. subst.
    reflexivity.
Qed.

Variable icons : string → string.
Variables heroAnimations scrollEffects : Other → Other * Lang.outcome unit.

Lemma initializers_throw s html :
  teamGrid s = Some html →
  ∃ error o,
    initializers None icons heroAnimations scrollEffects s
    = (mkApp (page s)
         (listeners s ++ accessibilityListeners (skipLink s)
          ++ navigationListeners (length (Nav.navLinks (page s))))
         (prefersReduced s) (prefersReduced s) (skipLink s) (Some html)
         (contactForm s) (formElements s) (backToTopBtn s) (bodyClasses s)
         (reported s) (initialized s) o,
       Lang.Throws error).
Proof.
  intros Hgrid. unfold initializers, bind at 1.
  rewrite initAccessibility_effect. unfold bind at 1.
  rewrite initNavigation_effect. cbn [page listeners prefersReduced
    reducedMotion skipLink teamGrid contactForm formElements backToTopBtn
    bodyClasses reported initialized other].
  rewrite <- app_assoc, Hgrid.
  unfold bind at 1, initHeroAnimations, onOther.
  cbn [page listeners prefersReduced reducedMotion skipLink teamGrid
    contactForm formElements backToTopBtn bodyClasses reported initialized
    other].
  destruct (heroAnimations (other s)) as [o1 [[]|error1]];
    [|eexists _, _; reflexivity].
  unfold bind at 1, initScrollEffects, onOther.
  cbn [page listeners prefersReduced reducedMotion skipLink teamGrid
    contactForm formElements backToTopBtn bodyClasses reported initialized
    other].
  destruct (scrollEffects o1) as [o2 [[]|error2]];
    [|eexists _, _; reflexivity].
  unfold bind at 1, initTeamSection.
  cbn [page listeners prefersReduced reducedMotion skipLink teamGrid
    contactForm formElements backToTopBtn bodyClasses reported initialized
    other].
  unfold generateTeamCards.
  rewrite mapJoin_unbound;
    [|eexists; split; [apply list_elem_of_here|discriminate]].
  eexists _, _. reflexivity.
Qed.

Lemma initializers_return globalMember s :
  teamGrid s = None →
  (heroAnimations (other s)).2 = Lang.Returns tt →
  (scrollEffects (heroAnimations (other s)).1).2 = Lang.Returns tt →
  initializers globalMember icons heroAnimations scrollEffects s
  = (mkApp (page s)
       (listeners s ++ accessibilityListeners (skipLink s)
        ++ navigationListeners (length (Nav.navLinks (page s)))
        ++ (if contactForm s then formListeners (formElements s) else [])
        ++ (if backToTopBtn s then backToTopListeners else []))
       (prefersReduced s) (prefersReduced s) (skipLink s) None
       (contactForm s) (formElements s) (backToTopBtn s)
       (if prefersReduced s
        then tokens_add "reduced-motion" (bodyClasses s)
        else bodyClasses s)
       (reported s) true (scrollEffects (heroAnimations (other s)).1).1,
     Lang.Returns tt).
Proof.
  intros Hgrid Hhero Hscroll. unfold initializers, bind at 1.
  rewrite initAccessibility_effect. unfold bind at 1.
  rewrite initNavigation_effect. cbn [page listeners prefersReduced
    reducedMotion skipLink teamGrid contactForm formElements backToTopBtn
    bodyClasses reported initialized other].
  rewrite <- app_assoc, Hgrid.
  unfold bind at 1, initHeroAnimations, onOther.
  cbn [page listeners prefersReduced reducedMotion skipLink teamGrid
    contactForm formElements backToTopBtn bodyClasses reported initialized
    other].
  destruct (heroAnimations (other s)) as [o1 result1].
  cbn [fst snd] in Hhero, Hscroll |- *. subst result1.
  unfold bind at 1, initScrollEffects, onOther.
  cbn [page listeners prefersReduced reducedMotion skipLink teamGrid
    contactForm formElements backToTopBtn bodyClasses reported initialized
    other].
  destruct (scrollEffects o1) as [o2 result2].
  cbn [fst snd] in Hscroll |- *. subst result2.
  unfold bind at 1, initTeamSection, ret.
  cbn [page listeners prefersReduced reducedMotion skipLink teamGrid
    contactForm formElements backToTopBtn bodyClasses reported initialized
    other].
  unfold bind at 1. rewrite initContactForm_effect.
  cbn [page listeners prefersReduced reducedMotion skipLink teamGrid
    contactForm formElements backToTopBtn bodyClasses reported initialized
    other].
  unfold bind at 1. rewrite initBackToTop_effect.
  cbn [page listeners prefersReduced reducedMotion skipLink teamGrid
    contactForm formElements backToTopBtn bodyClasses reported initialized
    other].
  unfold modify.
  cbn [page listeners prefersReduced reducedMotion skipLink teamGrid
    contactForm formElements backToTopBtn bodyClasses reported initialized
    other fst snd].
  rewrite <- !app_assoc. reflexivity.
Qed.
End Registry.

(** *** The click on the button *)

Lemma click_ignored (ls : list listener) (p : Nav.Page) :
  Forall (λ l, l ≠ ToggleMobileMenu ∧ l ≠ FallbackMenuToggle
               ∧ l ≠ ClickOutside) ls →
  foldl buttonClick p ls = p ∧ foldl documentClick p ls = p.
Proof.
  induction 1 as [|l ls (Ht & Hf & Hc) _ [IHb IHd]]; [auto|].
  simpl. destruct l; try congruence; auto.
Qed.

Lemma accessibility_ignored skip :
  Forall (λ l, l ≠ ToggleMobileMenu ∧ l ≠ FallbackMenuToggle
               ∧ l ≠ ClickOutside) (accessibilityListeners skip).
Proof.
  destruct skip; repeat constructor; discriminate.
Qed.

Lemma links_ignored (l : list nat) :
  Forall (λ l, l ≠ ToggleMobileMenu ∧ l ≠ FallbackMenuToggle
               ∧ l ≠ ClickOutside) (NavigationClick <$> l).
Proof.
  apply Forall_fmap, Forall_forall. intros i _. simpl.
  repeat split; discriminate.
Qed.

Lemma form_ignored formElements :
  Forall (λ l, l ≠ ToggleMobileMenu ∧ l ≠ FallbackMenuToggle
               ∧ l ≠ ClickOutside) (formListeners formElements).
Proof.
  unfold formListeners. apply Forall_app. split.
  - induction formElements as [|entry entries IH]; [constructor|].
    simpl. apply Forall_app. split; [|exact IH].
    destruct (Form.V2.validated entry.2); repeat constructor; discriminate.
  - repeat constructor; discriminate.
Qed.

Lemma clickOutside_inside p : Nav.clickOutside true p = p.
Proof. unfold Nav.clickOutside. rewrite andb_false_r. reflexivity. Qed.

Lemma clickButton_both (A B C : list listener) p :
  Forall (λ l, l ≠ ToggleMobileMenu ∧ l ≠ FallbackMenuToggle
               ∧ l ≠ ClickOutside) A →
  Forall (λ l, l ≠ ToggleMobileMenu ∧ l ≠ FallbackMenuToggle
               ∧ l ≠ ClickOutside) B →
  Forall (λ l, l ≠ ToggleMobileMenu ∧ l ≠ FallbackMenuToggle
               ∧ l ≠ ClickOutside) C →
  clickButton (A ++ [ToggleMobileMenu; ClickOutside] ++ B
               ++ [FallbackMenuToggle] ++ C) p
  = fallbackMenuToggle (Nav.toggleMobileMenu p).
Proof.
  intros HA HB HC. unfold clickButton. rewrite !foldl_app.
  rewrite (proj1 (click_ignored A p HA)).
  cbn [foldl buttonClick].
  rewrite (proj1 (click_ignored B _ HB)).
  rewrite (proj1 (click_ignored C _ HC)).
  rewrite (proj2 (click_ignored A _ HA)).
  cbn [foldl documentClick]. rewrite clickOutside_inside.
  rewrite (proj2 (click_ignored B _ HB)).
  rewrite (proj2 (click_ignored C _ HC)).
  reflexivity.
Qed.

Lemma clickButton_toggle (A B : list listener) p :
  Forall (λ l, l ≠ ToggleMobileMenu ∧ l ≠ FallbackMenuToggle
               ∧ l ≠ ClickOutside) A →
  Forall (λ l, l ≠ ToggleMobileMenu ∧ l ≠ FallbackMenuToggle
               ∧ l ≠ ClickOutside) B →
  clickButton (A ++ [ToggleMobileMenu; ClickOutside] ++ B) p
  = Nav.clickOutside true (Nav.toggleMobileMenu p).
Proof.
  intros HA HB. unfold clickButton. rewrite !foldl_app.
  rewrite (proj1 (click_ignored A p HA)).
  cbn [foldl buttonClick].
  rewrite (proj1 (click_ignored B _ HB)).
  rewrite (proj2 (click_ignored A _ HA)).
  cbn [foldl documentClick].
  rewrite (proj2 (click_ignored B _ HB)).
  reflexivity.
Qed.

Lemma navigation_rest_ignored links :
  Forall (λ l, l ≠ ToggleMobileMenu ∧ l ≠ FallbackMenuToggle
               ∧ l ≠ ClickOutside)
    ([EscapeCloses; ResizeCloses] ++ (NavigationClick <$> seq 0 links)
     ++ [ScrollDetection]).
Proof.
  apply Forall_app. split; [repeat constructor; discriminate|].
  apply Forall_app. split; [apply links_ignored|].
  repeat constructor; discriminate.
Qed.

Lemma clickButton_fallback skip links (form : bool) p :
  clickButton (accessibilityListeners skip ++ navigationListeners links
               ++ [FallbackMenuToggle]
               ++ (if form then [FallbackSubmit] else [])) p
  = fallbackMenuToggle (Nav.toggleMobileMenu p).
Proof.
  rewrite <- (clickButton_both (accessibilityListeners skip)
                ([EscapeCloses; ResizeCloses]
                 ++ (NavigationClick <$> seq 0 links) ++ [ScrollDetection])
                (if form then [FallbackSubmit] else []) p).
  - f_equal; unfold navigationListeners; rewrite <- ?app_assoc; reflexivity.
  - apply accessibility_ignored.
  - apply navigation_rest_ignored.
  - destruct form; repeat constructor; discriminate.
Qed.

Lemma clickButton_complete skip links (form backToTop : bool) formElements p :
  clickButton (accessibilityListeners skip ++ navigationListeners links
               ++ (if form then formListeners formElements else [])
               ++ (if backToTop then backToTopListeners else [])) p
  = Nav.clickOutside true (Nav.toggleMobileMenu p).
Proof.
  rewrite <- (clickButton_toggle (accessibilityListeners skip)
                (([EscapeCloses; ResizeCloses]
                  ++ (NavigationClick <$> seq 0 links) ++ [ScrollDetection])
                 ++ (if form then formListeners formElements else [])
                 ++ (if backToTop then backToTopListeners else [])) p).
  - f_equal; unfold navigationListeners; rewrite <- ?app_assoc; reflexivity.
  - apply accessibility_ignored.
  - apply Forall_app. split; [apply navigation_rest_ignored|].
    apply Forall_app. split.
    + destruct form; [apply form_ignored|constructor].
    + destruct backToTop; repeat constructor; discriminate.
Qed.

Lemma setupBasicFallbacks_effect {Other : Type} (s : App (Other:=Other)) :
  setupBasicFallbacks s
  = mkApp (page s)
      (listeners s ++ [FallbackMenuToggle]
       ++ (if contactForm s then [FallbackSubmit] else []))
      (prefersReduced s) (reducedMotion s) (skipLink s) (teamGrid s)
      (contactForm s) (formElements s) (backToTopBtn s) (bodyClasses s)
      (reported s) (initialized s) (other s).
Proof.
  destruct s as [pg ls pr rm skip tg cf fe bt bc rp ini o].
  unfold setupBasicFallbacks, addEventListener. simpl.
  destruct cf; simpl; rewrite <- ?app_assoc; reflexivity.
Qed.

Lemma initApp_fallback {Other : Type} (icons : string → string)
    (heroAnimations scrollEffects : Other → Other * Lang.outcome unit)
    (s : App) (html : string) :
  teamGrid s = Some html →
  ∃ error o,
    initApp None icons heroAnimations scrollEffects s
    = mkApp (page s)
        (listeners s ++ accessibilityListeners (skipLink s)
         ++ navigationListeners (length (Nav.navLinks (page s)))
         ++ [FallbackMenuToggle]
         ++ (if contactForm s then [FallbackSubmit] else []))
        (prefersReduced s) (prefersReduced s) (skipLink s) (Some html)
        (contactForm s) (formElements s) (backToTopBtn s) (bodyClasses s)
        (reported s ++ [error]) (initialized s) o.
Proof.
  intros Hgrid.
  destruct (initializers_throw icons heroAnimations scrollEffects s html
              Hgrid) as (error & o & Hinit).
  exists error, o. unfold initApp. rewrite Hinit.
  rewrite setupBasicFallbacks_effect.
  cbn [page listeners prefersReduced reducedMotion skipLink teamGrid
    contactForm formElements backToTopBtn bodyClasses reported initialized
    other].
  rewrite <- !app_assoc. reflexivity.
Qed.

(** X: on a page with the team grid the start-up ends in the fallback.
    Unless a global [member] exists, [initApp] never gets past
    [initTeamSection], whatever the initializers before it do: the error
    is reported, [setupBasicFallbacks] runs, the team grid keeps its
    markup, the event [enigmaAppInitialized] is not dispatched, and
    neither [initContactForm] nor [initBackToTop] has run, so the form
    is left without validation and submission listeners and the
    back-to-top button without its listeners. *)
Theorem start_up_falls_back {Other : Type} (icons : string → string)
    (heroAnimations scrollEffects : Other → Other * Lang.outcome unit)
    (s : App) (html : string) :
  teamGrid s = Some html → listeners s = [] →
  let s' := initApp None icons heroAnimations scrollEffects s in
  listeners s'
  = (accessibilityListeners (skipLink s)
     ++ navigationListeners (length (Nav.navLinks (page s)))
     ++ [FallbackMenuToggle]
     ++ (if contactForm s then [FallbackSubmit] else []))%list ∧
  ((FormSubmission ∉ listeners s') ∧ (BackToTopScroll ∉ listeners s') ∧
   (BackToTopClick ∉ listeners s') ∧
   ∀ key, (FieldBlur key ∉ listeners s') ∧
          (FieldInput key ∉ listeners s')) ∧
  teamGrid s' = Some html ∧ initialized s' = initialized s ∧
  page s' = page s ∧
  ∃ error, reported s' = (reported s ++ [error])%list.
Proof.
  intros Hgrid Hlisteners.
  destruct (initApp_fallback icons heroAnimations scrollEffects s html Hgrid)
    as (error & o & Happ).
  cbv zeta. rewrite Happ.
  cbn [page listeners prefersReduced reducedMotion skipLink teamGrid
    contactForm formElements backToTopBtn bodyClasses reported initialized
    other].
  rewrite Hlisteners. cbn [app].
  split; [reflexivity|]. split.
  - assert (Hnot : ∀ l,
              l ∈ (accessibilityListeners (skipLink s)
                   ++ navigationListeners (length (Nav.navLinks (page s)))
                   ++ [FallbackMenuToggle]
                   ++ (if contactForm s then [FallbackSubmit] else []))%list →
              l ≠ FormSubmission ∧ l ≠ BackToTopScroll ∧
              l ≠ BackToTopClick ∧
              ∀ key, l ≠ FieldBlur key ∧ l ≠ FieldInput key).
    { intros l Hl. unfold accessibilityListeners, navigationListeners in Hl.
      repeat (apply elem_of_app in Hl as [Hl|Hl]);
        try (apply list_elem_of_fmap in Hl as (i & -> & _));
        try (destruct (skipLink s)); try (destruct (contactForm s));
        repeat (apply elem_of_cons in Hl as [->|Hl]);
        try (apply not_elem_of_nil in Hl; contradiction);
        repeat split; discriminate. }
    split; [intros H; apply Hnot in H; tauto|].
    split; [intros H; apply Hnot in H; tauto|].
    split; [intros H; apply Hnot in H; tauto|].
    intros key. split; intros H; apply Hnot in H;
      destruct H as (_ & _ & _ & H); destruct (H key); congruence.
  - eauto 10.
Qed.

(** X: without the team grid the start-up completes.  When the page has
    no team grid and the two initializers of the rest of the page
    return, [initApp] registers the listeners of all its initializers
    and no fallback, reports no error and dispatches
    [enigmaAppInitialized]; a click on the menu button then does what
    the navigation of [script.js] does. *)
Theorem start_up_completes {Other : Type} (globalMember : option string)
    (icons : string → string)
    (heroAnimations scrollEffects : Other → Other * Lang.outcome unit)
    (s : App) :
  teamGrid s = None → listeners s = [] →
  (heroAnimations (other s)).2 = Lang.Returns tt →
  (scrollEffects (heroAnimations (other s)).1).2 = Lang.Returns tt →
  let s' := initApp globalMember icons heroAnimations scrollEffects s in
  listeners s'
  = (accessibilityListeners (skipLink s)
     ++ navigationListeners (length (Nav.navLinks (page s)))
     ++ (if contactForm s then formListeners (formElements s) else [])
     ++ (if backToTopBtn s then backToTopListeners else []))%list ∧
  initialized s' = true ∧ reported s' = reported s ∧
  ∀ selects p,
    clickButton (listeners s') p = Nav.step selects p (Nav.Click Nav.Button).
Proof.
  intros Hgrid Hlisteners Hhero Hscroll. cbv zeta. unfold initApp.
  rewrite (initializers_return icons heroAnimations scrollEffects
             globalMember s Hgrid Hhero Hscroll).
  cbn [page listeners prefersReduced reducedMotion skipLink teamGrid
    contactForm formElements backToTopBtn bodyClasses reported initialized
    other].
  rewrite Hlisteners. cbn [app].
  split; [reflexivity|]. split; [reflexivity|]. split; [reflexivity|].
  intros selects p. apply clickButton_complete.
Qed.

Lemma contains_removed c e :
  classList_contains c (classList_remove c e) = false.
Proof. apply contains_tokens_remove. Qed.

Lemma contains_added c e : classList_contains c (classList_add c e) = true.
Proof. apply contains_tokens_add. Qed.

Lemma contains_setAttribute c k v e :
  classList_contains c (setAttribute k v e) = classList_contains c e.
Proof. reflexivity. Qed.

Lemma getAttribute_same k v e : getAttribute k (setAttribute k v e) = Some v.
Proof. unfold getAttribute, setAttribute. simpl. apply lookup_insert_eq. Qed.

Lemma fallbackMenuToggle_inverts (p : Nav.Page) :
  let p' := fallbackMenuToggle (Nav.toggleMobileMenu p) in
  Nav.isNavOpen p' = negb (Nav.isNavOpen p) ∧
  classList_contains "active" (Nav.navMenu p') = negb (Nav.isNavOpen p') ∧
  (getAttribute "aria-expanded" (Nav.mobileMenuBtn p') = Some "true"
   ↔ Nav.isNavOpen p' = false) ∧
  (Nav.overflow p' = "hidden" ↔ Nav.isNavOpen p' = true) ∧
  classList_contains "active" (Nav.mobileMenuBtn p') = Nav.isNavOpen p'.
Proof.
  unfold fallbackMenuToggle, Nav.toggleMobileMenu.
  destruct (Nav.isNavOpen p) eqn:Hopen.
  - unfold Nav.closeMobileMenu.
    cbn [Nav.isNavOpen Nav.navMenu Nav.mobileMenuBtn Nav.overflow].
    rewrite !contains_removed. cbv iota. rewrite !contains_added.
    cbv iota. rewrite getAttribute_same, contains_setAttribute,
      contains_removed.
    split; [reflexivity|]. split; [reflexivity|].
    split; [split; reflexivity|]. split; [split; discriminate|reflexivity].
  - unfold Nav.openMobileMenu.
    cbn [Nav.isNavOpen Nav.navMenu Nav.mobileMenuBtn Nav.overflow].
    rewrite !contains_added. cbv iota. rewrite !contains_removed.
    cbv iota. rewrite getAttribute_same, contains_setAttribute,
      contains_added.
    split; [reflexivity|]. split; [reflexivity|].
    split; [split; discriminate|]. split; [split; reflexivity|reflexivity].
Qed.

(** X: after the fallback the menu button works against itself.  On a
    page with the team grid (and no global [member]) the button carries
    both [toggleMobileMenu] and the fallback toggle.  After a click, from
    whatever state: the menu carries [active] exactly when the flag
    [STATE.isNavOpen] says closed, [aria-expanded] is [true] exactly
    then, and the body is scroll-locked exactly when the menu is not
    shown. *)
Theorem fallback_inverts_menu {Other : Type} (icons : string → string)
    (heroAnimations scrollEffects : Other → Other * Lang.outcome unit)
    (s : App) (html : string) (p : Nav.Page) :
  teamGrid s = Some html → listeners s = [] →
  let ls := listeners (initApp None icons heroAnimations scrollEffects s) in
  let p' := clickButton ls p in
  Nav.isNavOpen p' = negb (Nav.isNavOpen p) ∧
  classList_contains "active" (Nav.navMenu p') = negb (Nav.isNavOpen p') ∧
  (getAttribute "aria-expanded" (Nav.mobileMenuBtn p') = Some "true"
   ↔ Nav.isNavOpen p' = false) ∧
  (Nav.overflow p' = "hidden" ↔ Nav.isNavOpen p' = true) ∧
  classList_contains "active" (Nav.mobileMenuBtn p') = Nav.isNavOpen p'.
Proof.
  intros Hgrid Hlisteners.
  destruct (start_up_falls_back icons heroAnimations scrollEffects s html
              Hgrid Hlisteners) as [Hls _].
  cbv zeta in Hls |- *. rewrite Hls, clickButton_fallback.
  apply fallbackMenuToggle_inverts.
Qed.

(** The page with team grid, form and back-to-top button. *)
Lemma start_up_falls_back_markup :
  let s' := initApp None (λ _, "") returning returning markup in
  teamGrid markup = Some "" ∧ listeners markup = [] ∧
  (FormSubmission ∉ listeners s') ∧ teamGrid s' = Some "" ∧
  initialized s' = false.
Proof.
  intros s'.
  pose proof (start_up_falls_back (λ _, "") returning returning markup ""
                eq_refl eq_refl) as H.
  cbv zeta in H. destruct H as (_ & (Hform & _) & Hgrid & Hinit & _).
  split; [reflexivity|]. split; [reflexivity|].
  split; [exact Hform|]. split; [exact Hgrid|exact Hinit].
Defined.

(** The same page without the team grid. *)
Lemma start_up_completes_without_team :
  let s' := initApp None (λ _, "") returning returning markup_without_team in
  teamGrid markup_without_team = None ∧ listeners markup_without_team = [] ∧
  initialized s' = true ∧ reported s' = [].
Proof.
  intros s'.
  pose proof (start_up_completes None (λ _, "") returning returning
                markup_without_team eq_refl eq_refl eq_refl eq_refl) as H.
  cbv zeta in H. destruct H as (_ & Hinit & Hreported & _).
  split; [reflexivity|]. split; [reflexivity|].
  split; [exact Hinit|exact Hreported].
Defined.

(** The first click on the button of the page with the team grid: the
    flag says open, the menu is not shown. *)
Lemma fallback_inverts_menu_first_click :
  let ls := listeners (initApp None (λ _, "") returning returning markup) in
  let p' := clickButton ls Nav.markup in
  teamGrid markup = Some "" ∧ listeners markup = [] ∧
  Nav.isNavOpen p' = true ∧
  classList_contains "active" (Nav.navMenu p') = false.
Proof.
  intros ls p'.
  pose proof (fallback_inverts_menu (λ _, "") returning returning markup ""
                Nav.markup eq_refl eq_refl) as H.
  cbv zeta in H. destruct H as (Hopen & Hactive & _).
  split; [reflexivity|]. split; [reflexivity|].
  split; [exact Hopen|]. fold ls in Hopen, Hactive. fold p' in Hopen, Hactive.
  rewrite Hactive, Hopen. reflexivity.
Defined.

End StartupFacts.

(** ** Facts about a page without observers *)

Module IdleFacts.
Import Dom DomFacts Observers ObserversFacts.

Section Frames.
Context {ar : Stats.Arithmetic}.

Lemma same_but_active_refl c : same_but_active c c.
Proof. intros element. destruct (c !! element); [tauto|exact I]. Qed.

Lemma same_but_active_trans c1 c2 c3 :
  same_but_active c1 c2 → same_but_active c2 c3 → same_but_active c1 c3.
Proof.
  intros H12 H23 element. specialize (H12 element). specialize (H23 element).
  destruct (c1 !! element), (c2 !! element), (c3 !! element);
    try contradiction; [|exact I].
  intros x Hx. rewrite (H23 x Hx). apply H12, Hx.
Qed.

Lemma same_but_active_alter (f : list string → list string) element
    (c : gmap nat (list string)) :
  (∀ l x, x ≠ "active" → x ∈ f l ↔ x ∈ l) →
  same_but_active c (alter f element c).
Proof.
  intros Hf element'. destruct (decide (element = element')) as [->|Hne].
  - rewrite lookup_alter_eq. destruct (c !! element'); simpl; [|exact I].
    intros x Hx. apply Hf, Hx.
  - rewrite lookup_alter_ne by exact Hne.
    destruct (c !! element'); [tauto|exact I].
Qed.

Lemma only_active_refl p : only_active p p.
Proof. unfold only_active. auto 10 using same_but_active_refl. Qed.

(** A change of other fields. *)
Lemma only_active_same p p' :
  observers p' = observers p → frames p' = frames p → texts p' = texts p →
  counterRuns p' = counterRuns p → statsAnimated p' = statsAnimated p →
  classes p' = classes p → only_active p p'.
Proof.
  intros Ho Hf Hx Hr Ha Hc. unfold only_active. rewrite Hc.
  auto 10 using same_but_active_refl.
Qed.

Lemma only_active_trans p1 p2 p3 :
  only_active p1 p2 → only_active p2 p3 → only_active p1 p3.
Proof.
  intros (Ho & Hf & Hx & Hr & Ha & Hc) (Ho' & Hf' & Hx' & Hr' & Ha' & Hc').
  unfold only_active. repeat split; try congruence.
  eapply same_but_active_trans; eassumption.
Qed.

Lemma only_active_foldl {A} (f : Page → A → Page) (l : list A) :
  (∀ p x, only_active p (f p x)) → ∀ p, only_active p (foldl f p l).
Proof.
  intros Hf. induction l as [|x l IH]; intros p; simpl.
  - apply only_active_refl.
  - eapply only_active_trans; [apply Hf|apply IH].
Qed.

Lemma only_active_removeClass element p :
  only_active p (removeClass element "active" p).
Proof.
  destruct p. unfold only_active. simpl. repeat split.
  apply same_but_active_alter. intros l x Hx.
  unfold tokens_remove. rewrite list_elem_of_filter. tauto.
Qed.

Lemma only_active_addClass element p :
  only_active p (addClass element "active" p).
Proof.
  destruct p. unfold only_active. simpl. repeat split.
  apply same_but_active_alter. intros l x Hx.
  unfold tokens_add. destruct (contains "active" l); [tauto|].
  rewrite elem_of_app, list_elem_of_singleton. tauto.
Qed.

Lemma only_active_updateActiveNavLink activeHref p :
  only_active p (updateActiveNavLink activeHref p).
Proof.
  unfold updateActiveNavLink. apply only_active_foldl. intros q link.
  cbv zeta.
  eapply only_active_trans; [apply only_active_removeClass|].
  destruct (bool_decide _);
    [apply only_active_addClass|apply only_active_refl].
Qed.

Lemma only_active_sectionObserverCallback entries p :
  only_active p (sectionObserverCallback entries p).
Proof.
  apply only_active_foldl. intros q entry.
  destruct (isIntersecting entry); [|apply only_active_refl].
  cbv zeta.
  eapply only_active_trans; [|apply only_active_updateActiveNavLink].
  destruct q. apply only_active_same; reflexivity.
Qed.

(** With no observer but the one of the sections and no frame pending,
    an event leaves the page as it is, but for [active]. *)
Lemma idle_step listens p ev :
  (∀ o, o ∈ observers p → o = SectionObserver) → frames p = [] →
  only_active p (step listens p ev).
Proof.
  intros Ho Hf.
  destruct ev as [o t entries|t|matches]; simpl.
  - destruct (bool_decide (o ∈ observers p)) eqn:Hin;
      [|apply only_active_refl].
    apply bool_decide_eq_true in Hin. rewrite (Ho o Hin). simpl.
    eapply only_active_trans; [|apply only_active_sectionObserverCallback].
    destruct p. apply only_active_same; reflexivity.
  - unfold animationFrame. rewrite Hf. simpl.
    destruct p. simpl in Hf. subst. apply only_active_same; reflexivity.
  - destruct listens; [|apply only_active_refl].
    destruct p. apply only_active_same; reflexivity.
Qed.

Lemma idle_run listens evs : ∀ p,
  (∀ o, o ∈ observers p → o = SectionObserver) → frames p = [] →
  only_active p (run listens evs p).
Proof.
  induction evs as [|ev evs IH]; intros p Ho Hf; simpl;
    [apply only_active_refl|].
  pose proof (idle_step listens p ev Ho Hf) as Hstep.
  eapply only_active_trans; [exact Hstep|].
  destruct Hstep as (Ho' & Hf' & _).
  apply IH; [rewrite Ho'; exact Ho|rewrite Hf'; exact Hf].
Qed.

(** What [initApp] leaves behind when the preference is reduced motion. *)
Lemma initApp_reduced (hero rest : Lang.outcome unit) p :
  let p' := initApp true hero rest p in
  (∀ o, o ∈ observers p → o = SectionObserver) →
  (∀ o, o ∈ observers p' → o = SectionObserver) ∧
  frames p' = frames p ∧ texts p' = texts p ∧ classes p' = classes p ∧
  counterRuns p' = counterRuns p ∧ statsAnimated p' = statsAnimated p.
Proof.
  intros p' Ho. subst p'. unfold initApp, initScrollEffects,
    setupIntersectionObserver, setupSectionDetection, initNavigation.
  destruct p as [t c x stats fs os animated reduced runs h s links cs body].
  simpl in Ho. simpl.
  assert (Ho' : ∀ o, o ∈ (os ++ [SectionObserver])%list → o = SectionObserver).
  { intros o Hin. apply elem_of_app in Hin as [Hin|Hin]; [apply Ho, Hin|].
    apply list_elem_of_singleton in Hin. exact Hin. }
  destruct hero as [[]|error]; [|simpl; auto 10].
  destruct (map_to_list s) as [|section rest_of]; simpl;
    destruct rest as [[]|error]; simpl; auto 10.
Qed.

(** X: reduced motion at page load switches the reveal of version 2.0.0
    off for good.  [setupIntersectionObserver] then creates no observer,
    and nothing creates one later; the only observer the page can have
    is the one [setupSectionDetection] creates, which moves [active]
    between the navigation links.  So whatever the observers report,
    whichever frames run and however the preference changes afterwards,
    no frame is requested, no statistic is written, the counter never
    runs, and the class lists are as the markup has them but for
    [active]: nothing is revealed.  This holds whether [initApp] gets to
    the end of its [try] block or not.
    [script.js] reads the preference too but creates its statistics
    observer all the same, so there the first intersecting entry starts
    the counter. *)
Theorem reduced_motion_at_load_disables_reveal
    (c : gmap nat (list string)) (x : gmap nat string)
    (stats : list (nat * Z)) (h s : gmap nat string)
    (hero rest : Lang.outcome unit) (evs : list event) :
  (let p := run true evs (initApp true hero rest (document c x stats h s)) in
   (VisibilityObserver ∉ observers p) ∧ frames p = [] ∧ texts p = x ∧
   counterRuns p = 0 ∧ statsAnimated p = false ∧
   same_but_active c (classes p)) ∧
  (stats ≠ [] →
   ∀ t element,
     counterRuns
       (step false (Observers.init true (document c x stats h s))
          (Intersection StatsObserver t [mkEntry true element])) = 1).
Proof.
  split.
  - destruct (initApp_reduced hero rest (document c x stats h s))
      as (Ho & Hf & Hx & Hc & Hr & Ha).
    { intros o Hin. apply not_elem_of_nil in Hin. contradiction. }
    destruct (idle_run true evs _ Ho Hf) as (Ho' & Hf' & Hx' & Hr' & Ha' & Hc').
    cbv zeta. rewrite Hf', Hx', Hr', Ha', Hf, Hx, Hr, Ha.
    rewrite Hc in Hc'. split; [|auto 10].
    rewrite Ho'. intros Hin. specialize (Ho _ Hin). discriminate.
  - intros Hstats t element.
    assert (Hq : StatsObserver ∈ observers (Observers.init true
                                              (document c x stats h s)) ∧
                 statsAnimated (Observers.init true (document c x stats h s))
                 = false ∧
                 counterRuns (Observers.init true (document c x stats h s))
                 = 0).
    { unfold Observers.init, initStatsCounter, initScrollAnimations.
      destruct stats as [|stat stats]; [congruence|]. simpl.
      destruct (animatedElements _); simpl;
        (split; [apply list_elem_of_here|auto]). }
    destruct Hq as (Hin & Hanimated & Hruns).
    generalize dependent (Observers.init true (document c x stats h s)).
    intros q Hin Hanimated Hruns. simpl.
    rewrite bool_decide_eq_true_2 by exact Hin.
    unfold statsObserverCallback. simpl.
    rewrite Hanimated. simpl.
    destruct (animateStats_effect
                (mkPage t (classes q) (texts q) (statNumbers q) (frames q)
                   (observers q) true (reducedMotion q) (counterRuns q)
                   (hrefs q) (sections q) (navLinks q) (currentSection q)
                   (bodyClasses q)))
      as (fs & -> & _).
    simpl. rewrite Hruns. reflexivity.
Qed.
End Frames.

(** A page with two links and a section, loaded under reduced motion:
    the body is marked, the section observer is the only observer, and a
    report that the section is in view moves [active] to its link; a
    report for the card is ignored and the card is not revealed. *)
Lemma section_detection_under_reduced_motion :
  let p := initApp true (Lang.Returns tt) (Lang.Returns tt)
             (document {[ 1 := ["nav-link"; "active"]; 2 := ["nav-link"];
                          3 := ["fade-in-up"] ]}
                ∅ [] {[ 1 := "#hero"; 2 := "#about" ]} {[ 10 := "about" ]}) in
  let p' := run true [Intersection VisibilityObserver 5 [mkEntry true 3];
                      Intersection SectionObserver 5 [mkEntry true 10];
                      AnimationFrame 16] p in
  observers p = [SectionObserver] ∧ bodyClasses p = ["reduced-motion"] ∧
  classes p' !! 1 = Some ["nav-link"] ∧
  classes p' !! 2 = Some ["nav-link"; "active"] ∧
  classes p' !! 3 = Some ["fade-in-up"] ∧
  currentSection p' = "about".
Proof. vm_compute. auto 10. Qed.

End IdleFacts.
